(** * AutoDNS domain health checker: a shallow embedding and its properties

    The embedding follows the JavaScript sources file by file:
    - [Js], [Validators]: the fragments of the JavaScript standard library
      and of utils/validators.js that the libraries rely on;
    - the effect monad [M]: the requests made to the outside world (DNS,
      HTTPS, the zone API), the store of mutable objects, exceptions;
    - lib/dns-operations.js, lib/spf.js, lib/autodns-client.js (the token
      bucket [Limiter], the retry loop and the three API calls),
      lib/dmarc.js, lib/dkim.js, lib/health-checks.js and
      lib/domain-processor.js.
    The vocabulary of the properties and the scenarios follow, then the
    properties themselves, C1 to C10.

    JavaScript strings are modelled as sequences of 8-bit code units (the
    Latin-1 range of UTF-16); DNS names, SPF terms and record values live in
    that range.  An [await] is a step of the single flow of control: every
    request is answered, by a value or by a rejection. *)

From Stdlib Require Import ZArith Ascii String List Lia Bool.
From stdpp Require Import gmap strings list fin_maps.

Local Open Scope Z_scope.
Set Warnings "-clear-no-such-hyp".

(* ===================================================================== *)
(** ** JavaScript strings and arrays *)
(* ===================================================================== *)

Module Js.

(** The double quote, used by the template strings of the report. *)
Definition dquote : string := String (ascii_of_nat 34) EmptyString.

(** [\s] of a JavaScript regular expression, restricted to 8-bit code
    units: TAB, LF, VT, FF, CR, SPACE and NBSP. *)
Definition is_ws (c : ascii) : bool :=
  let n := nat_of_ascii c in
  ((9 <=? n)%nat && (n <=? 13)%nat) || (n =? 32)%nat || (n =? 160)%nat.

(** [s.startsWith(p)] *)
Definition startsWith (p s : string) : bool := String.prefix p s.

(** [s.includes(sub)] *)
Fixpoint includes (sub s : string) : bool :=
  String.prefix sub s ||
  match s with
  | EmptyString => false
  | String _ t => includes sub t
  end.

(** [s.substring(n)] *)
Fixpoint substring_from (n : nat) (s : string) : string :=
  match n, s with
  | O, _ => s
  | S k, EmptyString => EmptyString
  | S k, String _ t => substring_from k t
  end.

(** [s.substring(0, n)] *)
Fixpoint substring_to (n : nat) (s : string) : string :=
  match n, s with
  | O, _ => EmptyString
  | S k, EmptyString => EmptyString
  | S k, String c t => String c (substring_to k t)
  end.

(** [s.endsWith(suffix)] *)
Definition endsWith (suffix s : string) : bool :=
  (String.length suffix <=? String.length s)%nat &&
  String.eqb (substring_from (String.length s - String.length suffix) s) suffix.

(** [parts.join(sep)] on an array of strings *)
Definition join (sep : string) (parts : list string) : string :=
  String.concat sep parts.

(** Drop a maximal run of white space at the head of [s]. *)
Fixpoint skip_ws (s : string) : string :=
  match s with
  | String c t => if is_ws c then skip_ws t else s
  | EmptyString => EmptyString
  end.

(** [s.split(/\s+/)]: [cur] is the piece being read, reversed;
    [in_ws] tells whether the previous code unit was white space.  The
    last piece is always emitted, also when it is empty. *)
Fixpoint split_ws_go (cur : string) (in_ws : bool) (s : string) : list string :=
  match s with
  | EmptyString => [String.rev cur]
  | String c t =>
      if is_ws c then
        if in_ws then split_ws_go cur true t
        else String.rev cur :: split_ws_go EmptyString true t
      else split_ws_go (String c cur) false t
  end.

Definition split_ws (s : string) : list string :=
  split_ws_go EmptyString false s.

(** [s.split(sep)] for a separator of one code unit; [cur] is the piece
    being read, reversed. *)
Fixpoint split_on_go (sep : ascii) (cur : string) (s : string) : list string :=
  match s with
  | EmptyString => [String.rev cur]
  | String c t =>
      if Ascii.eqb c sep then String.rev cur :: split_on_go sep EmptyString t
      else split_on_go sep (String c cur) t
  end.

Definition split_on (sep : ascii) (s : string) : list string :=
  split_on_go sep EmptyString s.

(** [s.trim()] *)
Definition trim (s : string) : string :=
  String.rev (skip_ws (String.rev (skip_ws s))).

(** [s.replace(/\s+/g, ' ')]: a maximal run of white space becomes one
    space; [in_ws] tells whether the run has already been replaced. *)
Fixpoint collapse_ws_go (in_ws : bool) (s : string) : string :=
  match s with
  | EmptyString => EmptyString
  | String c t =>
      if is_ws c then
        if in_ws then collapse_ws_go true t
        else String " "%char (collapse_ws_go true t)
      else String c (collapse_ws_go false t)
  end.

Definition collapse_ws (s : string) : string := collapse_ws_go false s.

(** [s.replace(/;\s*/g, ';')]: white space that follows a semicolon is
    dropped; [after_semi] tells whether such a run is being read. *)
Fixpoint strip_ws_after_semicolon_go (after_semi : bool) (s : string) : string :=
  match s with
  | EmptyString => EmptyString
  | String c t =>
      if Ascii.eqb c ";"%char
      then String c (strip_ws_after_semicolon_go true t)
      else if is_ws c && after_semi
           then strip_ws_after_semicolon_go true t
           else String c (strip_ws_after_semicolon_go false t)
  end.

Definition strip_ws_after_semicolon (s : string) : string :=
  strip_ws_after_semicolon_go false s.

(** [s.replace(/\.$/, '')] *)
Definition strip_trailing_dot (s : string) : string :=
  if endsWith "." s then substring_to (String.length s - 1) s else s.

(** [s.replace(pat, '')] with a string pattern: only the first occurrence
    is removed. *)
Fixpoint remove_first (pat s : string) : string :=
  if String.prefix pat s then substring_from (String.length pat) s
  else match s with
       | EmptyString => EmptyString
       | String c t => String c (remove_first pat t)
       end.

(** [s.toLowerCase()] on 8-bit code units. *)
Definition lower_char (c : ascii) : ascii :=
  let n := nat_of_ascii c in
  if ((65 <=? n)%nat && (n <=? 90)%nat) ||
     ((192 <=? n)%nat && (n <=? 222)%nat && negb (n =? 215)%nat)
  then ascii_of_nat (n + 32) else c.

Fixpoint toLowerCase (s : string) : string :=
  match s with
  | EmptyString => EmptyString
  | String c t => String (lower_char c) (toLowerCase t)
  end.

(** Truthiness of a string value, and of a possibly [null] string. *)
Definition truthy (s : string) : bool := negb (String.eqb s EmptyString).

Definition truthy_opt (o : option string) : bool :=
  match o with Some s => truthy s | None => false end.

(** [[...new Set(xs)]]: a [Set] iterates in insertion order and ignores
    the insertion of a member, so the first occurrence of each string
    stays, in the order of first occurrence. *)
Fixpoint uniq_go (seen : list string) (xs : list string) : list string :=
  match xs with
  | [] => []
  | x :: xs' =>
      if bool_decide (x ∈ seen) then uniq_go seen xs'
      else x :: uniq_go (x :: seen) xs'
  end.

Definition uniq (xs : list string) : list string := uniq_go [] xs.

(** [xs.find(p)] *)
Definition find {A} (p : A -> bool) (xs : list A) : option A := List.find p xs.

End Js.

(** ** utils/validators.js *)

Module Validators.

Definition is_alnum (c : ascii) : bool :=
  let n := nat_of_ascii c in
  ((48 <=? n)%nat && (n <=? 57)%nat) ||
  ((65 <=? n)%nat && (n <=? 90)%nat) ||
  ((97 <=? n)%nat && (n <=? 122)%nat).

Definition is_label_char (c : ascii) : bool :=
  is_alnum c || Ascii.eqb c "-"%char.

Definition split_dot (s : string) : list string := Js.split_on "."%char s.

Definition first_char (s : string) : option ascii :=
  match s with String c _ => Some c | EmptyString => None end.

Definition last_char (s : string) : option ascii := first_char (String.rev s).

Definition all_chars (p : ascii -> bool) (s : string) : bool :=
  forallb p (list_ascii_of_string s).

(** One label of the regular expression
    [[a-z0-9](?:[a-z0-9-]{0,61}[a-z0-9])?] under the [i] flag. *)
Definition valid_label (l : string) : bool :=
  match first_char l, last_char l with
  | Some a, Some z =>
      is_alnum a && is_alnum z && all_chars is_label_char l &&
      (String.length l <=? 63)%nat
  | _, _ => false
  end.

Definition isValidDomainName (domain : string) : bool :=
  if String.eqb domain EmptyString || (253 <? String.length domain)%nat then false
  else forallb valid_label (split_dot domain).

(** [sanitizeDomainName]: [None] stands for the thrown
    [Error('Invalid domain name: ...')]. *)
Definition sanitizeDomainName (domain : string) : option string :=
  let sanitized := Js.trim (Js.toLowerCase domain) in
  if isValidDomainName sanitized then Some sanitized else None.

End Validators.

(* ===================================================================== *)
(** ** Effects: requests, object store, exceptions *)
(* ===================================================================== *)

(** A thrown [Error]: its [message], its [code] (set by the DNS and socket
    layers) and [response.status] (set by axios on an HTTP error reply). *)
Record JsError := mkError {
  e_message : string;
  e_code : option string;
  e_status : option Z;
}.

Definition js_Error (msg : string) : JsError :=
  {| e_message := msg; e_code := None; e_status := None |}.

(** What travels up a [throw]: an error, or p-retry's [AbortError]
    wrapping the original error. *)
Inductive Exn :=
| Plain (e : JsError)
| AbortError (e : JsError).

Definition original (x : Exn) : JsError :=
  match x with Plain e | AbortError e => e end.

(** A resource record of a zone, as the API serialises it. *)
Record RR := mkRR {
  rr_name : string;
  rr_type : string;
  rr_value : option string;
  rr_ttl : Z;
}.

(** The value of a top-level field of a zone object.  [FOpaque] keeps any
    other JSON subtree by its serialisation; under [resourceRecords] the
    API sends an array of records or nothing, so that [FRecords] is the one
    array that field holds. *)
Inductive FieldVal :=
| FNull
| FBool (b : bool)
| FNum (z : Z)
| FStr (s : string)
| FRecords (rrs : list RR)
| FOpaque (json : string).

(** A JavaScript object used as a record of top-level fields. *)
Abbreviation Obj := (gmap string FieldVal).

(** Objects live in a store; a reference is an index in it. *)
Abbreviation loc := nat (only parsing).

(** The [status] envelope of an API reply. *)
Record ApiStatus := mkStatus {
  st_type : string;
  st_text : string;
}.

(** The body of [GET /zone/{name}]: [data] is absent or an array of zones. *)
Record ZoneBody := mkZoneBody {
  zb_status : option ApiStatus;
  zb_data : option (list Obj);
}.

(** The same body once parsed: every zone is an object of the store. *)
Record ZoneInfo := mkZoneInfo {
  zi_status : option ApiStatus;
  zi_data : option (list loc);
}.

(** The body of [PUT /zone/{name}] and of the dry run. *)
Record ApiResponse := mkResponse {
  resp_status : option ApiStatus;
}.

(** A domain of [POST /domain/_search]. *)
Record DomainEntry := mkDomain {
  d_name : option string;
  d_origin : option string;
}.

Record SearchBody := mkSearch {
  sb_status : option ApiStatus;
  sb_data : option (list DomainEntry);
}.

Record MxRecord := mkMx {
  mx_exchange : string;
  mx_priority : Z;
}.

Record SoaRecord := mkSoa {
  soa_refresh : Z;
  soa_retry : Z;
  soa_expire : Z;
  soa_minttl : Z;
}.

(** A CAA answer of node's resolver: the property is a field of the
    record ([issue], [issuewild], ...); [tag] is kept for the test on it. *)
Record CaaRecord := mkCaa {
  caa_issue : option string;
  caa_issuewild : option string;
  caa_tag : option string;
}.

(** Everything the program asks of the outside world, in order. *)
Inductive Event :=
| EvTxt (name : string)
| EvA (host : string)
| EvAAAA (host : string)
| EvMx (name : string)
| EvNs (name : string)
| EvSoa (name : string)
| EvCaa (name : string)
| EvPtr (ip : string)
| EvHttpsGet (url : string)
| EvAcquire
| EvSleep (ms : Z)
| EvTimer (ms : Z)
| EvApiSearch
| EvApiGet (zone : string)
| EvApiPut (zone : string) (payload : Obj).

Abbreviation Trace := (list Event).

(** The answer to a request: a value or a rejection. *)
Inductive Reply (A : Type) :=
| Ok (a : A)
| Fail (e : JsError).
Arguments Ok {A} a.
Arguments Fail {A} e.

(** The outside world.  Every answer may depend on the requests made so
    far, so that resolvers and servers may be flaky, stateful or slow. *)
Record Env := mkEnv {
  dns_txt : Trace -> string -> Reply (list (list string));
  dns_a : Trace -> string -> Reply (list string);
  dns_aaaa : Trace -> string -> Reply (list string);
  dns_mx : Trace -> string -> Reply (list MxRecord);
  dns_ns : Trace -> string -> Reply (list string);
  dns_soa : Trace -> string -> Reply (option SoaRecord);
  dns_caa : Trace -> string -> Reply (list CaaRecord);
  dns_ptr : Trace -> string -> Reply (list string);
  https_get : Trace -> string -> Reply (option string);
  api_search : Trace -> Reply SearchBody;
  api_get_zone : Trace -> string -> Reply ZoneBody;
  api_put_zone : Trace -> string -> Obj -> Reply ApiResponse;
  timer_wins : Trace -> bool;
}.

(** The state a computation threads: the requests made and the objects. *)
Record St := mkSt {
  trace : Trace;
  heap : list Obj;
}.

Inductive Outcome (A : Type) :=
| Val (a : A)
| Exc (x : Exn).
Arguments Val {A} a.
Arguments Exc {A} x.

Definition M (A : Type) : Type := St -> Outcome A * St.

Definition ret {A} (a : A) : M A := fun s => (Val a, s).

Definition bind {A B} (m : M A) (k : A -> M B) : M B :=
  fun s => match m s with
           | (Val a, s') => k a s'
           | (Exc x, s') => (Exc x, s')
           end.

Definition throw {A} (x : Exn) : M A := fun s => (Exc x, s).

Definition throw_error {A} (msg : string) : M A := throw (Plain (js_Error msg)).

(** [try { m } catch (x) { h x }] *)
Definition try_catch {A} (m : M A) (h : Exn -> M A) : M A :=
  fun s => match m s with
           | (Val a, s') => (Val a, s')
           | (Exc x, s') => h x s'
           end.

Declare Scope eff_scope.
Delimit Scope eff_scope with eff.
Notation "x <- m ;; k" := (bind m (fun x => k))
  (at level 100, m at next level, right associativity) : eff_scope.
Notation "m ;;; k" := (bind m (fun _ => k))
  (at level 100, right associativity) : eff_scope.
Local Open Scope eff_scope.

(** Issue a request: log it, and take the world's answer, which depends on
    the requests logged before it. *)
Definition request {A} (ev : Event) (answer : Trace -> Reply A) : M A :=
  fun s =>
    let s' := {| trace := trace s ++ [ev]; heap := heap s |} in
    match answer (trace s) with
    | Ok a => (Val a, s')
    | Fail e => (Exc (Plain e), s')
    end.

(** Log an event that has no answer (a pause, a token). *)
Definition emit (ev : Event) : M unit :=
  fun s => (Val tt, {| trace := trace s ++ [ev]; heap := heap s |}).

(** [new] object *)
Definition alloc (o : Obj) : M loc :=
  fun s => (Val (length (heap s)), {| trace := trace s; heap := heap s ++ [o] |}).

(** Read the object at a reference; a dangling reference reads as the
    empty object. *)
Definition deref (r : loc) : M Obj :=
  fun s => (Val (default ∅ (heap s !! r)), s).

(** [obj.field = v], [delete obj.field], ...: replace the object at [r]. *)
Definition modify (r : loc) (f : Obj -> Obj) : M unit :=
  fun s => (Val tt, {| trace := trace s;
                       heap := alter f r (heap s) |}).

Fixpoint mapM {A B} (f : A -> M B) (xs : list A) : M (list B) :=
  match xs with
  | [] => ret []
  | x :: xs' => y <- f x ;; ys <- mapM f xs' ;; ret (y :: ys)
  end.

(* ===================================================================== *)
(** ** lib/dns-operations.js *)
(* ===================================================================== *)

Section DnsOperations.
Context (env : Env).

Definition resolveTxt (name : string) : M (list (list string)) :=
  request (EvTxt name) (fun t => dns_txt env t name).

Definition resolve4 (host : string) : M (list string) :=
  request (EvA host) (fun t => dns_a env t host).

Definition resolve6 (host : string) : M (list string) :=
  request (EvAAAA host) (fun t => dns_aaaa env t host).

Definition resolveMx (name : string) : M (list MxRecord) :=
  request (EvMx name) (fun t => dns_mx env t name).

Definition resolveNs (name : string) : M (list string) :=
  request (EvNs name) (fun t => dns_ns env t name).

Definition resolveSoa (name : string) : M (option SoaRecord) :=
  request (EvSoa name) (fun t => dns_soa env t name).

Definition resolveCaa (name : string) : M (list CaaRecord) :=
  request (EvCaa name) (fun t => dns_caa env t name).

Definition reversePtr (ip : string) : M (list string) :=
  request (EvPtr ip) (fun t => dns_ptr env t ip).

(** [p.catch(() => [])] *)
Definition or_empty {A} (m : M (list A)) : M (list A) :=
  try_catch m (fun _ => ret []).

Definition safeResolveTxt (name : string) : M (list (list string)) :=
  try_catch (resolveTxt name) (fun _ => ret []).

Definition resolveHostToIPs (hostname : string) : M (list string) :=
  ips4 <- try_catch (ipv4 <- resolve4 hostname ;;
                     ret (map (fun ip => "ip4:" +:+ ip) ipv4))
                    (fun _ => ret []) ;;
  ips6 <- try_catch (ipv6 <- resolve6 hostname ;;
                     ret (map (fun ip => "ip6:" +:+ ip) ipv6))
                    (fun _ => ret []) ;;
  ret (ips4 ++ ips6).

(** The loop of [resolveMxToIPs] over the MX answers; whatever was pushed
    before an exception stays in [ips]. *)
Fixpoint mx_hosts_to_ips (mxRecords : list MxRecord) (ips : list string)
  : M (list string) :=
  match mxRecords with
  | [] => ret ips
  | mx :: rest =>
      fun s => match resolveHostToIPs (mx_exchange mx) s with
               | (Val mxIps, s1) => mx_hosts_to_ips rest (ips ++ mxIps) s1
               | (Exc _, s1) => (Val ips, s1)
               end
  end.

Definition resolveMxToIPs (domain : string) : M (list string) :=
  fun s => match resolveMx domain s with
           | (Val mxRecords, s1) => mx_hosts_to_ips mxRecords [] s1
           | (Exc _, s1) => (Val [], s1)
           end.

(** [for (const rr of zone.resourceRecords || [])]: the records the loop
    visits.  A falsy value gives no turn; a string is iterated by code unit
    and no code unit is a record; any other value is not iterable. *)
Definition iter_records (zone : Obj) : M (list RR) :=
  match zone !! "resourceRecords" with
  | Some (FRecords rrs) => ret rrs
  | None | Some FNull | Some (FStr _) | Some (FBool false) => ret []
  | Some (FNum z) =>
      if z =? 0 then ret []
      else throw_error "zone.resourceRecords is not iterable"
  | Some _ => throw_error "zone.resourceRecords is not iterable"
  end.

Definition is_apex (name : string) : bool :=
  String.eqb name "" || String.eqb name "@".

(** The values of the apex records of one type; a missing [value] prints
    as the empty string in the [join] of the caller. *)
Definition apex_values (ty : string) (rrs : list RR) : list string :=
  omap (fun rr => if String.eqb (rr_type rr) ty && is_apex (rr_name rr)
                  then Some (default "" (rr_value rr)) else None) rrs.

Definition getARecords (zone : Obj) (domainName : string) : M (list string) :=
  rrs <- iter_records zone ;;
  match apex_values "A" rrs with
  | [] => try_catch (resolve4 domainName) (fun _ => ret [])
  | aRecords => ret aRecords
  end.

Definition getAAAARecords (zone : Obj) (domainName : string) : M (list string) :=
  rrs <- iter_records zone ;;
  match apex_values "AAAA" rrs with
  | [] => try_catch (resolve6 domainName) (fun _ => ret [])
  | aaaaRecords => ret aaaaRecords
  end.

Definition getMXRecords (zone : Obj) (domainName : string) : M (list string) :=
  rrs <- iter_records zone ;;
  match apex_values "MX" rrs with
  | [] => try_catch (mxRaw <- resolveMx domainName ;; ret (map mx_exchange mxRaw))
                    (fun _ => ret [])
  | mxRecords => ret mxRecords
  end.

(** The loop of [nsHostsResolvable]. *)
Fixpoint nsHostsResolvable_from (ok : bool) (nsHosts : list string) : M bool :=
  match nsHosts with
  | [] => ret ok
  | host :: rest =>
      a <- or_empty (resolve4 host) ;;
      aaaa <- or_empty (resolve6 host) ;;
      nsHostsResolvable_from
        (if (length a =? 0)%nat && (length aaaa =? 0)%nat then false else ok) rest
  end.

Definition nsHostsResolvable (nsHosts : list string) : M bool :=
  nsHostsResolvable_from true nsHosts.

End DnsOperations.

(* ===================================================================== *)
(** ** lib/spf.js: the resolver and the flattener *)
(* ===================================================================== *)

Record SpfResult := mkSpf {
  mechanisms : list string;
  modifiers : list string;
}.

Definition absent_code (e : JsError) : bool :=
  match e_code e with
  | Some c => String.eqb c "ENODATA" || String.eqb c "ENOTFOUND"
  | None => false
  end.

(** The type of [resolveSpfIncludes] itself, for the recursive call:
    [None] when the model runs out of fuel. *)
Abbreviation Resolver :=
  (string -> gset string -> nat -> St -> option (SpfResult * gset string * St)).

(** The tests of the [all] branch of the resolver. *)
Definition is_all_term (part : string) : bool :=
  String.eqb part "all" || Js.startsWith "-all" part ||
  Js.startsWith "~all" part || Js.startsWith "+all" part ||
  Js.startsWith "?all" part.

Section Spf.
Context (env : Env).

Definition getSPFRecord (domain : string) : M (option string) :=
  try_catch
    (records <- resolveTxt env domain ;;
     let spfRecords :=
       filter (fun r => Js.startsWith "v=spf1" r = true)
              (map (Js.join "") records) in
     ret (head spfRecords))
    (fun x => if absent_code (original x) then ret None else throw x).

(** The [for (const part of parts)] loop of [resolveSpfIncludes]; [self]
    is the function itself.  The visited set is one shared, mutable [Set]:
    it is threaded through every call and returned. *)
Fixpoint resolve_parts (self : Resolver) (parts : list string)
    (mechs mods : list string) (visited : gset string) (depth : nat) (s : St)
  : option (SpfResult * gset string * St) :=
  match parts with
  | [] => Some ({| mechanisms := mechs; modifiers := mods |}, visited, s)
  | part :: rest =>
      if String.eqb part "v=spf1" then
        resolve_parts self rest mechs mods visited depth s
      else if Js.startsWith "include:" part then
        let includeDomain := Js.substring_from 8 part in
        if bool_decide (includeDomain ∈ visited) then
          resolve_parts self rest mechs mods visited depth s
        else
          let visited1 := {[includeDomain]} ∪ visited in
          match getSPFRecord includeDomain s with
          | (Val includeSpf, s1) =>
              if Js.truthy_opt includeSpf then
                match self (default "" includeSpf) visited1 (S depth) s1 with
                | Some (resolved, visited2, s2) =>
                    resolve_parts self rest
                      (mechs ++ mechanisms resolved)
                      (mods ++ modifiers resolved) visited2 depth s2
                | None => None
                end
              else resolve_parts self rest mechs mods visited1 depth s1
          | (Exc _, s1) => resolve_parts self rest mechs mods visited1 depth s1
          end
      else if Js.startsWith "redirect=" part then
        resolve_parts self rest mechs (mods ++ [part]) visited depth s
      else if is_all_term part then
        resolve_parts self rest mechs (mods ++ [part]) visited depth s
      else if String.eqb part "a" || String.eqb part "mx" then
        resolve_parts self rest (mechs ++ [part]) mods visited depth s
      else if Js.startsWith "a:" part then
        let hostname := Js.substring_from 2 part in
        match resolveHostToIPs env hostname s with
        | (Val ips, s1) => resolve_parts self rest (mechs ++ ips) mods visited depth s1
        | (Exc _, s1) => resolve_parts self rest (mechs ++ [part]) mods visited depth s1
        end
      else if Js.startsWith "mx:" part then
        let domain := Js.substring_from 3 part in
        match resolveMxToIPs env domain s with
        | (Val ips, s1) => resolve_parts self rest (mechs ++ ips) mods visited depth s1
        | (Exc _, s1) => resolve_parts self rest (mechs ++ [part]) mods visited depth s1
        end
      else
        resolve_parts self rest (mechs ++ [part]) mods visited depth s
  end.

(** [resolveSpfIncludes(spfRecord, visited, depth)].  [fuel] bounds the
    nesting of calls of the model; the source has no such bound of its own
    beyond the test on [depth]. *)
Fixpoint resolveSpfIncludes_fuel (fuel : nat) (spfRecord : string)
    (visited : gset string) (depth : nat) (s : St)
  : option (SpfResult * gset string * St) :=
  match fuel with
  | O => None
  | S fuel' =>
      if (10 <? depth)%nat then
        Some ({| mechanisms := []; modifiers := [] |}, visited, s)
      else
        resolve_parts (resolveSpfIncludes_fuel fuel')
                      (Js.split_ws spfRecord) [] [] visited depth s
  end.

(** Fuel that suffices for a call at [depth]. *)
Definition spf_fuel (depth : nat) : nat := S (11 - depth).

(** [resolveSpfIncludes] with its default arguments filled in by the
    caller; the fall-back of the [match] is never taken
    (see [resolveSpfIncludes_fuel_enough]). *)
Definition resolveSpfIncludes (spfRecord : string) (visited : gset string)
    (depth : nat) (s : St) : SpfResult * gset string * St :=
  match resolveSpfIncludes_fuel (spf_fuel depth) spfRecord visited depth s with
  | Some r => r
  | None => ({| mechanisms := []; modifiers := [] |}, visited, s)
  end.

(** The assembly of [buildFlattenedSpfRecord], from the resolved terms. *)
Definition assemble (resolved : SpfResult) : string :=
  let uniqueMechanisms := Js.uniq (mechanisms resolved) in
  let uniqueModifiers := Js.uniq (modifiers resolved) in
  let parts := "v=spf1" :: uniqueMechanisms in
  let allModifier := Js.find (Js.includes "all") uniqueModifiers in
  let otherModifiers :=
    filter (fun m => negb (Js.includes "all" m) = true) uniqueModifiers in
  let parts := parts ++ otherModifiers in
  let parts := if Js.truthy_opt allModifier
               then parts ++ [default "" allModifier] else parts in
  Js.join " " parts.

Definition buildFlattenedSpfRecord (baseSpfRecord : string) : M string :=
  fun s =>
    let '(resolved, _, s1) := resolveSpfIncludes baseSpfRecord ∅ 0 s in
    (Val (assemble resolved), s1).

End Spf.

(* ===================================================================== *)
(** ** lib/autodns-client.js: the token bucket *)
(* ===================================================================== *)

Module Limiter.

(** [RATE_LIMIT] *)
Definition CAPACITY : nat := 3.
Definition REFILL_INTERVAL : Z := 1000.

(** A waiting caller is the [resolve] callback of its pending promise; the
    model names it. *)
Abbreviation Caller := nat (only parsing).

(** [autodnsRate] *)
Record RateLimiter := mkLimiter {
  capacity : nat;
  tokens : nat;
  queue : list Caller;
}.

Definition autodnsRate : RateLimiter :=
  {| capacity := CAPACITY; tokens := CAPACITY; queue := [] |}.

(** [rateLimitAutoDNS()], called by [c]: the new state and the callers whose
    promise is resolved by the call. *)
Definition rateLimitAutoDNS (c : Caller) (l : RateLimiter)
  : RateLimiter * list Caller :=
  match tokens l with
  | S n => ({| capacity := capacity l; tokens := n; queue := queue l |}, [c])
  | O => ({| capacity := capacity l; tokens := 0; queue := queue l ++ [c] |}, [])
  end.

(** The [while] loop of the refill callback: one token per waiting caller,
    from the head of the queue. *)
Fixpoint drain (tokens : nat) (queue processed : list Caller)
  : nat * list Caller * list Caller :=
  match tokens, queue with
  | S n, resolve :: rest => drain n rest (processed ++ [resolve])
  | _, _ => (tokens, queue, processed)
  end.

(** The callback of [setInterval]: refill, then release; the released
    callbacks are invoked in the order of [processed]. *)
Definition refill (l : RateLimiter) : RateLimiter * list Caller :=
  let '(t, q, processed) := drain (capacity l) (queue l) [] in
  ({| capacity := capacity l; tokens := t; queue := q |}, processed).

(** What happens to the limiter: a call, or a tick of the timer.  The
    event loop runs each to completion before the next. *)
Inductive Op :=
| Acquire (c : Caller)
| Tick.

Definition step (op : Op) (l : RateLimiter) : RateLimiter * list Caller :=
  match op with
  | Acquire c => rateLimitAutoDNS c l
  | Tick => refill l
  end.

(** Run a schedule; the second component lists the resolved callers in the
    order of their resolution. *)
Fixpoint run (ops : list Op) (l : RateLimiter) : RateLimiter * list Caller :=
  match ops with
  | [] => (l, [])
  | op :: rest =>
      let '(l1, r1) := step op l in
      let '(l2, r2) := run rest l1 in
      (l2, r1 ++ r2)
  end.

(** States the limiter can be in. *)
Inductive reachable : RateLimiter -> Prop :=
| reach_init : reachable autodnsRate
| reach_step op l : reachable l -> reachable (fst (step op l)).

End Limiter.

(* ===================================================================== *)
(** ** lib/autodns-client.js: retries and the three API calls *)
(* ===================================================================== *)

(** The part of [config] the libraries read. *)
Record Config := mkConfig {
  expectedSpf : string;
  expectedDmarc : string;
  dmarcReportAuthDomain : string;
  dkimSelectors : list string;
  dryRun : bool;
}.

(** [RETRY_CONFIG] *)
Definition RETRIES : nat := 3.
Definition MIN_TIMEOUT : Z := 1000.
Definition MAX_TIMEOUT : Z := 5000.
Definition FACTOR : Z := 2.

Definition code_is (e : JsError) (c : string) : bool :=
  match e_code e with Some c' => String.eqb c' c | None => false end.

Definition isRetryableError (error : JsError) : bool :=
  if code_is error "ECONNRESET" || code_is error "ETIMEDOUT" ||
     code_is error "ENOTFOUND" then true
  else if match e_status error with Some st => 500 <=? st | None => false end
       then true
  else if match e_status error with Some st => st =? 429 | None => false end
       then true
  else false.

(** The pause p-retry takes after the failed attempt number [k + 1]:
    [min(minTimeout * factor^k, maxTimeout)], without randomisation. *)
Definition backoff (k : nat) : Z :=
  Z.min (MIN_TIMEOUT * FACTOR ^ Z.of_nat k) MAX_TIMEOUT.

(** [pRetry(input, {retries, ...})] of the p-retry package: run [input];
    an [AbortError] rejects at once with the error it wraps, any other
    error is retried after a pause while retries are left. *)
Fixpoint pRetry_from {A} (input : nat -> M A) (attemptNumber retriesLeft : nat)
  : M A :=
  fun s =>
    match input attemptNumber s with
    | (Val a, s1) => (Val a, s1)
    | (Exc (AbortError e), s1) => (Exc (Plain e), s1)
    | (Exc (Plain e), s1) =>
        match retriesLeft with
        | O => (Exc (Plain e), s1)
        | S r =>
            (emit (EvSleep (backoff (attemptNumber - 1))) ;;;
             pRetry_from input (S attemptNumber) r) s1
        end
    end.

Definition pRetry {A} (input : nat -> M A) : M A :=
  pRetry_from input 1 RETRIES.

(** The [catch] block shared by the three calls. *)
Definition classify {A} (x : Exn) : M A :=
  if negb (isRetryableError (original x))
  then throw (AbortError (original x))
  else throw x.

(** One attempt: take a token, run the request, classify its failure. *)
Definition attempt {A} (body : M A) : M A :=
  emit EvAcquire ;;; try_catch body classify.

(** [sanitizeDomainName] as a computation. *)
Definition sanitize (zoneName : string) : M string :=
  match Validators.sanitizeDomainName zoneName with
  | Some z => ret z
  | None => throw_error ("Invalid domain name: " +:+ zoneName)
  end.

(** [READ_ONLY_FIELDS] of [updateZone] *)
Definition readOnlyFields : list string :=
  ["created"; "updated"; "owner"; "updater"; "roid"].

Definition dry_run_response : ApiResponse :=
  {| resp_status := Some {| st_type := "SUCCESS";
                            st_text := "Dry-run mode: no changes made" |} |}.

Section Client.
Context (env : Env) (config : Config).

Definition queryDomains : M SearchBody :=
  pRetry (fun _ => attempt (request EvApiSearch (api_search env))).

(** The parsed body: every zone of [data] is a fresh object. *)
Definition parse_zone_body (b : ZoneBody) : M ZoneInfo :=
  match zb_data b with
  | None => ret {| zi_status := zb_status b; zi_data := None |}
  | Some zones =>
      refs <- mapM alloc zones ;;
      ret {| zi_status := zb_status b; zi_data := Some refs |}
  end.

Definition getZone (zoneName : string) : M ZoneInfo :=
  sanitizedZone <- sanitize zoneName ;;
  pRetry (fun _ =>
    attempt (body <- request (EvApiGet sanitizedZone)
                             (fun t => api_get_zone env t sanitizedZone) ;;
             parse_zone_body body)).

(** The body of one attempt of [updateZone]: copy, strip, send. *)
Definition put_zone (sanitizedZone : string) (zoneData : loc) : M ApiResponse :=
  original_fields <- deref zoneData ;;
  updatePayload <- alloc original_fields ;;
  mapM (fun field => modify updatePayload (delete field)) readOnlyFields ;;;
  payload <- deref updatePayload ;;
  request (EvApiPut sanitizedZone payload)
          (fun t => api_put_zone env t sanitizedZone payload).

Definition updateZone (zoneName : string) (zoneData : loc) : M ApiResponse :=
  sanitizedZone <- sanitize zoneName ;;
  if dryRun config then ret dry_run_response
  else pRetry (fun _ => attempt (put_zone sanitizedZone zoneData)).

End Client.

(* ===================================================================== *)
(** ** The reconcilers: lib/spf.js, lib/dmarc.js, lib/dkim.js *)
(* ===================================================================== *)

(** How [zone.resourceRecords] reads: falsy, an array of records, or some
    other truthy value (on which the array methods throw). *)
Inductive RecordsView :=
| RvFalsy
| RvArray (rrs : list RR)
| RvOther.

Definition records_view (zone : Obj) : RecordsView :=
  match zone !! "resourceRecords" with
  | None | Some FNull | Some (FBool false) => RvFalsy
  | Some (FNum z) => if z =? 0 then RvFalsy else RvOther
  | Some (FStr s) => if String.eqb s "" then RvFalsy else RvOther
  | Some (FRecords rrs) => RvArray rrs
  | Some _ => RvOther
  end.

(** The loops [for (const record of zone.resourceRecords) { if (p) {
    record.value = v; record.ttl = 300; found = true; break; } }]:
    [None] when no record matches. *)
Fixpoint update_first (p : RR -> bool) (v : string) (rrs : list RR)
  : option (list RR) :=
  match rrs with
  | [] => None
  | rr :: rest =>
      if p rr then
        Some ({| rr_name := rr_name rr; rr_type := rr_type rr;
                 rr_value := Some v; rr_ttl := 300 |} :: rest)
      else option_map (cons rr) (update_first p v rest)
  end.

(** The same loop followed by the [push] of a new record when none matched. *)
Definition upsert (p : RR -> bool) (name v : string) (rrs : list RR) : list RR :=
  match update_first p v rrs with
  | Some rrs' => rrs'
  | None => rrs ++ [{| rr_name := name; rr_type := "TXT";
                       rr_value := Some v; rr_ttl := 300 |}]
  end.

(** [zoneInfo.data[0]], or the throw of the three guards on [data]. *)
Definition first_zone (zoneInfo : ZoneInfo) : M loc :=
  match zi_data zoneInfo with
  | Some (zone :: _) => ret zone
  | _ => throw_error "Invalid zone data received"
  end.

(** What a reconciler does first with [zone.resourceRecords]: the SPF
    reconciler calls [.some] on it, the others iterate it with [for ... of]
    and [push] to it when no record matched. *)
Inductive FirstUse :=
| UseSome
| UseForOf.

(** The message of the [TypeError] that a truthy value which is no array
    raises there.  A string has no [some]; it is iterable, but none of its
    code units is a record, so that the [push] after the loop is what
    fails; any other value is not iterable. *)
Definition not_an_array (use : FirstUse) (v : FieldVal) : string :=
  match use, v with
  | UseSome, _ => "zone.resourceRecords.some is not a function"
  | UseForOf, FStr _ => "zone.resourceRecords.push is not a function"
  | UseForOf, _ => "zone.resourceRecords is not iterable"
  end.

(** [if (!zone.resourceRecords) { zone.resourceRecords = []; }] and the
    array that the following statements see. *)
Definition ensure_records (use : FirstUse) (zone : loc) : M (list RR) :=
  z <- deref zone ;;
  match records_view z with
  | RvFalsy =>
      modify zone (<["resourceRecords" := FRecords []]>) ;;; ret []
  | RvArray rrs => ret rrs
  | RvOther =>
      throw_error (not_an_array use (default FNull (z !! "resourceRecords")))
  end.

Definition is_apex_cname (rr : RR) : bool :=
  String.eqb (rr_type rr) "CNAME" && is_apex (rr_name rr).

Definition is_apex_spf (record : RR) : bool :=
  String.eqb (rr_type record) "TXT" && is_apex (rr_name record) &&
  Js.truthy_opt (rr_value record) &&
  Js.startsWith "v=spf1" (default "" (rr_value record)).

Definition apex_cname_message : string :=
  "Apex has a CNAME record; cannot add/update " +:+
  "SPF TXT at zone apex due to DNS constraints".

Section Reconcilers.
Context (env : Env) (config : Config).

Definition updateDomainSPFRecord (domainName spfValue : string) : M ApiResponse :=
  try_catch
    (zoneInfo <- getZone env domainName ;;
     zone <- first_zone zoneInfo ;;
     rrs <- ensure_records UseSome zone ;;
     let hasApexCname := existsb is_apex_cname rrs in
     if hasApexCname then throw_error apex_cname_message
     else
       modify zone (<["resourceRecords" :=
                       FRecords (upsert is_apex_spf "" spfValue rrs)]>) ;;;
       updateZone env config domainName zone)
    (fun error => throw error).

Definition is_dmarc_record (record : RR) : bool :=
  String.eqb (rr_type record) "TXT" && String.eqb (rr_name record) "_dmarc".

Definition getDMARCRecord (domain : string) : M (option string) :=
  try_catch
    (records <- resolveTxt env ("_dmarc." +:+ domain) ;;
     let dmarcRecords :=
       filter (fun r => Js.startsWith "v=DMARC1" r = true)
              (map (Js.join "") records) in
     ret (head dmarcRecords))
    (fun x => if absent_code (original x) then ret None else throw x).

Definition normalizeDMARC (dmarc : option string) : option string :=
  if Js.truthy_opt dmarc
  then Some (Js.trim (Js.collapse_ws (Js.strip_ws_after_semicolon (default "" dmarc))))
  else None.

Definition updateDomainDMARCRecord (domainName dmarcValue : string) : M bool :=
  try_catch
    (zoneInfo <- getZone env domainName ;;
     zone <- first_zone zoneInfo ;;
     rrs <- ensure_records UseForOf zone ;;
     modify zone (<["resourceRecords" :=
                     FRecords (upsert is_dmarc_record "_dmarc" dmarcValue rrs)]>) ;;;
     updateZone env config domainName zone ;;;
     ret true)
    (fun _ => ret false).

Definition addDMARCReportAuthRecord (domainName : string) : M bool :=
  let recordName := domainName +:+ "._report._dmarc" in
  let recordValue := "v=DMARC1" in
  try_catch
    (zoneInfo <- getZone env (dmarcReportAuthDomain config) ;;
     zone <- first_zone zoneInfo ;;
     rrs <- ensure_records UseForOf zone ;;
     let recordFound :=
       existsb (fun record => String.eqb (rr_type record) "TXT" &&
                              String.eqb (rr_name record) recordName) rrs in
     if negb recordFound then
       modify zone (<["resourceRecords" :=
                       FRecords (rrs ++ [{| rr_name := recordName; rr_type := "TXT";
                                            rr_value := Some recordValue;
                                            rr_ttl := 300 |}])]>) ;;;
       updateZone env config (dmarcReportAuthDomain config) zone ;;;
       ret true
     else ret true)
    (fun _ => ret false).

(** One entry of the result of the DKIM detection. *)
Record DkimResult := mkDkim {
  dk_selector : string;
  dk_found : bool;
  dk_record : option string;
  dk_fullValue : option string;
  dk_error : option string;
}.

Definition dkim_excerpt (full : string) : string :=
  Js.substring_to 50 full +:+ (if (50 <? String.length full)%nat then "..." else "").

Definition looks_like_dkim (record : string) : bool :=
  Js.includes "v=DKIM1" record || Js.includes "k=rsa" record ||
  Js.includes "p=" record.

(** One turn of the loop of [checkDKIMRecords]. *)
Definition check_selector (domain selector : string) : M (list DkimResult) :=
  try_catch
    (records <- resolveTxt env (selector +:+ "._domainkey." +:+ domain) ;;
     let dkimRecords :=
       filter (fun r => looks_like_dkim r = true) (map (Js.join "") records) in
     match dkimRecords with
     | full :: _ =>
         ret [{| dk_selector := selector; dk_found := true;
                 dk_record := Some (dkim_excerpt full);
                 dk_fullValue := Some full; dk_error := None |}]
     | [] => ret []
     end)
    (fun x =>
       if absent_code (original x) then ret []
       else ret [{| dk_selector := selector; dk_found := false;
                    dk_record := None; dk_fullValue := None;
                    dk_error := Some (e_message (original x)) |}]).

Definition checkDKIMRecords (domain : string) : M (list DkimResult) :=
  found <- mapM (check_selector domain) (dkimSelectors config) ;;
  ret (concat found).

Definition zone_dkim_entry (rr : RR) : option DkimResult :=
  if String.eqb (rr_type rr) "TXT" && Js.endsWith "._domainkey" (rr_name rr)
  then let full := default "" (rr_value rr) in
       Some {| dk_selector := Js.remove_first "._domainkey" (rr_name rr);
               dk_found := true; dk_record := Some (dkim_excerpt full);
               dk_fullValue := Some full; dk_error := None |}
  else None.

Definition listZoneDKIMRecords (domainName : string) : M (list DkimResult) :=
  try_catch
    (zoneInfo <- getZone env domainName ;;
     match zi_data zoneInfo with
     | Some (zone :: _) =>
         z <- deref zone ;;
         rrs <- iter_records z ;;
         ret (omap zone_dkim_entry rrs)
     | _ => ret []
     end)
    (fun _ => ret []).

Definition updateDomainDKIMRecord (domainName selector dkimValue : string) : M bool :=
  try_catch
    (zoneInfo <- getZone env domainName ;;
     zone <- first_zone zoneInfo ;;
     rrs <- ensure_records UseForOf zone ;;
     let recordName := selector +:+ "._domainkey" in
     modify zone (<["resourceRecords" :=
                     FRecords (upsert (fun rr => String.eqb (rr_type rr) "TXT" &&
                                                 String.eqb (rr_name rr) recordName)
                                      recordName dkimValue rrs)]>) ;;;
     updateZone env config domainName zone ;;;
     ret true)
    (fun _ => ret false).

End Reconcilers.

(* ===================================================================== *)
(** ** lib/health-checks.js *)
(* ===================================================================== *)

(** Every check returns an object whose [ok] field is all that the
    summary reads; the model returns that field. *)

Definition autodnsPatterns : list string :=
  ["a.ns14.net"; "b.ns14.net"; "c.ns14.net"; "d.ns14.net"].

Definition matches_autodns (nameserver : string) : bool :=
  let nsLower := Js.strip_trailing_dot (Js.toLowerCase nameserver) in
  existsb (fun pattern => String.eqb nsLower pattern ||
                          Js.endsWith ("." +:+ pattern) nsLower)
          autodnsPatterns.

Definition checkSOASanity (soa : option SoaRecord) : bool :=
  match soa with
  | None => false
  | Some r =>
      (3600 <=? soa_refresh r) && (soa_refresh r <=? 86400) &&
      (300 <=? soa_retry r) && (soa_retry r <=? 7200) &&
      (604800 <=? soa_expire r) && (soa_expire r <=? 2419200) &&
      (60 <=? soa_minttl r) && (soa_minttl r <=? 86400)
  end.

Definition caa_has_issue (r : CaaRecord) : bool :=
  Js.truthy_opt (caa_issue r) || Js.truthy_opt (caa_issuewild r) ||
  (Js.truthy_opt (caa_tag r) && Js.startsWith "issue" (default "" (caa_tag r))).

(** The [status] object of [buildHealthSummary], by its [ok] fields. *)
Record HealthStatus := mkHealth {
  h_ns : bool;
  h_soa : bool;
  h_caa : bool;
  h_mta : bool;
  h_tls : bool;
  h_mx : bool;
  h_ptr : bool;
}.

Definition flag (v : bool) : string := if v then "ok" else "fail".

Definition buildHealthSummary (status : HealthStatus) : string :=
  Js.join "; "
    ["NS:" +:+ flag (h_ns status); "SOA:" +:+ flag (h_soa status);
     "CAA:" +:+ flag (h_caa status); "MTA:" +:+ flag (h_mta status);
     "TLS:" +:+ flag (h_tls status); "PTR:" +:+ flag (h_ptr status)].

Section HealthChecks.
Context (env : Env).

Definition usesAutoDNSNameservers (domain : string) : M bool :=
  try_catch
    (ns <- resolveNs env domain ;;
     match ns with
     | [] => ret false
     | _ => ret (existsb matches_autodns ns)
     end)
    (fun _ => ret false).

Definition checkNS (domain : string) : M bool :=
  try_catch
    (ns <- resolveNs env domain ;;
     let countOk := (2 <=? length ns)%nat in
     resolvesOk <- nsHostsResolvable env ns ;;
     ret (countOk && resolvesOk))
    (fun _ => ret false).

Definition checkSOA (domain : string) : M bool :=
  try_catch (soa <- resolveSoa env domain ;; ret (checkSOASanity soa))
            (fun _ => ret false).

Definition checkCAA (domain : string) : M bool :=
  try_catch
    (caa <- or_empty (resolveCaa env domain) ;;
     let hasIssue := existsb caa_has_issue caa in
     let present := (0 <? length caa)%nat in
     ret (negb present || hasIssue))
    (fun _ => ret false).

Definition checkMtaSts (domain : string) : M bool :=
  try_catch
    (txt <- safeResolveTxt env ("_mta-sts." +:+ domain) ;;
     let txtFound := (0 <? length txt)%nat &&
                     Js.includes "v=STSv1" (Js.join "" (concat txt)) in
     httpsOk <-
       (if txtFound then
          try_catch
            (let url := "https://mta-sts." +:+ domain +:+ "/.well-known/mta-sts.txt" in
             data <- request (EvHttpsGet url) (fun t => https_get env t url) ;;
             ret (match data with
                  | Some body => Js.includes "version: STSv1" body
                  | None => false
                  end))
            (fun _ => ret false)
        else ret false) ;;
     ret (txtFound && httpsOk))
    (fun _ => ret false).

Definition checkTlsRpt (domain : string) : M bool :=
  try_catch
    (txt <- safeResolveTxt env ("_smtp._tls." +:+ domain) ;;
     let joined := Js.join "" (concat txt) in
     ret (Js.includes "v=TLSRPTv1" joined && Js.includes "rua=" joined))
    (fun _ => ret false).

Definition checkPTRForOutbound (mxHost : string) : M bool :=
  try_catch
    (v4 <- or_empty (resolve4 env mxHost) ;;
     v6 <- or_empty (resolve6 env mxHost) ;;
     match v4 ++ v6 with
     | [] => ret false
     | ip :: _ =>
         ptr <- or_empty (reversePtr env ip) ;;
         ret (0 <? length ptr)%nat
     end)
    (fun _ => ret false).

(** The loop of [checkMXIntegrity]. *)
Fixpoint mx_targets_resolvable (ok : bool) (mxHosts : list string) : M bool :=
  match mxHosts with
  | [] => ret ok
  | h :: rest =>
      a <- or_empty (resolve4 env h) ;;
      aaaa <- or_empty (resolve6 env h) ;;
      mx_targets_resolvable
        (if (length a =? 0)%nat && (length aaaa =? 0)%nat then false else ok) rest
  end.

Definition checkMXIntegrity (domain : string) (mxHosts : list string) : M bool :=
  let countOk := (1 <=? length mxHosts)%nat in
  targetsResolvable <- mx_targets_resolvable true mxHosts ;;
  ret (countOk && targetsResolvable).

End HealthChecks.

(* ===================================================================== *)
(** ** lib/domain-processor.js *)
(* ===================================================================== *)

(** [colors] of utils/helpers.js, and the two marks of the console
    columns (given by their UTF-8 bytes). *)
Definition esc : string := String (ascii_of_nat 27) EmptyString.
Definition green : string := esc +:+ "[32m".
Definition red : string := esc +:+ "[31m".
Definition reset : string := esc +:+ "[0m".
Definition gray : string := esc +:+ "[90m".
Definition check_mark : string :=
  String (ascii_of_nat 226) (String (ascii_of_nat 156)
    (String (ascii_of_nat 147) EmptyString)).
Definition cross_mark : string :=
  String (ascii_of_nat 226) (String (ascii_of_nat 156)
    (String (ascii_of_nat 151) EmptyString)).
Definition mark_ok : string := green +:+ check_mark +:+ reset.
Definition mark_bad : string := red +:+ cross_mark +:+ reset.

Definition quoted (s : string) : string := Js.dquote +:+ s +:+ Js.dquote.

Definition not_autodns : string := "skipped - not using AutoDNS nameservers".

Definition health_all_fail : string :=
  "NS:fail; SOA:fail; CAA:fail; MTA:fail; TLS:fail; PTR:fail".

(** The object literal that [checkDomain] starts from. *)
Definition initial_result : Obj :=
  list_to_map
    [("spfCheckConsole", FStr ""); ("spfRecord", FStr ""); ("spfStatus", FStr "");
     ("dmarcCheckConsole", FStr ""); ("dmarcRecord", FStr "");
     ("dmarcStatus", FStr ""); ("dkimCheckConsole", FStr "");
     ("dkimInfo", FStr ""); ("dkimStatus", FStr ""); ("aDisplay", FStr "-");
     ("aaaaDisplay", FStr "-"); ("mxDisplay", FStr "-");
     ("healthSummary", FStr "")].

(** [result.field = v] *)
Definition set_field (result : loc) (field v : string) : M unit :=
  modify result (<[field := FStr v]>).

Definition str_of (v : option FieldVal) : string :=
  match v with Some (FStr s) => s | _ => "" end.

(** [result.field] *)
Definition get_field (result : loc) (field : string) : M string :=
  o <- deref result ;; ret (str_of (o !! field)).

(** [a === b] on two values that are [null] or a string. *)
Definition same_opt (a b : option string) : bool :=
  match a, b with
  | Some x, Some y => String.eqb x y
  | None, None => true
  | _, _ => false
  end.

(** [xs.length ? xs.join(',') : '-'] *)
Definition display (xs : list string) : string :=
  match xs with [] => "-" | _ => Js.join "," xs end.

(** [(s || '').replace(/\s+/g, ' ').trim()] of the DKIM comparison. *)
Definition normalize_dkim (s : option string) : string :=
  Js.trim (Js.collapse_ws (default "" s)).

(** The desired DKIM values: for a domain, its selectors in the order of
    the properties of its entry. *)
Abbreviation DkimConfig := (gmap string (list (string * string))).

Definition nonempty_value (v : string) : bool :=
  Js.truthy v && negb (String.eqb (Js.trim v) "").

Section Processor.
Context (env : Env) (config : Config).

(** [Promise.race([m, timeout])]: the call of [m] is the first element of
    the array, so its request is made before the timer is set; the world
    decides whether the timer rejects first. *)
Definition race_timeout {A} (ms : Z) (msg : string) (m : M A) : M A :=
  fun s =>
    let '(o, s1) := m s in
    let s2 := {| trace := trace s1 ++ [EvTimer ms]; heap := heap s1 |} in
    if timer_wins env (trace s2) then (Exc (Plain (js_Error msg)), s2)
    else (o, s2).

(** The loop of [checkDKIMForDomain] over the desired selectors. *)
Fixpoint reconcile_selectors (domainName : string) (dkimResults : list DkimResult)
    (entries : list (string * string)) (result : loc) : M unit :=
  match entries with
  | [] => ret tt
  | (selector, desiredValue) :: rest =>
      (if negb (nonempty_value desiredValue) then ret tt
       else
         match Js.find (fun r => String.eqb (dk_selector r) selector) dkimResults with
         | None =>
             ok <- updateDomainDKIMRecord env config domainName selector desiredValue ;;
             if ok : bool
             then set_field result "dkimStatus" ("ok - created selector " +:+ selector)
             else set_field result "dkimStatus"
                    ("error " +:+ quoted ("Failed to create selector " +:+ selector))
         | Some found =>
             if negb (String.eqb (normalize_dkim (dk_fullValue found))
                                 (normalize_dkim (Some desiredValue)))
             then
               ok <- updateDomainDKIMRecord env config domainName selector desiredValue ;;
               if ok : bool
               then set_field result "dkimStatus" ("ok - updated selector " +:+ selector)
               else set_field result "dkimStatus"
                      ("error " +:+ quoted ("Failed to update selector " +:+ selector))
             else ret tt
         end) ;;;
      reconcile_selectors domainName dkimResults rest result
  end.

Definition checkDKIMForDomain (domainName : string) (dkimConfig : DkimConfig)
    (result : loc) : M unit :=
  let desiredFromConfig := default [] (dkimConfig !! domainName) in
  let hasNonEmptyValues := existsb (fun kv => nonempty_value (snd kv)) desiredFromConfig in
  if (length desiredFromConfig =? 0)%nat || negb hasNonEmptyValues then
    set_field result "dkimCheckConsole" (gray +:+ "-" +:+ reset) ;;;
    set_field result "dkimInfo" "DKIM: Skipped" ;;;
    set_field result "dkimStatus" "skipped"
  else
    found <- checkDKIMRecords env config domainName ;;
    dkimResults <-
      (match found with
       | [] =>
           zoneDkim <- listZoneDKIMRecords env domainName ;;
           ret (match zoneDkim with [] => found | _ => zoneDkim end)
       | _ => ret found
       end) ;;
    (match dkimResults with
     | [] =>
         set_field result "dkimCheckConsole" mark_bad ;;;
         set_field result "dkimInfo" "DKIM: No records found" ;;;
         set_field result "dkimStatus" ("fail " +:+ quoted "No DKIM records found")
     | _ =>
         let selectors := Js.join ", " (map dk_selector dkimResults) in
         set_field result "dkimCheckConsole" mark_ok ;;;
         set_field result "dkimInfo" ("DKIM: Found (" +:+ selectors +:+ ")") ;;;
         set_field result "dkimStatus" ("ok - selectors: " +:+ selectors)
     end) ;;;
    reconcile_selectors domainName dkimResults desiredFromConfig result.

Definition getRecordsForDomain (domainName : string) (result : loc) : M unit :=
  try_catch
    (zoneInfo <- getZone env domainName ;;
     match zi_data zoneInfo with
     | Some (zone :: _) =>
         z <- deref zone ;;
         aRecords <- getARecords env z domainName ;;
         aaaaRecords <- getAAAARecords env z domainName ;;
         mxRecords <- getMXRecords env z domainName ;;
         set_field result "aDisplay" (display aRecords) ;;;
         set_field result "aaaaDisplay" (display aaaaRecords) ;;;
         set_field result "mxDisplay" (display mxRecords)
     | _ => ret tt
     end)
    (fun _ => ret tt).

Definition addHealthChecks (domainName : string) (result : loc) : M unit :=
  try_catch
    (ns <- checkNS env domainName ;;
     soa <- checkSOA env domainName ;;
     caa <- checkCAA env domainName ;;
     mta <- checkMtaSts env domainName ;;
     tls <- checkTlsRpt env domainName ;;
     mxDisplay <- get_field result "mxDisplay" ;;
     let mxHosts := if String.eqb mxDisplay "-" then []
                    else Js.split_on ","%char mxDisplay in
     mxInt <- checkMXIntegrity env domainName mxHosts ;;
     ptr <- (match mxHosts with
             | [] => ret false
             | h :: _ => checkPTRForOutbound env h
             end) ;;
     set_field result "healthSummary"
       (buildHealthSummary {| h_ns := ns; h_soa := soa; h_caa := caa;
                              h_mta := mta; h_tls := tls; h_mx := mxInt;
                              h_ptr := ptr |}))
    (fun _ => set_field result "healthSummary" health_all_fail).

(** What the SPF and DMARC queries leave for the update step: whether an
    update is needed, and the value the report will quote. *)
Definition spf_query (domainName : string) (result : loc) : M (bool * string) :=
  try_catch
    (currentSpf <- race_timeout 5000 "SPF query timeout" (getSPFRecord env domainName) ;;
     if same_opt currentSpf (Some (expectedSpf config)) then
       set_field result "spfCheckConsole" mark_ok ;;;
       set_field result "spfRecord" "SPF: Correct" ;;;
       set_field result "spfStatus" "ok" ;;;
       ret (false, "")
     else if Js.truthy_opt currentSpf then
       set_field result "spfCheckConsole" mark_bad ;;;
       set_field result "spfRecord" ("SPF: " +:+ default "" currentSpf) ;;;
       set_field result "spfStatus" "needs-update" ;;;
       ret (true, default "" currentSpf)
     else
       set_field result "spfCheckConsole" mark_bad ;;;
       set_field result "spfRecord" "SPF: No record" ;;;
       set_field result "spfStatus" "needs-update" ;;;
       ret (true, "No SPF record"))
    (fun error =>
       set_field result "spfCheckConsole" mark_bad ;;;
       set_field result "spfRecord" ("SPF Error: " +:+ e_message (original error)) ;;;
       set_field result "spfStatus" "error" ;;;
       ret (false, e_message (original error))).

Definition dmarc_query (domainName : string) (result : loc) : M (bool * string) :=
  try_catch
    (currentDmarc <- getDMARCRecord env domainName ;;
     let normalizedCurrent := normalizeDMARC currentDmarc in
     let normalizedExpected := normalizeDMARC (Some (expectedDmarc config)) in
     if same_opt normalizedCurrent normalizedExpected then
       set_field result "dmarcCheckConsole" mark_ok ;;;
       set_field result "dmarcRecord" "DMARC: Correct" ;;;
       set_field result "dmarcStatus" "ok" ;;;
       ret (false, "")
     else if Js.truthy_opt currentDmarc then
       set_field result "dmarcCheckConsole" mark_bad ;;;
       set_field result "dmarcRecord" ("DMARC: " +:+ default "" currentDmarc) ;;;
       set_field result "dmarcStatus" "needs-update" ;;;
       ret (true, default "" currentDmarc)
     else
       set_field result "dmarcCheckConsole" mark_bad ;;;
       set_field result "dmarcRecord" "DMARC: No record" ;;;
       set_field result "dmarcStatus" "needs-update" ;;;
       ret (true, "No DMARC record"))
    (fun error =>
       set_field result "dmarcCheckConsole" mark_bad ;;;
       set_field result "dmarcRecord" ("DMARC Error: " +:+ e_message (original error)) ;;;
       set_field result "dmarcStatus" "error" ;;;
       ret (false, e_message (original error))).

(** [if (spfNeedsUpdate) { ... } else if (result.spfStatus === 'error') ...] *)
Definition spf_update (domainName : string) (result : loc)
    (spfNeedsUpdate : bool) (spfCurrentValue : string) : M unit :=
  if spfNeedsUpdate then
    try_catch
      (updateDomainSPFRecord env config domainName (expectedSpf config) ;;;
       set_field result "spfCheckConsole" (mark_ok +:+ "(updated)") ;;;
       set_field result "spfRecord" "SPF: Correct (updated)" ;;;
       set_field result "spfStatus" ("ok - updated from " +:+ quoted spfCurrentValue))
      (fun error =>
         set_field result "spfCheckConsole" (mark_bad +:+ "(failed)") ;;;
         set_field result "spfStatus"
           ("error " +:+ quoted ("Update failed: " +:+ e_message (original error))))
  else
    status <- get_field result "spfStatus" ;;
    if String.eqb status "error"
    then set_field result "spfStatus" ("error " +:+ quoted spfCurrentValue)
    else ret tt.

(** [if (dmarcNeedsUpdate) { ... } else if (result.dmarcStatus === 'error') ...] *)
Definition dmarc_update (domainName : string) (result : loc)
    (dmarcNeedsUpdate : bool) (dmarcCurrentValue : string) : M unit :=
  if dmarcNeedsUpdate then
    try_catch
      (addDMARCReportAuthRecord env config domainName ;;;
       updateDomainDMARCRecord env config domainName (expectedDmarc config) ;;;
       set_field result "dmarcCheckConsole" (mark_ok +:+ "(updated)") ;;;
       set_field result "dmarcRecord" "DMARC: Correct (updated)" ;;;
       set_field result "dmarcStatus" ("ok - updated from " +:+ quoted dmarcCurrentValue))
      (fun error =>
         set_field result "dmarcCheckConsole" (mark_bad +:+ "(failed)") ;;;
         set_field result "dmarcStatus"
           ("error " +:+ quoted ("Update failed: " +:+ e_message (original error))))
  else
    status <- get_field result "dmarcStatus" ;;
    if String.eqb status "error"
    then set_field result "dmarcStatus" ("error " +:+ quoted dmarcCurrentValue)
    else ret tt.

(** The top-level [catch] of [checkDomain]. *)
Definition fatal (result : loc) (error : Exn) : M unit :=
  let msg := "error " +:+ quoted (e_message (original error)) in
  set_field result "spfCheckConsole" mark_bad ;;;
  set_field result "spfRecord" "Error" ;;;
  set_field result "spfStatus" msg ;;;
  set_field result "dmarcCheckConsole" mark_bad ;;;
  set_field result "dmarcRecord" "Error" ;;;
  set_field result "dmarcStatus" msg ;;;
  set_field result "dkimCheckConsole" mark_bad ;;;
  set_field result "dkimInfo" "Error" ;;;
  set_field result "dkimStatus" msg ;;;
  set_field result "healthSummary" "Error".

(** [checkDomain(domainName, dkimConfig)]: the reference of the result. *)
Definition checkDomain (domainName : string) (dkimConfig : DkimConfig) : M loc :=
  result <- alloc initial_result ;;
  try_catch
    (usesAutoDNS <- usesAutoDNSNameservers env domainName ;;
     if negb usesAutoDNS then
       set_field result "spfStatus" not_autodns ;;;
       set_field result "dmarcStatus" not_autodns ;;;
       set_field result "dkimStatus" not_autodns ;;;
       getRecordsForDomain domainName result ;;;
       addHealthChecks domainName result ;;;
       ret result
     else
       spf <- spf_query domainName result ;;
       dmarc <- dmarc_query domainName result ;;
       checkDKIMForDomain domainName dkimConfig result ;;;
       spf_update domainName result (fst spf) (snd spf) ;;;
       dmarc_update domainName result (fst dmarc) (snd dmarc) ;;;
       getRecordsForDomain domainName result ;;;
       addHealthChecks domainName result ;;;
       ret result)
    (fun error => fatal result error ;;; ret result).

End Processor.

(* ===================================================================== *)
(** ** lib/spf.js: the record of the main SPF name *)
(* ===================================================================== *)

(** [parts.slice(-2)] and [parts.slice(0, -2)] *)
Definition last_two {A} (parts : list A) : list A :=
  skipn (length parts - 2) parts.

Definition but_last_two {A} (parts : list A) : list A :=
  firstn (length parts - 2) parts.

(** The zone and the name in the zone of a full record name. *)
Definition zone_of_record (recordName : string) : string :=
  Js.join "." (last_two (Js.split_on "."%char recordName)).

Definition prefix_of_record (recordName : string) : string :=
  Js.join "." (but_last_two (Js.split_on "."%char recordName)).

Section MainSpfRecord.
Context (env : Env) (config : Config).

Definition updateDiebasisSPFRecord (recordName spfValue : string) : M ApiResponse :=
  let zoneName := zone_of_record recordName in
  let recordPrefix := prefix_of_record recordName in
  try_catch
    (zoneInfo <- getZone env zoneName ;;
     zone <- first_zone zoneInfo ;;
     rrs <- ensure_records UseForOf zone ;;
     modify zone (<["resourceRecords" :=
                     FRecords (upsert (fun record =>
                                         String.eqb (rr_type record) "TXT" &&
                                         String.eqb (rr_name record) recordPrefix)
                                      recordPrefix spfValue rrs)]>) ;;;
     updateZone env config zoneName zone)
    (fun error => throw error).

End MainSpfRecord.

(* ===================================================================== *)
(** ** lib/domain-processor.js: the blocks of [processDomains] *)
(* ===================================================================== *)

(** [s.split(sep)] for a separator of several code units; [skip] counts
    the code units of a separator that was found and is being passed,
    [cur] is the piece being read, reversed. *)
Fixpoint split_sep_go (sep : string) (skip : nat) (cur : string) (s : string)
  : list string :=
  match s with
  | EmptyString => [String.rev cur]
  | String c t =>
      match skip with
      | S k => split_sep_go sep k cur t
      | O =>
          if String.prefix sep s
          then String.rev cur :: split_sep_go sep (String.length sep - 1) EmptyString t
          else split_sep_go sep 0 (String c cur) t
      end
  end.

Definition split_sep (sep s : string) : list string :=
  split_sep_go sep 0 EmptyString s.

(** [domain.name || domain.origin]; a domain that has neither is filed
    under the property key of [undefined]. *)
Definition domain_key (domain : DomainEntry) : string :=
  if Js.truthy_opt (d_name domain) then default "" (d_name domain)
  else default "undefined" (d_origin domain).

(** A value of the object that [loadDkimConfig] parsed from the
    configuration file: [null], a boolean, a number (by its integer value;
    a fraction behaves as any number but zero), a string, an object of
    selectors with their values, or any other array or object, kept by its
    serialisation. *)
Inductive ConfigValue :=
| CvNull
| CvBool (b : bool)
| CvNum (z : Z)
| CvStr (s : string)
| CvSelectors (entries : list (string * string))
| CvOther (json : string).

(** Truthiness of such a value: objects and arrays are truthy. *)
Definition cv_truthy (v : ConfigValue) : bool :=
  match v with
  | CvNull => false
  | CvBool b => b
  | CvNum z => negb (z =? 0)
  | CvStr s => Js.truthy s
  | CvSelectors _ | CvOther _ => true
  end.

(** The configuration as the loop sees it: the own properties of a plain
    object, the case of a file that holds a JSON object. *)
Abbreviation DkimFile := (gmap string ConfigValue).

(** The properties that a plain object inherits from [Object.prototype];
    each is a function or, for [__proto__], the prototype itself, and so
    truthy. *)
Definition object_prototype_keys : list string :=
  ["constructor"; "__defineGetter__"; "__defineSetter__"; "hasOwnProperty";
   "__lookupGetter__"; "__lookupSetter__"; "isPrototypeOf";
   "propertyIsEnumerable"; "toString"; "valueOf"; "__proto__";
   "toLocaleString"].

(** [dkimConfig[domainName]] as a condition: an own property by its
    value, otherwise what the prototype has under that name. *)
Definition has_truthy (dkimConfig : DkimFile) (domainName : string) : bool :=
  match dkimConfig !! domainName with
  | Some v => cv_truthy v
  | None => bool_decide (domainName ∈ object_prototype_keys)
  end.

(** [{ default: '' }] *)
Definition default_entry : ConfigValue := CvSelectors [("default", "")].

(** The loop that gives every domain an entry of the DKIM configuration:
    the configuration and [configUpdated].  The assignment is reached only
    where the read was falsy, that is, on a name that is no own property
    and not inherited, or on an own property, which it overwrites. *)
Fixpoint ensure_dkim_entries (domains : list DomainEntry) (dkimConfig : DkimFile)
    (configUpdated : bool) : DkimFile * bool :=
  match domains with
  | [] => (dkimConfig, configUpdated)
  | domain :: rest =>
      let domainName := domain_key domain in
      if negb (has_truthy dkimConfig domainName) then
        ensure_dkim_entries rest (<[domainName := default_entry]> dkimConfig) true
      else ensure_dkim_entries rest dkimConfig configUpdated
  end.

(** [healthParts]: every part of the summary, cut at its colons, files its
    second piece under its first. *)
Definition health_parts (healthSummary : string) : gmap string (option string) :=
  foldl (fun healthParts part =>
           let pieces := Js.split_on ":"%char part in
           <[default "undefined" (pieces !! 0%nat) := pieces !! 1%nat]> healthParts)
        ∅ (split_sep "; " healthSummary).

(** [healthParts.key || 'unknown'] *)
Definition health_part (healthParts : gmap string (option string)) (key : string)
  : string :=
  match healthParts !! key with
  | Some (Some value) => if Js.truthy value then value else "unknown"
  | _ => "unknown"
  end.

(** The six health lines of the report of one domain. *)
Definition health_lines (healthSummary : string) : list string :=
  let healthParts := health_parts healthSummary in
  ["    Nameserver: " +:+ health_part healthParts "NS";
   "    SOA:        " +:+ health_part healthParts "SOA";
   "    CAA:        " +:+ health_part healthParts "CAA";
   "    MTA:        " +:+ health_part healthParts "MTA";
   "    TLS:        " +:+ health_part healthParts "TLS";
   "    PTR:        " +:+ health_part healthParts "PTR"].

(* ===================================================================== *)
(** * The vocabulary of the properties *)
(* ===================================================================== *)

(** ** Traces *)

(** The state after some more requests. *)
Definition extend (s : St) (evs : Trace) : St :=
  {| trace := trace s ++ evs; heap := heap s |}.

(** The names of the TXT lookups of a trace, in order. *)
Definition txt_queries (evs : Trace) : list string :=
  omap (fun ev => match ev with EvTxt name => Some name | _ => None end) evs.

(** The zone writes of a trace, in order. *)
Definition zone_writes (evs : Trace) : list (string * Obj) :=
  omap (fun ev => match ev with
                  | EvApiPut zone payload => Some (zone, payload)
                  | _ => None
                  end) evs.

(** The DNS lookups and HTTPS fetches of a trace. *)
Definition is_lookup (ev : Event) : bool :=
  match ev with
  | EvTxt _ | EvA _ | EvAAAA _ | EvMx _ | EvNs _ | EvSoa _ | EvCaa _
  | EvPtr _ | EvHttpsGet _ => true
  | _ => false
  end.

(** What a call of the resolver does, started with [visited] in [s]: it
    returns; it only adds requests; it looks up no domain of [visited] and
    no domain twice; it leaves in the set what it looked up. *)
Definition resolves_from (visited : gset string) (s : St)
    (res : option (SpfResult * gset string * St)) : Prop :=
  ∃ r visited' evs,
    res = Some (r, visited', extend s evs)
    ∧ NoDup (txt_queries evs)
    ∧ (∀ d, d ∈ txt_queries evs → d ∉ visited)
    ∧ visited' = visited ∪ list_to_set (txt_queries evs).

(** ** The retry policy, in the words of its description *)

(** A network-transport failure: connection reset, timeout, failed name
    resolution. *)
Definition is_transport_failure (e : JsError) : bool :=
  code_is e "ECONNRESET" || code_is e "ETIMEDOUT" || code_is e "ENOTFOUND".

Definition is_http_5xx (e : JsError) : bool :=
  match e_status e with
  | Some st => (500 <=? st) && (st <=? 599)
  | None => false
  end.

Definition is_http_429 (e : JsError) : bool :=
  match e_status e with Some st => st =? 429 | None => false end.

Definition retryable_by_policy (e : JsError) : bool :=
  is_transport_failure e || is_http_5xx e || is_http_429 e.

(** The status of an HTTP reply is a status code of HTTP. *)
Definition http_status_valid (e : JsError) : Prop :=
  match e_status e with Some st => 100 <= st <= 599 | None => True end.

(** The policy: take a token and run the request; a success is returned;
    a failure is retried after the pause [backoff] when it is retryable and
    a retry is left, and is the outcome of the call otherwise. *)
Fixpoint retry_by_policy {A} (body : M A) (attemptNumber retriesLeft : nat)
  : M A :=
  fun s =>
    match (emit EvAcquire ;;; body) s with
    | (Val a, s1) => (Val a, s1)
    | (Exc x, s1) =>
        if retryable_by_policy (original x) then
          match retriesLeft with
          | S r =>
              retry_by_policy body (S attemptNumber) r
                (extend s1 [EvSleep (backoff (attemptNumber - 1))])
          | O => (Exc (Plain (original x)), s1)
          end
        else (Exc (Plain (original x)), s1)
    end.

(** The API of the world fails with HTTP status codes only. *)
Definition api_statuses_valid (env : Env) : Prop :=
  (∀ t e, api_search env t = Fail e → http_status_valid e)
  ∧ (∀ t z e, api_get_zone env t z = Fail e → http_status_valid e)
  ∧ (∀ t z o e, api_put_zone env t z o = Fail e → http_status_valid e).

(** ** Scenarios *)

Definition enotfound : JsError :=
  {| e_message := "queryTxt ENOTFOUND"; e_code := Some "ENOTFOUND"; e_status := None |}.

Definition http_error (st : Z) : JsError :=
  {| e_message := "Request failed with status code"; e_code := None;
     e_status := Some st |}.

(** A world in which nothing exists: every lookup fails with [ENOTFOUND]
    and the API answers 404. *)
Definition nowhere : Env :=
  {| dns_txt := fun _ _ => Fail enotfound;
     dns_a := fun _ _ => Fail enotfound;
     dns_aaaa := fun _ _ => Fail enotfound;
     dns_mx := fun _ _ => Fail enotfound;
     dns_ns := fun _ _ => Fail enotfound;
     dns_soa := fun _ _ => Fail enotfound;
     dns_caa := fun _ _ => Fail enotfound;
     dns_ptr := fun _ _ => Fail enotfound;
     https_get := fun _ _ => Fail enotfound;
     api_search := fun _ => Fail (http_error 404);
     api_get_zone := fun _ _ => Fail (http_error 404);
     api_put_zone := fun _ _ _ => Fail (http_error 404);
     timer_wins := fun _ => false |}.

(** The same world with other TXT records. *)
Definition with_txt (txt : string -> Reply (list (list string))) (env : Env) : Env :=
  {| dns_txt := fun _ name => txt name;
     dns_a := dns_a env; dns_aaaa := dns_aaaa env; dns_mx := dns_mx env;
     dns_ns := dns_ns env; dns_soa := dns_soa env; dns_caa := dns_caa env;
     dns_ptr := dns_ptr env; https_get := https_get env;
     api_search := api_search env; api_get_zone := api_get_zone env;
     api_put_zone := api_put_zone env; timer_wins := timer_wins env |}.

(** The same world with another zone API. *)
Definition with_api (get : string -> Reply ZoneBody)
    (put : string -> Obj -> Reply ApiResponse) (env : Env) : Env :=
  {| dns_txt := dns_txt env;
     dns_a := dns_a env; dns_aaaa := dns_aaaa env; dns_mx := dns_mx env;
     dns_ns := dns_ns env; dns_soa := dns_soa env; dns_caa := dns_caa env;
     dns_ptr := dns_ptr env; https_get := https_get env;
     api_search := api_search env;
     api_get_zone := fun _ zone => get zone;
     api_put_zone := fun _ zone payload => put zone payload;
     timer_wins := timer_wins env |}.

(** The same world with other name servers. *)
Definition with_ns (ns : string -> Reply (list string)) (env : Env) : Env :=
  {| dns_txt := dns_txt env;
     dns_a := dns_a env; dns_aaaa := dns_aaaa env; dns_mx := dns_mx env;
     dns_ns := fun _ name => ns name;
     dns_soa := dns_soa env; dns_caa := dns_caa env;
     dns_ptr := dns_ptr env; https_get := https_get env;
     api_search := api_search env; api_get_zone := api_get_zone env;
     api_put_zone := api_put_zone env; timer_wins := timer_wins env |}.

(** A world like [nowhere] whose domain search answers [status] forever. *)
Definition search_answers (status : Z) : Env :=
  {| dns_txt := dns_txt nowhere;
     dns_a := dns_a nowhere; dns_aaaa := dns_aaaa nowhere; dns_mx := dns_mx nowhere;
     dns_ns := dns_ns nowhere; dns_soa := dns_soa nowhere; dns_caa := dns_caa nowhere;
     dns_ptr := dns_ptr nowhere; https_get := https_get nowhere;
     api_search := fun _ => Fail (http_error status);
     api_get_zone := api_get_zone nowhere;
     api_put_zone := api_put_zone nowhere; timer_wins := timer_wins nowhere |}.

Definition start : St := {| trace := []; heap := [] |}.

Definition production : Config :=
  {| expectedSpf := "v=spf1 a mx include:_spf.diebasis.de -all";
     expectedDmarc := "v=DMARC1;p=reject;sp=reject;adkim=s;aspf=s;" +:+
                      "rua=mailto:dmarc-reports@diebasis.de;" +:+
                      "ruf=mailto:dmarc-failures@diebasis.de;fo=d:s";
     dmarcReportAuthDomain := "diebasis.de";
     dkimSelectors := ["s1"; "s2"];
     dryRun := false |}.

(** ** The payload of a zone write *)

(** A copy of the fields of [o] without the read-only ones. *)
Definition strip_read_only (o : Obj) : Obj :=
  foldl (fun acc field => delete field acc) o readOnlyFields.

(** The state after one attempt of a zone write: the request and the new
    object that carried its payload. *)
Definition after_put (sz : string) (payload : Obj) (s : St) : St :=
  {| trace := trace s ++ [EvApiPut sz payload]; heap := heap s ++ [payload] |}.

(** ** The flattened record, in the words of its description *)

(** [v=spf1], the mechanisms without repetition in the order of their
    first occurrence, the modifiers that are no [all] term likewise, and
    the [all] term last when there is one. *)
Definition assemble_by_description (resolved : SpfResult) : string :=
  let mechs := Js.uniq (mechanisms resolved) in
  let mods := Js.uniq (modifiers resolved) in
  Js.join " "
    ("v=spf1" :: mechs ++ filter (fun m => is_all_term m = false) mods
              ++ option_list (Js.find is_all_term mods)).

(** Two includes with the same record. *)
Definition twin_includes : Env :=
  with_txt (fun name =>
              if String.eqb name "x.com" || String.eqb name "y.com"
              then Ok [["v=spf1 ip4:1.1.1.1 -all"]]
              else Fail enotfound) nowhere.

(** Two domains that include each other. *)
Definition cyclic_includes : Env :=
  with_txt (fun name =>
              if String.eqb name "a.com" then Ok [["v=spf1 include:b.com ip4:192.0.2.1 -all"]]
              else if String.eqb name "b.com" then Ok [["v=spf1 include:a.com ip4:192.0.2.2 -all"]]
              else Fail enotfound) nowhere.

(** An include whose record ends in a redirect to a host with [all] in
    its name. *)
Definition redirecting_include : Env :=
  with_txt (fun name =>
              if String.eqb name "mail.example"
              then Ok [["v=spf1 ip4:192.0.2.1 redirect=_spf.smallhost.example"]]
              else Fail enotfound) nowhere.

(** A world like [nowhere] in which one host has addresses. *)
Definition with_addresses (host : string) (v4 v6 : list string) : Env :=
  {| dns_txt := dns_txt nowhere;
     dns_a := fun _ h => if String.eqb h host then Ok v4 else Fail enotfound;
     dns_aaaa := fun _ h => if String.eqb h host then Ok v6 else Fail enotfound;
     dns_mx := dns_mx nowhere;
     dns_ns := dns_ns nowhere; dns_soa := dns_soa nowhere; dns_caa := dns_caa nowhere;
     dns_ptr := dns_ptr nowhere; https_get := https_get nowhere;
     api_search := api_search nowhere; api_get_zone := api_get_zone nowhere;
     api_put_zone := api_put_zone nowhere; timer_wins := timer_wins nowhere |}.

(** ** Computations that write no zone *)

(** A computation is quiet for the fields [K] of the object [r] when, from
    any state, it only adds requests, none of them a zone write, keeps
    every object of the store in its place, and leaves the fields [K] of
    [r] as they are. *)
Definition quiet {A} (r : loc) (K : list string) (m : M A) : Prop :=
  ∀ s, ∃ o evs h',
    m s = (o, {| trace := trace s ++ evs; heap := h' |})
    ∧ zone_writes evs = []
    ∧ (length (heap s) ≤ length h')%nat
    ∧ ((r < length (heap s))%nat →
       ∀ k, k ∈ K → default ∅ (h' !! r) !! k = default ∅ (heap s !! r) !! k).



(** The fields that the DKIM check sets when it skips. *)
Definition dkim_skipped (o : Obj) : Obj :=
  <["dkimStatus" := FStr "skipped"]>
    (<["dkimInfo" := FStr "DKIM: Skipped"]>
       (<["dkimCheckConsole" := FStr (gray +:+ "-" +:+ reset)]> o)).

(** ** More scenarios *)

(** A zone whose apex is an alias. *)
Definition aliased_zone : Obj :=
  list_to_map
    [("origin", FStr "example.com"); ("created", FStr "2020-01-01T00:00:00Z");
     ("resourceRecords",
      FRecords [{| rr_name := ""; rr_type := "CNAME";
                   rr_value := Some "target.example.net"; rr_ttl := 3600 |}])].

(** A zone with one address record and the metadata of the server. *)
Definition plain_zone : Obj :=
  list_to_map
    [("origin", FStr "example.com"); ("created", FStr "2020-01-01T00:00:00Z");
     ("updated", FStr "2024-05-01T00:00:00Z"); ("owner", FOpaque "{}");
     ("updater", FOpaque "{}"); ("roid", FNum 4711); ("soa", FOpaque "{}");
     ("resourceRecords",
      FRecords [{| rr_name := "www"; rr_type := "A";
                   rr_value := Some "192.0.2.1"; rr_ttl := 3600 |}])].

Definition zone_reply (zone : Obj) : Reply ZoneBody :=
  Ok {| zb_status := Some {| st_type := "SUCCESS"; st_text := "" |};
        zb_data := Some [zone] |}.

Definition put_accepted : Reply ApiResponse :=
  Ok {| resp_status := Some {| st_type := "SUCCESS"; st_text := "" |} |}.

(** A provider that serves [aliased_zone] and accepts every write. *)
Definition aliased_world : Env :=
  with_api (fun _ => zone_reply aliased_zone) (fun _ _ => put_accepted) nowhere.

(** A provider that serves [plain_zone] and accepts every write. *)
Definition plain_world : Env :=
  with_api (fun _ => zone_reply plain_zone) (fun _ _ => put_accepted) nowhere.

(** The result object that the DKIM check leaves, started from the object
    literal of [checkDomain]. *)
Definition dkim_output (env : Env) (config : Config) (domainName : string)
    (dkimConfig : DkimConfig) : Obj :=
  let '(_, s) := (result <- alloc initial_result ;;
                  checkDKIMForDomain env config domainName dkimConfig result) start in
  default ∅ (heap s !! 0%nat).

(** Two outputs can be told apart when they differ. *)
Definition distinguishable (a b : Obj) : Prop := a ≠ b.

(** Name servers of another provider. *)
Definition elsewhere : Env :=
  with_ns (fun _ => Ok ["ns1.example.net"; "ns2.example.net"]) nowhere.

(** A domain on the provider's name servers whose SPF record is the
    expected one and that has no DMARC record; the provider serves
    [plain_zone] for every zone, accepts the write of the authority zone
    and answers 400 to the write of [example.com]. *)
Definition rejecting_world : Env :=
  {| dns_txt := fun _ name =>
       if String.eqb name "example.com"
       then Ok [[expectedSpf production]] else Fail enotfound;
     dns_a := dns_a nowhere; dns_aaaa := dns_aaaa nowhere; dns_mx := dns_mx nowhere;
     dns_ns := fun _ _ => Ok ["a.ns14.net"; "b.ns14.net"];
     dns_soa := dns_soa nowhere; dns_caa := dns_caa nowhere;
     dns_ptr := dns_ptr nowhere; https_get := https_get nowhere;
     api_search := api_search nowhere;
     api_get_zone := fun _ _ => zone_reply plain_zone;
     api_put_zone := fun _ zone _ =>
       if String.eqb zone "example.com" then Fail (http_error 400)
       else put_accepted;
     timer_wins := fun _ => false |}.

(** The fields that the DMARC update sets after its two calls. *)
Definition dmarc_marked_updated (dmarcCurrentValue : string) (o : Obj) : Obj :=
  <["dmarcStatus" := FStr ("ok - updated from " +:+ quoted dmarcCurrentValue)]>
    (<["dmarcRecord" := FStr "DMARC: Correct (updated)"]>
       (<["dmarcCheckConsole" := FStr (mark_ok +:+ "(updated)")]> o)).

(** A field of the result object, as a string. *)
Definition field_of (s : St) (result : loc) (field : string) : string :=
  str_of (default ∅ (heap s !! result) !! field).

(** ** Counting attempts *)

(** Every attempt of an API call starts by taking a token. *)
Definition is_acquire (ev : Event) : bool :=
  match ev with EvAcquire => true | _ => false end.

Definition attempts_in (evs : Trace) : nat :=
  length (filter (fun ev => is_acquire ev = true) evs).

(** A computation that makes at most [n] attempts, from any state. *)
Definition attempts_bounded {A} (n : nat) (m : M A) : Prop :=
  ∀ s, ∃ o evs h',
    m s = (o, {| trace := trace s ++ evs; heap := h' |})
    ∧ (attempts_in evs ≤ n)%nat.

(** ** More vocabulary *)

(** The callers of a schedule of the limiter, in the order of their calls. *)
Definition arrivals (ops : list Limiter.Op) : list nat :=
  omap (fun op => match op with
                  | Limiter.Acquire c => Some c
                  | Limiter.Tick => None
                  end) ops.

(** A computation all of whose requests satisfy [P], from any state. *)
Definition emits {A} (P : Event → Prop) (m : M A) : Prop :=
  ∀ s, ∃ o evs h',
    m s = (o, {| trace := trace s ++ evs; heap := h' |})
    ∧ Forall P evs.

(** A computation that never throws. *)
Definition returns {A} (m : M A) : Prop :=
  ∀ s, ∃ a s', m s = (Val a, s').

(** The requests of a zone read of [zoneName]: tokens, pauses, and the GET
    of the sanitized name. *)
Definition zone_read_event (zoneName : string) (ev : Event) : Prop :=
  match ev with
  | EvAcquire | EvSleep _ => True
  | EvApiGet z => Validators.sanitizeDomainName zoneName = Some z
  | _ => False
  end.

(** A DNS lookup or an HTTPS fetch. *)
Definition lookup_event (ev : Event) : Prop := is_lookup ev = true.

(** The HTTPS fetches of a trace. *)
Definition https_fetches (evs : Trace) : list string :=
  omap (fun ev => match ev with EvHttpsGet url => Some url | _ => None end) evs.

(** The reverse lookups of a trace. *)
Definition ptr_lookups (evs : Trace) : list string :=
  omap (fun ev => match ev with EvPtr ip => Some ip | _ => None end) evs.

(** The record set of a zone object, when it is an array. *)
Definition records_of (o : Obj) : option (list RR) :=
  match o !! "resourceRecords" with
  | Some (FRecords rrs) => Some rrs
  | _ => None
  end.

(** The test of the DMARC reconciler for the record it maintains, and the
    test of the reconciler of the report authorisation. *)
Definition is_report_auth (recordName : string) (record : RR) : bool :=
  String.eqb (rr_type record) "TXT" && String.eqb (rr_name record) recordName.

(** A string that does not start with white space. *)
Definition starts_clean (s : string) : Prop :=
  match s with
  | String c _ => Js.is_ws c = false
  | EmptyString => True
  end.

(** Any request but the PUT of a zone. *)
Definition no_write (ev : Event) : Prop :=
  match ev with
  | EvApiPut _ _ => False
  | _ => True
  end.

(** ** The terms of an SPF record *)

(** A term the resolver files as a modifier. *)
Definition is_modifier_term (part : string) : bool :=
  Js.startsWith "redirect=" part || is_all_term part.

(** A term the resolver has to look something up for. *)
Definition is_indirect_term (part : string) : bool :=
  Js.startsWith "include:" part || Js.startsWith "a:" part ||
  Js.startsWith "mx:" part.

(** A mechanism of a flattened record: no reference to another record, and
    not the version tag. *)
Definition flat_term (m : string) : Prop :=
  Js.startsWith "include:" m = false ∧ m ≠ "v=spf1".

Definition flat_result (resolved : SpfResult) : Prop :=
  Forall flat_term (mechanisms resolved)
  ∧ Forall (fun m => is_modifier_term m = true) (modifiers resolved).

(** ** The record that a reconciler writes *)

(** [record.value = v; record.ttl = 300] *)
Definition written (v : string) (record : RR) : RR :=
  {| rr_name := rr_name record; rr_type := rr_type record;
     rr_value := Some v; rr_ttl := 300 |}.

(** The tests of the DKIM reconciler and of [updateDiebasisSPFRecord]. *)
Definition is_txt_named (recordName : string) (record : RR) : bool :=
  String.eqb (rr_type record) "TXT" && String.eqb (rr_name record) recordName.

(** A computation that can only return [r]. *)
Definition yields {A} (r : A) (m : M A) : Prop :=
  ∀ s a s', m s = (Val a, s') → a = r.

(** ** More scenarios *)

(** The zone of the report address, holding the authorisation record of
    [example.org], and a provider that serves it. *)
Definition report_auth_record : RR :=
  {| rr_name := "example.org._report._dmarc"; rr_type := "TXT";
     rr_value := Some "v=DMARC1"; rr_ttl := 300 |}.

Definition authorising_zone : Obj :=
  list_to_map
    [("origin", FStr "diebasis.de"); ("resourceRecords", FRecords [report_auth_record])].

Definition authorising_world : Env :=
  with_api (fun _ => zone_reply authorising_zone) (fun _ _ => put_accepted) nowhere.

(** The production configuration in dry-run mode. *)
Definition rehearsal : Config :=
  {| expectedSpf := expectedSpf production;
     expectedDmarc := expectedDmarc production;
     dmarcReportAuthDomain := dmarcReportAuthDomain production;
     dkimSelectors := dkimSelectors production;
     dryRun := true |}.

(** ** Characters of a sanitized name *)

(** A digit, a lower-case letter, a hyphen or a dot. *)
Definition is_name_char (c : ascii) : bool :=
  let n := nat_of_ascii c in
  ((48 <=? n)%nat && (n <=? 57)%nat) || ((97 <=? n)%nat && (n <=? 122)%nat) ||
  Ascii.eqb c "-"%char || Ascii.eqb c "."%char.

(** The record that [updateDomainDKIMRecord] creates for a selector. *)
Definition dkim_record (selector dkimValue : string) : RR :=
  {| rr_name := selector +:+ "._domainkey"; rr_type := "TXT";
     rr_value := Some dkimValue; rr_ttl := 300 |}.

(** ** The records and the health summary of a result *)









(* ===================================================================== *)
(** * Properties *)
(* ===================================================================== *)

(** ** The string functions on the inputs of the test suite *)

Example split_ws_terms :
  Js.split_ws "v=spf1  a mx   -all" = ["v=spf1"; "a"; "mx"; "-all"].
Proof. vm_compute. reflexivity. Qed.

Example split_ws_margins : Js.split_ws " a " = [""; "a"; ""].
Proof. vm_compute. reflexivity. Qed.

Example split_ws_empty : Js.split_ws "" = [""].
Proof. vm_compute. reflexivity. Qed.

Example uniq_first_seen : Js.uniq ["b"; "a"; "b"; "c"; "a"] = ["b"; "a"; "c"].
Proof. vm_compute. reflexivity. Qed.

Example includes_all_in_host :
  Js.includes "all" "redirect=_spf.smallhost.example" = true.
Proof. vm_compute. reflexivity. Qed.

Example trim_both_ends : Js.trim "  a b  " = "a b".
Proof. vm_compute. reflexivity. Qed.

Example normalizeDMARC_spacing :
  normalizeDMARC (Some "v=DMARC1; p=reject;  sp=reject ")
  = normalizeDMARC (Some "v=DMARC1;p=reject;sp=reject").
Proof. vm_compute. reflexivity. Qed.

Example sanitize_upper_case :
  Validators.sanitizeDomainName " EXAMPLE.COM " = Some "example.com".
Proof. vm_compute. reflexivity. Qed.

Example sanitize_rejects :
  map Validators.sanitizeDomainName ["invalid..com"; ""; "-invalid.com"]
  = [None; None; None].
Proof. vm_compute. reflexivity. Qed.

Example provider_name_server :
  map matches_autodns ["A.NS14.NET."; "ns1.b.ns14.net"; "ns14.net"; "xa.ns14.net"]
  = [true; true; false; false].
Proof. vm_compute. reflexivity. Qed.

(** ** Traces *)

Lemma extend_nil s : extend s [] = s.
Proof. destruct s; unfold extend; simpl. by rewrite app_nil_r. Qed.

Lemma extend_extend s a b : extend (extend s a) b = extend s (a ++ b).
Proof. unfold extend; simpl. by rewrite app_assoc. Qed.

Lemma txt_queries_app a b : txt_queries (a ++ b) = txt_queries a ++ txt_queries b.
Proof. unfold txt_queries. by rewrite omap_app. Qed.

Lemma request_extend {A} ev (answer : Trace -> Reply A) s :
  ∃ o, request ev answer s = (o, extend s [ev]).
Proof. unfold request, extend. destruct (answer (trace s)); eauto. Qed.

(** ** The SPF resolver *)

Section ResolverProofs.
Context (env : Env).

Lemma getSPFRecord_extend domain s :
  ∃ o, getSPFRecord env domain s = (o, extend s [EvTxt domain]).
Proof.
  unfold getSPFRecord, try_catch, bind, resolveTxt.
  destruct (request_extend (EvTxt domain) (fun t => dns_txt env t domain) s) as [o ->].
  destruct o as [records|x]; simpl; [eauto|].
  destruct (absent_code (original x)); simpl; eauto.
Qed.

Lemma resolveHostToIPs_run hostname s :
  ∃ ips, resolveHostToIPs env hostname s
         = (Val ips, extend s [EvA hostname; EvAAAA hostname]).
Proof.
  unfold resolveHostToIPs, try_catch, bind, resolve4, resolve6, request, ret, extend.
  simpl.
  destruct (dns_a env (trace s) hostname); simpl;
    destruct (dns_aaaa env _ hostname); simpl;
    rewrite <- app_assoc; simpl; eauto.
Qed.

Lemma mx_hosts_to_ips_run mxRecords : ∀ ips s,
  ∃ ips' evs, mx_hosts_to_ips env mxRecords ips s = (Val ips', extend s evs)
              ∧ txt_queries evs = [].
Proof.
  induction mxRecords as [|mx rest IH]; intros ips s; simpl.
  - exists ips, []. by rewrite extend_nil.
  - destruct (resolveHostToIPs_run (mx_exchange mx) s) as [mxIps ->].
    destruct (IH (ips ++ mxIps) (extend s [EvA (mx_exchange mx); EvAAAA (mx_exchange mx)]))
      as (ips' & evs & -> & Hq).
    eexists _, _. rewrite extend_extend. split; [reflexivity|].
    rewrite txt_queries_app, Hq. reflexivity.
Qed.

Lemma resolveMxToIPs_run domain s :
  ∃ ips evs, resolveMxToIPs env domain s = (Val ips, extend s evs)
             ∧ txt_queries evs = [].
Proof.
  unfold resolveMxToIPs, resolveMx.
  destruct (request_extend (EvMx domain) (fun t => dns_mx env t domain) s) as [o ->].
  destruct o as [mxRecords|x].
  - destruct (mx_hosts_to_ips_run mxRecords [] (extend s [EvMx domain]))
      as (ips & evs & -> & Hq).
    eexists _, _. rewrite extend_extend. split; [reflexivity|].
    rewrite txt_queries_app, Hq. reflexivity.
  - eexists _, _. split; [reflexivity|]. reflexivity.
Qed.

Lemma resolves_from_here r visited s :
  resolves_from visited s (Some (r, visited, s)).
Proof.
  exists r, visited, []. rewrite extend_nil. simpl.
  split; [done|]. split; [constructor|]. split; [|set_solver].
  intros d Hd. by apply elem_of_nil in Hd.
Qed.

(** Requests that are no TXT lookups in front of a run change nothing. *)
Lemma resolves_from_skip visited s evs res :
  txt_queries evs = [] →
  resolves_from visited (extend s evs) res → resolves_from visited s res.
Proof.
  intros Hq (r & v' & evs' & -> & Hnd & Hfresh & ->).
  exists r, (visited ∪ list_to_set (txt_queries evs')), (evs ++ evs').
  rewrite extend_extend, txt_queries_app, Hq. simpl. split; [done|]. split; [done|]. split; done.
Qed.

(** One lookup of a fresh domain in front of a run. *)
Lemma resolves_from_lookup visited s d res :
  d ∉ visited →
  resolves_from ({[d]} ∪ visited) (extend s [EvTxt d]) res →
  resolves_from visited s res.
Proof.
  intros Hd (r & v' & evs' & -> & Hnd & Hfresh & ->).
  exists r, ({[d]} ∪ visited ∪ list_to_set (txt_queries evs')), (EvTxt d :: evs').
  rewrite extend_extend. simpl. split; [done|]. split; [|split].
  - constructor; [|done]. intros Hin. apply (Hfresh d Hin). set_solver.
  - intros d' Hd'. apply elem_of_cons in Hd' as [->|Hd']; [done|].
    specialize (Hfresh d' Hd'). set_solver.
  - set_solver.
Qed.

(** Two runs in sequence. *)
Lemma resolves_from_seq visited s v1 evs1 res :
  NoDup (txt_queries evs1) →
  (∀ d, d ∈ txt_queries evs1 → d ∉ visited) →
  v1 = visited ∪ list_to_set (txt_queries evs1) →
  resolves_from v1 (extend s evs1) res →
  resolves_from visited s res.
Proof.
  intros Hnd1 Hf1 -> (r & v' & evs' & -> & Hnd & Hfresh & ->).
  exists r, (visited ∪ list_to_set (txt_queries evs1) ∪ list_to_set (txt_queries evs')),
    (evs1 ++ evs').
  rewrite extend_extend, txt_queries_app. split; [done|]. split; [|split].
  - apply NoDup_app. split; [done|]. split; [|done].
    intros d Hd1 Hd2. apply (Hfresh d Hd2). set_solver.
  - intros d Hd. apply elem_of_app in Hd as [Hd|Hd]; [by apply Hf1|].
    specialize (Hfresh d Hd). set_solver.
  - set_solver.
Qed.

(** The loop, for a [self] that behaves at the next depth. *)
Lemma resolve_parts_resolves (self : Resolver) depth :
  (∀ rec visited s, resolves_from visited s (self rec visited (S depth) s)) →
  ∀ parts mechs mods visited s,
    resolves_from visited s (resolve_parts env self parts mechs mods visited depth s).
Proof.
  intros Hself. induction parts as [|part rest IH]; intros mechs mods visited s;
    cbn [resolve_parts].
  { apply resolves_from_here. }
  destruct (String.eqb part "v=spf1"); [apply IH|].
  destruct (Js.startsWith "include:" part).
  { case_bool_decide as Hin; [apply IH|].
    set (d := Js.substring_from 8 part) in *.
    destruct (getSPFRecord_extend d s) as [o ->].
    apply (resolves_from_lookup _ _ d); [done|].
    destruct o as [includeSpf|x]; [|apply IH].
    destruct (Js.truthy_opt includeSpf); [|apply IH].
    destruct (Hself (default "" includeSpf) ({[d]} ∪ visited) (extend s [EvTxt d]))
      as (r & v1 & evs1 & -> & Hnd & Hfresh & Hv1).
    eapply resolves_from_seq; [exact Hnd|exact Hfresh|exact Hv1|apply IH]. }
  destruct (Js.startsWith "redirect=" part); [apply IH|].
  destruct (is_all_term part); [apply IH|].
  destruct (String.eqb part "a" || String.eqb part "mx"); [apply IH|].
  destruct (Js.startsWith "a:" part).
  { destruct (resolveHostToIPs_run (Js.substring_from 2 part) s) as [ips ->].
    eapply resolves_from_skip; [|apply IH]. reflexivity. }
  destruct (Js.startsWith "mx:" part).
  { destruct (resolveMxToIPs_run (Js.substring_from 3 part) s) as (ips & evs & -> & Hq).
    eapply resolves_from_skip; [exact Hq|apply IH]. }
  apply IH.
Qed.

Lemma resolveSpfIncludes_fuel_resolves fuel : ∀ depth,
  (11 - depth < fuel)%nat →
  ∀ spfRecord visited s,
    resolves_from visited s (resolveSpfIncludes_fuel env fuel spfRecord visited depth s).
Proof.
  induction fuel as [|fuel IH]; intros depth Hfuel spfRecord visited s; [lia|].
  simpl. destruct (Nat.ltb_spec 10 depth) as [Hdeep|Hshallow].
  - apply resolves_from_here.
  - apply resolve_parts_resolves. intros rec v s'. apply IH. lia.
Qed.

(** More fuel changes no result. *)
Lemma resolve_parts_mono (self self' : Resolver) :
  (∀ rec visited depth s x, self rec visited depth s = Some x →
                            self' rec visited depth s = Some x) →
  ∀ parts mechs mods visited depth s x,
    resolve_parts env self parts mechs mods visited depth s = Some x →
    resolve_parts env self' parts mechs mods visited depth s = Some x.
Proof.
  intros Hself. induction parts as [|part rest IH];
    intros mechs mods visited depth s x; cbn [resolve_parts]; [done|].
  repeat (match goal with
          | |- context [if ?b then _ else _] => destruct b
          | |- context [match ?p with (_, _) => _ end] => destruct p
          | |- context [match ?o with Val _ => _ | Exc _ => _ end] => destruct o
          end; try apply IH).
  destruct (self _ _ _ _) as [[[resolved v2] s2]|] eqn:Hcall; [|done].
  rewrite (Hself _ _ _ _ _ Hcall). apply IH.
Qed.

Lemma resolveSpfIncludes_fuel_mono fuel : ∀ fuel' spfRecord visited depth s x,
  (fuel ≤ fuel')%nat →
  resolveSpfIncludes_fuel env fuel spfRecord visited depth s = Some x →
  resolveSpfIncludes_fuel env fuel' spfRecord visited depth s = Some x.
Proof.
  induction fuel as [|fuel IH]; intros fuel' spfRecord visited depth s x Hle; [done|].
  destruct fuel' as [|fuel']; [lia|]. simpl.
  destruct (10 <? depth)%nat; [done|].
  apply resolve_parts_mono. intros rec v d s' y. apply IH. lia.
Qed.

End ResolverProofs.

(** C1. For every SPF record and every behaviour of the DNS, cyclic or not,
    [resolveSpfIncludes] returns: the fuel of the model that [spf_fuel]
    grants, or any larger one, is never exhausted.  The call only adds
    requests; the domains it looks up were not in the shared visited set
    and no domain is looked up twice, and all of them are in the set
    afterwards; a call at a depth beyond 10 returns the empty result at
    once, with no request. *)
Theorem C1_resolveSpfIncludes_terminates (env : Env) (spfRecord : string)
    (visited : gset string) (depth extra : nat) (s : St) :
  ∃ r visited' evs,
    resolveSpfIncludes_fuel env (spf_fuel depth + extra) spfRecord visited depth s
      = Some (r, visited', extend s evs)
    ∧ resolveSpfIncludes env spfRecord visited depth s = (r, visited', extend s evs)
    ∧ NoDup (txt_queries evs)
    ∧ (∀ d, d ∈ txt_queries evs → d ∉ visited)
    ∧ visited' = visited ∪ list_to_set (txt_queries evs)
    ∧ ((10 < depth)%nat → r = {| mechanisms := []; modifiers := [] |} ∧ evs = []).
Proof.
  destruct (resolveSpfIncludes_fuel_resolves env (spf_fuel depth) depth
              ltac:(unfold spf_fuel; lia) spfRecord visited s)
    as (r & v' & evs & Hrun & Hnd & Hfresh & Hv).
  exists r, v', evs. split; [|split; [|split; [|split; [|split]]]]; try done.
  - eapply resolveSpfIncludes_fuel_mono; [|exact Hrun]. lia.
  - unfold resolveSpfIncludes. by rewrite Hrun.
  - intros Hdeep. unfold spf_fuel in Hrun. simpl in Hrun.
    destruct (Nat.ltb_spec 10 depth) as [_|?]; [|lia].
    injection Hrun as <- _ Hs.
    split; [done|].
    assert (trace s ++ evs = trace s ++ []) as Ht.
    { rewrite app_nil_r. apply (f_equal trace) in Hs. simpl in Hs. congruence. }
    by apply app_inv_head in Ht.
Qed.

(** A call beyond the ceiling, the one of the test suite. *)
Lemma C1_resolveSpfIncludes_terminates_witness :
  resolveSpfIncludes nowhere "v=spf1 a mx -all" ∅ 11 start
  = ({| mechanisms := []; modifiers := [] |}, ∅, start).
Proof.
  destruct (C1_resolveSpfIncludes_terminates nowhere "v=spf1 a mx -all" ∅ 11 0 start)
    as (r & visited' & evs & _ & Hrun & _ & _ & Hvisited & Hdeep).
  destruct (Hdeep ltac:(lia)) as [-> ->].
  rewrite Hrun, Hvisited. simpl. by rewrite (left_id_L ∅ (∪)).
Defined.

(** ** The flattener *)

Example resolve_cycle :
  resolveSpfIncludes cyclic_includes "v=spf1 include:a.com -all" ∅ 0 start
  = ({| mechanisms := ["ip4:192.0.2.2"; "ip4:192.0.2.1"];
        modifiers := ["-all"; "-all"; "-all"] |},
     {["a.com"; "b.com"]},
     extend start [EvTxt "a.com"; EvTxt "b.com"]).
Proof. vm_compute. reflexivity. Qed.

Example depth_ceiling :
  resolveSpfIncludes nowhere "v=spf1 a mx -all" ∅ 11 start
  = ({| mechanisms := []; modifiers := [] |}, ∅, start).
Proof. reflexivity. Qed.

Example flatten_twins :
  buildFlattenedSpfRecord twin_includes "v=spf1 include:x.com include:y.com -all" start
  = (Val "v=spf1 ip4:1.1.1.1 -all", extend start [EvTxt "x.com"; EvTxt "y.com"]).
Proof. vm_compute. reflexivity. Qed.

(** The deduplication keeps one copy of each string, in the order of the
    first occurrences. *)
Lemma uniq_go_elem_of xs : ∀ seen x,
  x ∈ Js.uniq_go seen xs ↔ x ∈ xs ∧ x ∉ seen.
Proof.
  induction xs as [|y xs IH]; intros seen x; simpl.
  - split; [by intros ?%elem_of_nil|by intros [?%elem_of_nil _]].
  - case_bool_decide as Hy.
    + rewrite IH, elem_of_cons. split; [by intuition|].
      intros [[->|?] ?]; by intuition.
    + rewrite !elem_of_cons, IH, elem_of_cons. split.
      * intros [->|(? & Hn)]; [by auto|]. split; [by auto|]. intros ?. apply Hn. by auto.
      * intros [[->|?] Hn]; [by auto|].
        destruct (decide (x = y)) as [->|Hne]; [by auto|].
        right. split; [done|]. by intros [?|?].
Qed.

Lemma uniq_elem_of xs x : x ∈ Js.uniq xs ↔ x ∈ xs.
Proof.
  unfold Js.uniq. rewrite uniq_go_elem_of. split; [by intros [? _]|].
  intros ?. split; [done|]. by intros ?%elem_of_nil.
Qed.

Lemma uniq_go_NoDup xs : ∀ seen, NoDup (Js.uniq_go seen xs).
Proof.
  induction xs as [|y xs IH]; intros seen; simpl; [constructor|].
  case_bool_decide; [apply IH|]. constructor; [|apply IH].
  rewrite uniq_go_elem_of. intros [_ Hn]. apply Hn. by left.
Qed.

Lemma uniq_NoDup xs : NoDup (Js.uniq xs).
Proof. apply uniq_go_NoDup. Qed.

Lemma uniq_go_sublist xs : ∀ seen, sublist (Js.uniq_go seen xs) xs.
Proof.
  induction xs as [|y xs IH]; intros seen; simpl; [constructor|].
  case_bool_decide; [by apply sublist_cons|by apply sublist_skip].
Qed.

Lemma uniq_sublist xs : sublist (Js.uniq xs) xs.
Proof. apply uniq_go_sublist. Qed.

Lemma includes_nonempty sub s : Js.includes sub s = true → sub ≠ "" → s ≠ "".
Proof. intros Hin Hsub ->. simpl in Hin. by destruct sub. Qed.

Lemma find_ext_in {A} (p q : A → bool) (xs : list A) :
  (∀ x, x ∈ xs → p x = q x) → Js.find p xs = Js.find q xs.
Proof.
  unfold Js.find. induction xs as [|x xs IH]; intros Hpq; simpl; [done|].
  rewrite (Hpq x) by (by left). destruct (q x); [done|].
  apply IH. intros y Hy. apply Hpq. by right.
Qed.

Lemma filter_ext_in {A} (P Q : A → Prop) `{∀ x, Decision (P x)} `{∀ x, Decision (Q x)}
    (xs : list A) :
  (∀ x, x ∈ xs → P x ↔ Q x) → filter P xs = filter Q xs.
Proof.
  induction xs as [|x xs IH]; intros HPQ; [done|].
  rewrite !filter_cons.
  assert (P x ↔ Q x) as Hx by (apply HPQ; by left).
  rewrite IH by (intros y Hy; apply HPQ; by right).
  destruct (decide (P x)), (decide (Q x)); by intuition.
Qed.

(** Where the modifiers that contain [all] are the [all] terms, the record
    that the flattener builds is the one of its description. *)
Lemma assemble_as_described resolved :
  (∀ m, m ∈ modifiers resolved → Js.includes "all" m = is_all_term m) →
  assemble resolved = assemble_by_description resolved.
Proof.
  intros Hall. unfold assemble, assemble_by_description.
  set (mods := Js.uniq (modifiers resolved)).
  assert (∀ m, m ∈ mods → Js.includes "all" m = is_all_term m) as Hmods.
  { intros m Hm. apply Hall. by apply uniq_elem_of. }
  rewrite (find_ext_in _ is_all_term mods Hmods).
  assert (filter (fun m => negb (Js.includes "all" m) = true) mods
          = filter (fun m => is_all_term m = false) mods) as ->.
  { apply filter_ext_in. intros m Hm.
    rewrite (Hmods m Hm). by destruct (is_all_term m). }
  destruct (Js.find is_all_term mods) as [m|] eqn:Hfind; simpl.
  - assert (Js.truthy m = true) as ->.
    { apply find_some in Hfind as [Hin Hm]. apply list_elem_of_In in Hin.
      rewrite <- (Hmods m Hin) in Hm.
      unfold Js.truthy. destruct (String.eqb_spec m ""); [|done].
      by apply includes_nonempty in Hm. }
    by rewrite <- app_assoc.
  - by rewrite app_nil_r.
Qed.

(** C2. A record whose include ends in [redirect=_spf.smallhost.example]
    and that closes with [-all] resolves to that redirect and to [-all];
    the flattener takes the redirect for the [all] modifier, since its host
    name contains [all], and the record it builds has lost [-all], which
    the description puts last. *)
Theorem C2_all_modifier_lost :
  resolveSpfIncludes redirecting_include "v=spf1 include:mail.example -all" ∅ 0 start
  = ({| mechanisms := ["ip4:192.0.2.1"];
        modifiers := ["redirect=_spf.smallhost.example"; "-all"] |},
     {["mail.example"]}, extend start [EvTxt "mail.example"])
  ∧ buildFlattenedSpfRecord redirecting_include "v=spf1 include:mail.example -all" start
    = (Val "v=spf1 ip4:192.0.2.1 redirect=_spf.smallhost.example",
       extend start [EvTxt "mail.example"])
  ∧ assemble_by_description
      {| mechanisms := ["ip4:192.0.2.1"];
         modifiers := ["redirect=_spf.smallhost.example"; "-all"] |}
    = "v=spf1 ip4:192.0.2.1 redirect=_spf.smallhost.example -all".
Proof. split; [|split]; vm_compute; reflexivity. Qed.

(** ** Terms that name a host *)

Section HostTerms.
Context (env : Env).

(** [resolveHostToIPs] returns what the two lookups gave, and returns the
    empty array when both fail: it never throws. *)
Lemma resolveHostToIPs_unresolved hostname s e4 e6 :
  dns_a env (trace s) hostname = Fail e4 →
  dns_aaaa env (trace s ++ [EvA hostname]) hostname = Fail e6 →
  resolveHostToIPs env hostname s
  = (Val [], extend s [EvA hostname; EvAAAA hostname]).
Proof.
  intros H4 H6.
  unfold resolveHostToIPs, try_catch, bind, resolve4, resolve6, request, ret, extend.
  cbn [trace heap]. rewrite H4. cbn [trace heap]. rewrite H6. simpl.
  by rewrite <- app_assoc.
Qed.

Lemma resolveHostToIPs_resolved hostname s v4 v6 :
  dns_a env (trace s) hostname = Ok v4 →
  dns_aaaa env (trace s ++ [EvA hostname]) hostname = Ok v6 →
  resolveHostToIPs env hostname s
  = (Val (map (fun ip => "ip4:" +:+ ip) v4 ++ map (fun ip => "ip6:" +:+ ip) v6),
     extend s [EvA hostname; EvAAAA hostname]).
Proof.
  intros H4 H6.
  unfold resolveHostToIPs, try_catch, bind, resolve4, resolve6, request, ret, extend.
  cbn [trace heap]. rewrite H4. cbn [trace heap]. rewrite H6. simpl.
  by rewrite <- app_assoc.
Qed.

(** How the loop classifies a term [a:host]. *)
Lemma a_term_tests host :
  let part := "a:" +:+ host in
  String.eqb part "v=spf1" = false
  ∧ Js.startsWith "include:" part = false
  ∧ Js.startsWith "redirect=" part = false
  ∧ is_all_term part = false
  ∧ (String.eqb part "a" || String.eqb part "mx") = false
  ∧ Js.startsWith "a:" part = true
  ∧ Js.substring_from 2 part = host.
Proof. repeat split; try reflexivity. by destruct host. Qed.

(** A term [a:host] whose host has no address leaves nothing in the
    mechanisms: the loop goes on as if the term were not there. *)
Lemma a_term_unresolved_dropped (self : Resolver) host rest mechs mods visited depth s e4 e6 :
  dns_a env (trace s) host = Fail e4 →
  dns_aaaa env (trace s ++ [EvA host]) host = Fail e6 →
  resolve_parts env self (("a:" +:+ host) :: rest) mechs mods visited depth s
  = resolve_parts env self rest mechs mods visited depth
      (extend s [EvA host; EvAAAA host]).
Proof.
  intros H4 H6. cbn [resolve_parts].
  destruct (a_term_tests host) as (-> & -> & -> & -> & -> & -> & ->).
  rewrite (resolveHostToIPs_unresolved host s e4 e6 H4 H6).
  by rewrite app_nil_r.
Qed.

(** A term [a:host] whose host has addresses is replaced by them. *)
Lemma a_term_resolved_replaced (self : Resolver) host rest mechs mods visited depth s v4 v6 :
  dns_a env (trace s) host = Ok v4 →
  dns_aaaa env (trace s ++ [EvA host]) host = Ok v6 →
  resolve_parts env self (("a:" +:+ host) :: rest) mechs mods visited depth s
  = resolve_parts env self rest
      (mechs ++ map (fun ip => "ip4:" +:+ ip) v4 ++ map (fun ip => "ip6:" +:+ ip) v6)
      mods visited depth (extend s [EvA host; EvAAAA host]).
Proof.
  intros H4 H6. cbn [resolve_parts].
  destruct (a_term_tests host) as (-> & -> & -> & -> & -> & -> & ->).
  by rewrite (resolveHostToIPs_resolved host s v4 v6 H4 H6).
Qed.

End HostTerms.

(** C7. Where neither [mail.example.com] nor the mail servers of
    [example.org] have an address, the terms [a:mail.example.com] and
    [mx:example.org] are not in the resolved mechanisms: they are dropped,
    not kept.  Where the host has addresses, the term is replaced by them. *)
Theorem C7_unresolved_host_term_dropped :
  resolveSpfIncludes nowhere
    "v=spf1 a:mail.example.com mx:example.org ip4:192.0.2.7 -all" ∅ 0 start
  = ({| mechanisms := ["ip4:192.0.2.7"]; modifiers := ["-all"] |}, ∅,
     extend start [EvA "mail.example.com"; EvAAAA "mail.example.com";
                   EvMx "example.org"])
  ∧ resolveSpfIncludes
      (with_addresses "mail.example.com" ["192.0.2.25"] ["2001:db8::25"])
      "v=spf1 a:mail.example.com -all" ∅ 0 start
    = ({| mechanisms := ["ip4:192.0.2.25"; "ip6:2001:db8::25"];
          modifiers := ["-all"] |}, ∅,
       extend start [EvA "mail.example.com"; EvAAAA "mail.example.com"]).
Proof. split; vm_compute; reflexivity. Qed.

(** ** The token bucket *)

Module LimiterProofs.
Import Limiter.

Lemma drain_spec t : ∀ q processed,
  drain t q processed
  = ((t - length (firstn t q))%nat, skipn t q, processed ++ firstn t q).
Proof.
  induction t as [|t IH]; intros q processed; simpl.
  - by rewrite app_nil_r.
  - destruct q as [|c q]; simpl.
    + by rewrite app_nil_r.
    + rewrite IH, <- app_assoc. reflexivity.
Qed.

Lemma refill_spec l :
  refill l
  = ({| capacity := capacity l;
        tokens := (capacity l - length (firstn (capacity l) (queue l)))%nat;
        queue := skipn (capacity l) (queue l) |},
     firstn (capacity l) (queue l)).
Proof. unfold refill. by rewrite drain_spec. Qed.

Lemma run_app ops1 ops2 l :
  run (ops1 ++ ops2) l
  = let '(l1, r1) := run ops1 l in
    let '(l2, r2) := run ops2 l1 in (l2, r1 ++ r2).
Proof.
  revert l. induction ops1 as [|op ops1 IH]; intros l; simpl.
  - by destruct (run ops2 l).
  - destruct (step op l) as [l1 r1]. rewrite IH.
    destruct (run ops1 l1) as [l2 r2]. destruct (run ops2 l2) as [l3 r3].
    by rewrite app_assoc.
Qed.

(** While a caller waits, the bucket is empty, and the bucket never holds
    more than its capacity. *)
Lemma reachable_invariant l :
  reachable l →
  capacity l = CAPACITY ∧ (tokens l ≤ capacity l)%nat ∧
  (queue l ≠ [] → tokens l = 0%nat).
Proof.
  induction 1 as [|op l Hl (Hcap & Hle & Hq)]; [by repeat split|].
  destruct op as [c|]; simpl.
  - unfold rateLimitAutoDNS. destruct (tokens l) as [|n] eqn:Ht; simpl.
    + by repeat split.
    + repeat split; [done|lia|]. intros Hne. by specialize (Hq Hne).
  - rewrite refill_spec. simpl. repeat split; [done|lia|].
    intros Hne. rewrite length_take.
    destruct (decide (length (queue l) ≤ capacity l)%nat) as [Hshort|Hlong]; [|lia].
    exfalso. apply Hne. by apply drop_ge.
Qed.

(** Five calls on the full bucket. *)
Lemma five_acquisitions c1 c2 c3 c4 c5 :
  run (map Acquire [c1; c2; c3; c4; c5]) autodnsRate
  = ({| capacity := 3; tokens := 0; queue := [c4; c5] |}, [c1; c2; c3]).
Proof. reflexivity. Qed.

End LimiterProofs.

(** C3. The token bucket of capacity 3.  A call made while tokens remain is
    resolved by the call itself and takes one token; a call made on the
    empty bucket is queued behind the callers that wait and resolves
    nobody; [CAPACITY + 2] calls on the full bucket resolve the first three
    and leave exactly two callers queued; a tick resolves the head of the
    queue, oldest first, one caller per token; in every reachable state
    the bucket is empty while a caller waits, so that no later call
    overtakes a queued caller: a caller arriving before the tick is
    resolved after the two that wait. *)
Theorem C3_token_bucket_fifo :
  (∀ l c, (0 < Limiter.tokens l)%nat →
     Limiter.rateLimitAutoDNS c l
     = ({| Limiter.capacity := Limiter.capacity l;
           Limiter.tokens := (Limiter.tokens l - 1)%nat;
           Limiter.queue := Limiter.queue l |}, [c]))
  ∧ (∀ l c, Limiter.tokens l = 0%nat →
     Limiter.rateLimitAutoDNS c l
     = ({| Limiter.capacity := Limiter.capacity l;
           Limiter.tokens := 0;
           Limiter.queue := Limiter.queue l ++ [c] |}, []))
  ∧ (∀ cs, length cs = (Limiter.CAPACITY + 2)%nat →
     ∃ l, Limiter.run (map Limiter.Acquire cs) Limiter.autodnsRate
          = (l, firstn Limiter.CAPACITY cs)
        ∧ Limiter.queue l = skipn Limiter.CAPACITY cs
        ∧ length (Limiter.queue l) = 2%nat
        ∧ Limiter.tokens l = 0%nat
        ∧ Limiter.refill l
          = ({| Limiter.capacity := 3; Limiter.tokens := 1; Limiter.queue := [] |},
             Limiter.queue l))
  ∧ (∀ l, snd (Limiter.refill l) = firstn (Limiter.capacity l) (Limiter.queue l)
        ∧ Limiter.queue (fst (Limiter.refill l))
          = skipn (Limiter.capacity l) (Limiter.queue l)
        ∧ Limiter.tokens (fst (Limiter.refill l))
          = (Limiter.capacity l - length (snd (Limiter.refill l)))%nat)
  ∧ (∀ l, Limiter.reachable l → Limiter.queue l ≠ [] → Limiter.tokens l = 0%nat)
  ∧ (∀ cs late, length cs = (Limiter.CAPACITY + 2)%nat →
     snd (Limiter.run (map Limiter.Acquire cs ++ [Limiter.Acquire late; Limiter.Tick])
                      Limiter.autodnsRate)
     = cs ++ [late]).
Proof.
  split; [|split; [|split; [|split; [|split]]]].
  - intros l c Ht. unfold Limiter.rateLimitAutoDNS.
    destruct (Limiter.tokens l) as [|n] eqn:E; [lia|]. simpl. by rewrite Nat.sub_0_r.
  - intros l c Ht. unfold Limiter.rateLimitAutoDNS. by rewrite Ht.
  - intros cs Hlen.
    destruct cs as [|c1 [|c2 [|c3 [|c4 [|c5 [|c6 cs]]]]]]; simpl in Hlen; try lia.
    eexists. rewrite LimiterProofs.five_acquisitions. simpl. by repeat split.
  - intros l. rewrite LimiterProofs.refill_spec. simpl. by repeat split.
  - intros l Hl Hq. by apply (LimiterProofs.reachable_invariant l Hl).
  - intros cs late Hlen.
    destruct cs as [|c1 [|c2 [|c3 [|c4 [|c5 [|c6 cs]]]]]]; simpl in Hlen; try lia.
    reflexivity.
Qed.

(** Five callers and a late one, numbered from 1, and a first caller. *)
Lemma C3_token_bucket_fifo_witness :
  snd (Limiter.run (map Limiter.Acquire [1; 2; 3; 4; 5]%nat
                    ++ [Limiter.Acquire 6%nat; Limiter.Tick])
                   Limiter.autodnsRate)
  = [1; 2; 3; 4; 5; 6]%nat
  ∧ Limiter.rateLimitAutoDNS 7%nat Limiter.autodnsRate
    = ({| Limiter.capacity := 3; Limiter.tokens := 2; Limiter.queue := [] |}, [7%nat]).
Proof.
  destruct C3_token_bucket_fifo as (Htake & _ & _ & _ & _ & Hlate).
  split.
  - apply (Hlate [1; 2; 3; 4; 5]%nat 6%nat). reflexivity.
  - apply (Htake Limiter.autodnsRate 7%nat). cbv. lia.
Defined.

(** ** The retry policy *)

(** On HTTP status codes the test of the client is the one of the policy. *)
Lemma isRetryableError_policy e :
  http_status_valid e → isRetryableError e = retryable_by_policy e.
Proof.
  unfold http_status_valid, isRetryableError, retryable_by_policy,
    is_transport_failure, is_http_5xx, is_http_429.
  destruct (code_is e "ECONNRESET" || code_is e "ETIMEDOUT" || code_is e "ENOTFOUND");
    [done|]. simpl.
  destruct (e_status e) as [st|]; [|done]. intros Hst.
  destruct (Z.leb_spec 500 st), (Z.leb_spec st 599), (Z.eqb_spec st 429);
    simpl; try done; lia.
Qed.

(** The test of the client, spelled out. *)
Lemma isRetryableError_iff e :
  isRetryableError e = true ↔
  is_transport_failure e = true
  ∨ ∃ st, e_status e = Some st ∧ (500 <= st ∨ st = 429).
Proof.
  unfold isRetryableError, is_transport_failure.
  destruct (code_is e "ECONNRESET" || code_is e "ETIMEDOUT" || code_is e "ENOTFOUND");
    [by intuition|].
  destruct (e_status e) as [st|].
  - destruct (Z.leb_spec 500 st), (Z.eqb_spec st 429); split; try done;
      try (intros _; right; exists st; split; [done|lia]);
      intros [?|(st' & [= <-] & [?|?])]; try done; lia.
  - split; [done|]. by intros [?|(st & ? & _)].
Qed.

(** The loop of p-retry around one attempt of the client is the policy,
    for a request whose failures are plain errors with HTTP status codes. *)
Lemma pRetry_from_policy {A} (body : M A) :
  (∀ s x s1, body s = (Exc x, s1) → ∃ e, x = Plain e ∧ http_status_valid e) →
  ∀ retriesLeft attemptNumber s,
    pRetry_from (fun _ => attempt body) attemptNumber retriesLeft s
    = retry_by_policy body attemptNumber retriesLeft s.
Proof.
  intros Hbody. induction retriesLeft as [|r IH]; intros n s; simpl;
    unfold attempt, bind, try_catch, emit; simpl;
    destruct (body _) as [[a|x] s1] eqn:Hrun; try done;
    destruct (Hbody _ _ _ Hrun) as (e & -> & Hvalid);
    unfold classify; simpl;
    rewrite (isRetryableError_policy e Hvalid);
    destruct (retryable_by_policy e); simpl; try done; apply IH.
Qed.

Lemma backoff_values : backoff 0 = 1000 ∧ backoff 1 = 2000 ∧ backoff 2 = 4000.
Proof. by repeat split. Qed.

Lemma backoff_bounds k : MIN_TIMEOUT <= backoff k <= MAX_TIMEOUT ∧ backoff k <= backoff (S k).
Proof.
  unfold backoff, MIN_TIMEOUT, MAX_TIMEOUT, FACTOR.
  assert (1 <= 2 ^ Z.of_nat k) by (apply Z.pow_le_mono_r with (b := 0); lia).
  assert (2 ^ Z.of_nat (S k) = 2 * 2 ^ Z.of_nat k) as ->.
  { rewrite Nat2Z.inj_succ, Z.pow_succ_r; lia. }
  lia.
Qed.

Lemma request_fails_plain {A} ev (answer : Trace -> Reply A) s x s1 :
  request ev answer s = (Exc x, s1) → ∃ e, x = Plain e ∧ answer (trace s) = Fail e.
Proof.
  unfold request. destruct (answer (trace s)) as [a|e] eqn:Ha; [done|].
  intros [= <- _]. eauto.
Qed.

Lemma mapM_alloc_val (zones : list Obj) : ∀ s,
  ∃ refs, mapM alloc zones s
          = (Val refs, {| trace := trace s; heap := heap s ++ zones |}).
Proof.
  induction zones as [|z zones IH]; intros s; simpl.
  - exists []. unfold ret. rewrite app_nil_r. by destruct s.
  - unfold bind, alloc at 1. simpl.
    destruct (IH {| trace := trace s; heap := heap s ++ [z] |}) as [refs ->].
    simpl. eexists. unfold ret. by rewrite <- app_assoc.
Qed.

Lemma parse_zone_body_val (b : ZoneBody) s :
  ∃ zi, parse_zone_body b s
        = (Val zi, {| trace := trace s;
                      heap := heap s ++ default [] (zb_data b) |}).
Proof.
  unfold parse_zone_body. destruct (zb_data b) as [zones|]; simpl.
  - unfold bind. destruct (mapM_alloc_val zones s) as [refs ->]. eauto.
  - eexists. unfold ret. rewrite app_nil_r. by destruct s.
Qed.

Lemma alter_fresh {A} (f : A → A) (l : list A) (x : A) :
  alter f (length l) (l ++ [x]) = l ++ [f x].
Proof. by rewrite <- (Nat.add_0_r (length l)), alter_app_r. Qed.

Lemma strip_fields_run fields : ∀ (h : list Obj) (o : Obj) (tr : Trace),
  ∃ units,
    mapM (fun field => modify (length h) (delete field)) fields
         {| trace := tr; heap := h ++ [o] |}
    = (Val units,
       {| trace := tr;
          heap := h ++ [foldl (fun acc field => delete field acc) o fields] |}).
Proof.
  induction fields as [|field fields IH]; intros h o tr; simpl.
  - by eexists.
  - unfold bind, modify at 1. cbn [trace heap]. rewrite alter_fresh.
    destruct (IH h (delete field o) tr) as [units ->]. by eexists.
Qed.

Section ClientProofs.
Context (env : Env) (config : Config).
Hypothesis Hvalid : api_statuses_valid env.

Lemma search_body_fails s x s1 :
  request EvApiSearch (api_search env) s = (Exc x, s1) →
  ∃ e, x = Plain e ∧ http_status_valid e.
Proof.
  intros Hrun. destruct (request_fails_plain _ _ _ _ _ Hrun) as (e & -> & He).
  exists e. split; [done|]. by apply Hvalid in He.
Qed.

Lemma get_body_fails sz s x s1 :
  (body <- request (EvApiGet sz) (fun t => api_get_zone env t sz) ;;
   parse_zone_body body) s = (Exc x, s1) →
  ∃ e, x = Plain e ∧ http_status_valid e.
Proof.
  unfold bind.
  destruct (request _ _ s) as [[b|x'] s'] eqn:Hrun.
  - destruct (parse_zone_body_val b s') as [zi ->]. done.
  - intros [= <- _].
    destruct (request_fails_plain _ _ _ _ _ Hrun) as (e & -> & He).
    exists e. split; [done|]. destruct Hvalid as (_ & Hget & _). by apply Hget in He.
Qed.

(** One attempt of [updateZone]: the payload is the copy of the zone
    object without the read-only fields; the copy is a new object and no
    other object changes. *)
Lemma put_zone_run sz zoneData s :
  let payload := strip_read_only (default ∅ (heap s !! zoneData)) in
  put_zone env sz zoneData s
  = match api_put_zone env (trace s) sz payload with
    | Ok a => (Val a, after_put sz payload s)
    | Fail e => (Exc (Plain e), after_put sz payload s)
    end.
Proof.
  unfold put_zone, bind, deref, alloc. cbn [trace heap].
  destruct (strip_fields_run readOnlyFields (heap s)
              (default ∅ (heap s !! zoneData)) (trace s)) as [units ->].
  unfold request, after_put. cbn [trace heap].
  rewrite list_lookup_middle by done. cbn [default].
  fold (strip_read_only (default ∅ (heap s !! zoneData))).
  by destruct (api_put_zone env (trace s) sz _).
Qed.

Lemma put_body_fails sz zoneData s x s1 :
  put_zone env sz zoneData s = (Exc x, s1) →
  ∃ e, x = Plain e ∧ http_status_valid e.
Proof.
  rewrite put_zone_run. cbv zeta.
  destruct (api_put_zone env (trace s) sz _) as [a|e] eqn:He; [done|].
  intros [= <- _]. exists e. split; [done|].
  destruct Hvalid as (_ & _ & Hput). by apply Hput in He.
Qed.

Lemma queryDomains_policy s :
  queryDomains env s
  = retry_by_policy (request EvApiSearch (api_search env)) 1 RETRIES s.
Proof. apply pRetry_from_policy. apply search_body_fails. Qed.

Lemma getZone_policy zoneName s :
  getZone env zoneName s
  = (sanitizedZone <- sanitize zoneName ;;
     retry_by_policy
       (body <- request (EvApiGet sanitizedZone)
                        (fun t => api_get_zone env t sanitizedZone) ;;
        parse_zone_body body) 1 RETRIES) s.
Proof.
  unfold getZone, bind. destruct (sanitize zoneName s) as [[sz|x] s1]; [|done].
  apply pRetry_from_policy. apply get_body_fails.
Qed.

Lemma updateZone_policy zoneName zoneData s :
  dryRun config = false →
  updateZone env config zoneName zoneData s
  = (sanitizedZone <- sanitize zoneName ;;
     retry_by_policy (put_zone env sanitizedZone zoneData) 1 RETRIES) s.
Proof.
  intros Hwet. unfold updateZone, bind. rewrite Hwet.
  destruct (sanitize zoneName s) as [[sz|x] s1]; [|done].
  apply pRetry_from_policy. apply put_body_fails.
Qed.

End ClientProofs.

(** ** The number of attempts *)

Lemma attempts_in_app a b : attempts_in (a ++ b) = (attempts_in a + attempts_in b)%nat.
Proof. unfold attempts_in. by rewrite filter_app, length_app. Qed.

Section Attempts.

Lemma bounded_weaken {A} n n' (m : M A) :
  (n ≤ n')%nat → attempts_bounded n m → attempts_bounded n' m.
Proof.
  intros Hle Hm s. destruct (Hm s) as (o & evs & h' & Hrun & Hn).
  exists o, evs, h'. split; [done|lia].
Qed.

Lemma bounded_ret {A} (a : A) : attempts_bounded 0 (ret a).
Proof.
  intros s. exists (Val a), [], (heap s). unfold ret. rewrite app_nil_r.
  destruct s; simpl. by split.
Qed.

Lemma bounded_throw {A} (x : Exn) : attempts_bounded 0 (throw x : M A).
Proof.
  intros s. exists (Exc x), [], (heap s). unfold throw. rewrite app_nil_r.
  destruct s; simpl. by split.
Qed.

Lemma bounded_then {A B} a b (m : M A) (k : Outcome A → M B) :
  attempts_bounded a m → (∀ o, attempts_bounded b (k o)) →
  attempts_bounded (a + b) (fun s => let '(o, s1) := m s in k o s1).
Proof.
  intros Hm Hk s. destruct (Hm s) as (o & evs & h1 & -> & Ha).
  destruct (Hk o {| trace := trace s ++ evs; heap := h1 |})
    as (o2 & evs2 & h2 & -> & Hb).
  exists o2, (evs ++ evs2), h2. cbn [trace heap]. rewrite app_assoc.
  split; [done|]. rewrite attempts_in_app. lia.
Qed.

Lemma bounded_ext {A} n (m m' : M A) :
  (∀ s, m' s = m s) → attempts_bounded n m → attempts_bounded n m'.
Proof. intros Heq Hm s. rewrite Heq. apply Hm. Qed.

Lemma bounded_bind {A B} a b (m : M A) (k : A → M B) :
  attempts_bounded a m → (∀ x, attempts_bounded b (k x)) →
  attempts_bounded (a + b) (bind m k).
Proof.
  intros Hm Hk.
  apply (bounded_ext _ (fun s => let '(o, s1) := m s in
                                 match o with Val x => k x | Exc x => throw x end s1)).
  { intros s. unfold bind. by destruct (m s) as [[x|x] s1]. }
  apply bounded_then; [done|]. intros [x|x]; [apply Hk|].
  eapply bounded_weaken; [|apply bounded_throw]. lia.
Qed.

Lemma bounded_try_catch {A} a b (m : M A) (h : Exn → M A) :
  attempts_bounded a m → (∀ x, attempts_bounded b (h x)) →
  attempts_bounded (a + b) (try_catch m h).
Proof.
  intros Hm Hh.
  apply (bounded_ext _ (fun s => let '(o, s1) := m s in
                                 match o with Val x => ret x | Exc x => h x end s1)).
  { intros s. unfold try_catch. by destruct (m s) as [[x|x] s1]. }
  apply bounded_then; [done|]. intros [x|x]; [|apply Hh].
  eapply bounded_weaken; [|apply bounded_ret]. lia.
Qed.

Lemma bounded_request {A} ev (answer : Trace → Reply A) :
  is_acquire ev = false → attempts_bounded 0 (request ev answer).
Proof.
  intros Hev s. unfold request.
  destruct (answer (trace s)); eexists _, [ev], (heap s);
    (split; [reflexivity|]); unfold attempts_in; rewrite filter_cons;
    destruct (decide _); simpl; congruence || lia.
Qed.

Lemma bounded_emit_acquire : attempts_bounded 1 (emit EvAcquire).
Proof. intros s. eexists _, [EvAcquire], (heap s). by split. Qed.

Lemma bounded_emit_sleep ms : attempts_bounded 0 (emit (EvSleep ms)).
Proof. intros s. eexists _, [EvSleep ms], (heap s). by split. Qed.

Lemma bounded_classify {A} (x : Exn) : attempts_bounded 0 (classify x : M A).
Proof. unfold classify. destruct (negb _); apply bounded_throw. Qed.

(** One attempt takes one token. *)
Lemma bounded_attempt {A} (body : M A) :
  attempts_bounded 0 body → attempts_bounded 1 (attempt body).
Proof.
  intros Hbody. unfold attempt.
  apply (bounded_bind 1 0); [apply bounded_emit_acquire|]. intros _.
  apply (bounded_try_catch 0 0); [done|]. intros x. apply bounded_classify.
Qed.

(** The loop of p-retry makes one attempt more than it has retries. *)
Lemma bounded_pRetry_from {A} (input : nat → M A) retriesLeft : ∀ attemptNumber,
  (∀ n, attempts_bounded 1 (input n)) →
  attempts_bounded (S retriesLeft) (pRetry_from input attemptNumber retriesLeft).
Proof.
  induction retriesLeft as [|n IH]; intros attemptNumber Hinput.
  - apply (bounded_ext _ (fun s => let '(o, s1) := input attemptNumber s in
                                   match o with
                                   | Val a => ret a
                                   | Exc x => throw (Plain (original x))
                                   end s1)).
    { intros s. simpl. by destruct (input attemptNumber s) as [[a|[e|e]] s1]. }
    apply (bounded_then 1 0); [apply Hinput|].
    intros [a|x]; [apply bounded_ret|apply bounded_throw].
  - apply (bounded_ext _ (fun s => let '(o, s1) := input attemptNumber s in
                                   match o with
                                   | Val a => ret a
                                   | Exc (AbortError e) => throw (Plain e)
                                   | Exc (Plain e) =>
                                       emit (EvSleep (backoff (attemptNumber - 1))) ;;;
                                       pRetry_from input (S attemptNumber) n
                                   end s1)).
    { intros s. simpl. by destruct (input attemptNumber s) as [[a|[e|e]] s1]. }
    apply (bounded_then 1 (S n)); [apply Hinput|].
    intros [a|[e|e]].
    + eapply bounded_weaken; [|apply bounded_ret]. lia.
    + apply (bounded_bind 0 (S n)); [apply bounded_emit_sleep|]. intros _. by apply IH.
    + eapply bounded_weaken; [|apply bounded_throw]. lia.
Qed.

Lemma bounded_sanitize zoneName : attempts_bounded 0 (sanitize zoneName).
Proof.
  unfold sanitize. destruct (Validators.sanitizeDomainName zoneName);
    [apply bounded_ret|apply bounded_throw].
Qed.

Context (env : Env) (config : Config).

Lemma bounded_queryDomains : attempts_bounded (S RETRIES) (queryDomains env).
Proof.
  apply bounded_pRetry_from. intros _. apply bounded_attempt.
  by apply bounded_request.
Qed.

Lemma bounded_parse_zone_body b : attempts_bounded 0 (parse_zone_body b).
Proof.
  intros s. destruct (parse_zone_body_val b s) as [zi ->].
  eexists _, [], _. rewrite app_nil_r. by split.
Qed.

Lemma bounded_getZone zoneName : attempts_bounded (S RETRIES) (getZone env zoneName).
Proof.
  unfold getZone. apply (bounded_bind 0 (S RETRIES)); [apply bounded_sanitize|].
  intros sz. apply bounded_pRetry_from. intros _. apply bounded_attempt.
  apply (bounded_bind 0 0); [by apply bounded_request|]. apply bounded_parse_zone_body.
Qed.

Lemma bounded_put_zone sz zoneData : attempts_bounded 0 (put_zone env sz zoneData).
Proof.
  intros s. rewrite put_zone_run. cbv zeta. unfold after_put.
  destruct (api_put_zone env _ sz _); by eexists _, [_], _.
Qed.

Lemma bounded_updateZone zoneName zoneData :
  attempts_bounded (S RETRIES) (updateZone env config zoneName zoneData).
Proof.
  unfold updateZone. apply (bounded_bind 0 (S RETRIES)); [apply bounded_sanitize|].
  intros sz. destruct (dryRun config).
  - eapply bounded_weaken; [|apply bounded_ret]. lia.
  - apply bounded_pRetry_from. intros _. apply bounded_attempt, bounded_put_zone.
Qed.

End Attempts.

(** C4. For a zone API that fails with HTTP status codes: the three calls of
    the client (domain search, zone read, zone write outside the dry run)
    are the retry policy around their request; the test of the client
    holds exactly of the transport failures, of the 5xx and of 429; the
    pauses double from one second up to the cap; no call makes more than
    [RETRIES + 1] attempts.  So a search answered 404
    fails on its first attempt with no pause and no retry, and a search
    answered by one retryable failure every time is attempted [RETRIES + 1]
    times, with pauses of one, two and four seconds. *)
Theorem C4_retry_classification (env : Env) (config : Config) :
  api_statuses_valid env →
  (∀ e, http_status_valid e → isRetryableError e = retryable_by_policy e)
  ∧ (∀ s, queryDomains env s
          = retry_by_policy (request EvApiSearch (api_search env)) 1 RETRIES s)
  ∧ (∀ zoneName s,
       getZone env zoneName s
       = (sanitizedZone <- sanitize zoneName ;;
          retry_by_policy
            (body <- request (EvApiGet sanitizedZone)
                             (fun t => api_get_zone env t sanitizedZone) ;;
             parse_zone_body body) 1 RETRIES) s)
  ∧ (∀ zoneName zoneData s,
       dryRun config = false →
       updateZone env config zoneName zoneData s
       = (sanitizedZone <- sanitize zoneName ;;
          retry_by_policy (put_zone env sanitizedZone zoneData) 1 RETRIES) s)
  ∧ (backoff 0 = 1000 ∧ backoff 1 = 2000 ∧ backoff 2 = 4000
     ∧ ∀ k, backoff k <= MAX_TIMEOUT ∧ backoff k <= backoff (S k))
  ∧ (attempts_bounded (S RETRIES) (queryDomains env)
     ∧ (∀ zoneName, attempts_bounded (S RETRIES) (getZone env zoneName))
     ∧ (∀ zoneName zoneData,
          attempts_bounded (S RETRIES) (updateZone env config zoneName zoneData)))
  ∧ (∀ s e,
       api_search env (trace s ++ [EvAcquire]) = Fail e →
       e_status e = Some 404 → is_transport_failure e = false →
       queryDomains env s
       = (Exc (Plain e), extend s [EvAcquire; EvApiSearch]))
  ∧ (∀ s e,
       (∀ t, api_search env t = Fail e) → retryable_by_policy e = true →
       queryDomains env s
       = (Exc (Plain e),
          extend s [EvAcquire; EvApiSearch; EvSleep 1000;
                    EvAcquire; EvApiSearch; EvSleep 2000;
                    EvAcquire; EvApiSearch; EvSleep 4000;
                    EvAcquire; EvApiSearch])).
Proof.
  intros Hvalid. split; [|split; [|split; [|split; [|split; [|split; [|split]]]]]].
  - apply isRetryableError_policy.
  - apply queryDomains_policy, Hvalid.
  - apply getZone_policy, Hvalid.
  - apply updateZone_policy, Hvalid.
  - split; [done|]. split; [done|]. split; [done|]. intros k.
    destruct (backoff_bounds k) as ([_ ?] & ?). done.
  - split; [apply bounded_queryDomains|].
    split; [apply bounded_getZone|apply bounded_updateZone].
  - intros s e Hans Hst Hcode. rewrite (queryDomains_policy _ Hvalid).
    unfold RETRIES. cbn [retry_by_policy]. unfold bind, emit, request.
    cbn [trace heap]. rewrite Hans. cbn [original].
    unfold retryable_by_policy, is_http_5xx, is_http_429. rewrite Hcode, Hst. simpl.
    unfold extend. by rewrite <- app_assoc.
  - intros s e Hans Hretry. rewrite (queryDomains_policy _ Hvalid).
    unfold RETRIES. cbn [retry_by_policy]. unfold bind, emit, request, extend.
    repeat first [rewrite Hans | rewrite Hretry | progress cbn [trace heap original]].
    rewrite <- !app_assoc. reflexivity.
Qed.

(** In a world whose API answers 404, the domain search makes one attempt. *)
Lemma C4_retry_classification_witness :
  queryDomains nowhere start
  = (Exc (Plain (http_error 404)), extend start [EvAcquire; EvApiSearch]).
Proof.
  assert (api_statuses_valid nowhere) as Hvalid.
  { unfold api_statuses_valid, http_status_valid.
    repeat split; intros; simplify_eq/=; lia. }
  destruct (C4_retry_classification nowhere production Hvalid)
    as (_ & _ & _ & _ & _ & _ & Hnot_found & _).
  apply Hnot_found; reflexivity.
Defined.

(** ** Quiet computations *)

Create HintDb quiet.

Section Quiet.
Context (r : loc) (K : list string).

Lemma quiet_ret {A} (a : A) : quiet r K (ret a).
Proof.
  intros s. exists (Val a), [], (heap s). unfold ret. rewrite app_nil_r.
  destruct s; simpl. by repeat split.
Qed.

Lemma quiet_throw {A} (x : Exn) : quiet r K (throw x : M A).
Proof.
  intros s. exists (Exc x), [], (heap s). unfold throw. rewrite app_nil_r.
  destruct s; simpl. by repeat split.
Qed.

Lemma quiet_throw_error {A} msg : quiet r K (throw_error msg : M A).
Proof. apply quiet_throw. Qed.

(** Two quiet runs in sequence. *)
Lemma quiet_then {A B} (m : M A) (k : Outcome A → M B) :
  quiet r K m → (∀ o, quiet r K (k o)) →
  quiet r K (fun s => let '(o, s1) := m s in k o s1).
Proof.
  intros Hm Hk s.
  destruct (Hm s) as (o & evs & h1 & -> & Hw & Hlen & Hkeep).
  destruct (Hk o {| trace := trace s ++ evs; heap := h1 |})
    as (o2 & evs2 & h2 & -> & Hw2 & Hlen2 & Hkeep2).
  exists o2, (evs ++ evs2), h2. cbn [trace heap] in *.
  rewrite app_assoc. split; [done|]. split.
  { unfold zone_writes in *. by rewrite omap_app, Hw, Hw2. }
  split; [lia|]. intros Hr k0 Hk0.
  rewrite Hkeep2 by (done || lia). by apply Hkeep.
Qed.

Lemma quiet_ext {A} (m m' : M A) :
  (∀ s, m' s = m s) → quiet r K m → quiet r K m'.
Proof. intros Heq Hm s. rewrite Heq. apply Hm. Qed.

Lemma quiet_bind {A B} (m : M A) (k : A → M B) :
  quiet r K m → (∀ a, quiet r K (k a)) → quiet r K (bind m k).
Proof.
  intros Hm Hk.
  apply (quiet_ext (fun s => let '(o, s1) := m s in
                             match o with Val a => k a | Exc x => throw x end s1)).
  { intros s. unfold bind. by destruct (m s) as [[a|x] s1]. }
  apply quiet_then; [done|]. intros [a|x]; [apply Hk|apply quiet_throw].
Qed.

Lemma quiet_try_catch {A} (m : M A) (h : Exn → M A) :
  quiet r K m → (∀ x, quiet r K (h x)) → quiet r K (try_catch m h).
Proof.
  intros Hm Hh.
  apply (quiet_ext (fun s => let '(o, s1) := m s in
                             match o with Val a => ret a | Exc x => h x end s1)).
  { intros s. unfold try_catch. by destruct (m s) as [[a|x] s1]. }
  apply quiet_then; [done|]. intros [a|x]; [apply quiet_ret|apply Hh].
Qed.

Lemma quiet_request {A} ev (answer : Trace → Reply A) :
  zone_writes [ev] = [] → quiet r K (request ev answer).
Proof.
  intros Hev s. unfold request.
  destruct (answer (trace s)); eexists _, [ev], (heap s); by repeat split.
Qed.

Lemma quiet_emit ev : zone_writes [ev] = [] → quiet r K (emit ev).
Proof. intros Hev s. eexists _, [ev], (heap s). by repeat split. Qed.

Lemma quiet_alloc (o : Obj) : quiet r K (alloc o).
Proof.
  intros s. eexists _, [], (heap s ++ [o]). unfold alloc. rewrite app_nil_r.
  split; [done|]. split; [done|]. split; [rewrite length_app; simpl; lia|].
  intros Hr k _. by rewrite lookup_app_l.
Qed.

Lemma quiet_deref (r' : loc) : quiet r K (deref r').
Proof.
  intros s. exists (Val (default ∅ (heap s !! r'))), [], (heap s).
  unfold deref. rewrite app_nil_r. destruct s; simpl. by repeat split.
Qed.

(** A change of an object that spares the fields [K]. *)
Lemma quiet_modify (r' : loc) (f : Obj → Obj) :
  (∀ o k, k ∈ K → f o !! k = o !! k) → quiet r K (modify r' f).
Proof.
  intros Hf s. eexists _, [], (alter f r' (heap s)). unfold modify.
  rewrite app_nil_r. split; [done|]. split; [done|].
  split; [by rewrite length_alter|]. intros Hr k Hk.
  destruct (decide (r' = r)) as [->|Hne].
  - rewrite list_lookup_alter_eq. destruct (heap s !! r); simpl; [by apply Hf|done].
  - by rewrite list_lookup_alter_ne.
Qed.

Lemma quiet_set_field (r' : loc) field v :
  field ∉ K → quiet r K (set_field r' field v).
Proof.
  intros Hfield. apply quiet_modify. intros o k Hk.
  apply lookup_insert_ne. by intros ->.
Qed.

Lemma quiet_get_field (r' : loc) field : quiet r K (get_field r' field).
Proof. apply quiet_bind; [apply quiet_deref|]. intros o. apply quiet_ret. Qed.

Lemma quiet_mapM {A B} (f : A → M B) (xs : list A) :
  (∀ x, quiet r K (f x)) → quiet r K (mapM f xs).
Proof.
  intros Hf. induction xs as [|x xs IH]; simpl; [apply quiet_ret|].
  apply quiet_bind; [apply Hf|]. intros y.
  apply quiet_bind; [apply IH|]. intros ys. apply quiet_ret.
Qed.

Lemma quiet_pRetry_from {A} (input : nat → M A) retriesLeft : ∀ attemptNumber,
  (∀ n, quiet r K (input n)) → quiet r K (pRetry_from input attemptNumber retriesLeft).
Proof.
  induction retriesLeft as [|n IH]; intros attemptNumber Hinput.
  - apply (quiet_ext (fun s => let '(o, s1) := input attemptNumber s in
                               match o with
                               | Val a => ret a
                               | Exc x => throw (Plain (original x))
                               end s1)).
    { intros s. simpl. by destruct (input attemptNumber s) as [[a|[e|e]] s1]. }
    apply quiet_then; [apply Hinput|].
    intros [a|x]; [apply quiet_ret|apply quiet_throw].
  - apply (quiet_ext (fun s => let '(o, s1) := input attemptNumber s in
                               match o with
                               | Val a => ret a
                               | Exc (AbortError e) => throw (Plain e)
                               | Exc (Plain e) =>
                                   emit (EvSleep (backoff (attemptNumber - 1))) ;;;
                                   pRetry_from input (S attemptNumber) n
                               end s1)).
    { intros s. simpl. by destruct (input attemptNumber s) as [[a|[e|e]] s1]. }
    apply quiet_then; [apply Hinput|].
    intros [a|[e|e]]; [apply quiet_ret| |apply quiet_throw].
    apply quiet_bind; [by apply quiet_emit|]. intros _. by apply IH.
Qed.

Lemma quiet_classify {A} (x : Exn) : quiet r K (classify x : M A).
Proof. unfold classify. destruct (negb _); apply quiet_throw. Qed.

Lemma quiet_attempt {A} (body : M A) : quiet r K body → quiet r K (attempt body).
Proof.
  intros Hbody. apply quiet_bind; [by apply quiet_emit|]. intros _.
  apply quiet_try_catch; [done|]. intros x. apply quiet_classify.
Qed.

Lemma quiet_sanitize zoneName : quiet r K (sanitize zoneName).
Proof.
  unfold sanitize. destruct (Validators.sanitizeDomainName zoneName);
    [apply quiet_ret|apply quiet_throw].
Qed.

End Quiet.

#[export] Hint Resolve quiet_ret quiet_throw quiet_throw_error quiet_bind
  quiet_try_catch quiet_request quiet_emit quiet_alloc quiet_deref
  quiet_get_field quiet_mapM quiet_pRetry_from quiet_classify quiet_attempt
  quiet_sanitize : quiet.

(** Break a quiet goal along the structure of the computation. *)
Ltac quiet_step :=
  repeat first
    [ progress intros
    | lazymatch goal with
      | |- quiet _ _ (ret _) => apply quiet_ret
      | |- quiet _ _ (throw _) => apply quiet_throw
      | |- quiet _ _ (throw_error _) => apply quiet_throw_error
      | |- quiet _ _ (deref _) => apply quiet_deref
      | |- quiet _ _ (alloc _) => apply quiet_alloc
      | |- quiet _ _ (get_field _ _) => apply quiet_get_field
      | |- quiet _ _ (sanitize _) => apply quiet_sanitize
      | |- quiet _ _ (classify _) => apply quiet_classify
      | |- quiet _ _ (bind _ _) => apply quiet_bind
      | |- quiet _ _ (try_catch _ _) => apply quiet_try_catch
      | |- quiet _ _ (attempt _) => apply quiet_attempt
      | |- quiet _ _ (mapM _ _) => apply quiet_mapM
      | |- quiet _ _ (pRetry_from _ _ _) => apply quiet_pRetry_from
      | |- quiet _ _ (request _ _) => apply quiet_request; reflexivity
      | |- quiet _ _ (emit _) => apply quiet_emit; reflexivity
      | |- quiet _ _ (if ?b then _ else _) => destruct b
      | |- quiet _ _ (match ?x with _ => _ end) => destruct x
      end ].

(** ** The read-only part of the program is quiet *)

Section ReadOnly.
Context (env : Env) (r : loc) (K : list string).

Lemma quiet_parse_zone_body b : quiet r K (parse_zone_body b).
Proof. unfold parse_zone_body. quiet_step. Qed.

Lemma quiet_getZone zoneName : quiet r K (getZone env zoneName).
Proof. unfold getZone, pRetry. quiet_step. apply quiet_parse_zone_body. Qed.

Lemma quiet_queryDomains : quiet r K (queryDomains env).
Proof. unfold queryDomains, pRetry. quiet_step. Qed.

Lemma quiet_resolveTxt name : quiet r K (resolveTxt env name).
Proof. by apply quiet_request. Qed.

Lemma quiet_resolve4 host : quiet r K (resolve4 env host).
Proof. by apply quiet_request. Qed.

Lemma quiet_resolve6 host : quiet r K (resolve6 env host).
Proof. by apply quiet_request. Qed.

Lemma quiet_resolveMx name : quiet r K (resolveMx env name).
Proof. by apply quiet_request. Qed.

Lemma quiet_resolveNs name : quiet r K (resolveNs env name).
Proof. by apply quiet_request. Qed.

Lemma quiet_resolveSoa name : quiet r K (resolveSoa env name).
Proof. by apply quiet_request. Qed.

Lemma quiet_resolveCaa name : quiet r K (resolveCaa env name).
Proof. by apply quiet_request. Qed.

Lemma quiet_reversePtr ip : quiet r K (reversePtr env ip).
Proof. by apply quiet_request. Qed.

Lemma quiet_or_empty {A} (m : M (list A)) : quiet r K m → quiet r K (or_empty m).
Proof. intros Hm. unfold or_empty. quiet_step. done. Qed.

Lemma quiet_safeResolveTxt name : quiet r K (safeResolveTxt env name).
Proof. unfold safeResolveTxt. quiet_step. apply quiet_resolveTxt. Qed.

Lemma quiet_iter_records zone : quiet r K (iter_records zone).
Proof. unfold iter_records. quiet_step. Qed.

Lemma quiet_getARecords zone domainName : quiet r K (getARecords env zone domainName).
Proof.
  unfold getARecords. quiet_step;
    first [apply quiet_iter_records | apply quiet_resolve4].
Qed.

Lemma quiet_getAAAARecords zone domainName :
  quiet r K (getAAAARecords env zone domainName).
Proof.
  unfold getAAAARecords. quiet_step;
    first [apply quiet_iter_records | apply quiet_resolve6].
Qed.

Lemma quiet_getMXRecords zone domainName :
  quiet r K (getMXRecords env zone domainName).
Proof.
  unfold getMXRecords. quiet_step;
    first [apply quiet_iter_records | apply quiet_resolveMx].
Qed.

Lemma quiet_nsHostsResolvable_from nsHosts : ∀ ok,
  quiet r K (nsHostsResolvable_from env ok nsHosts).
Proof.
  induction nsHosts as [|host rest IH]; intros ok; simpl; quiet_step;
    first [apply quiet_or_empty; (apply quiet_resolve4 || apply quiet_resolve6)
          | apply IH].
Qed.

Lemma quiet_mx_targets_resolvable mxHosts : ∀ ok,
  quiet r K (mx_targets_resolvable env ok mxHosts).
Proof.
  induction mxHosts as [|host rest IH]; intros ok; simpl; quiet_step;
    first [apply quiet_or_empty; (apply quiet_resolve4 || apply quiet_resolve6)
          | apply IH].
Qed.

Lemma quiet_usesAutoDNSNameservers domain :
  quiet r K (usesAutoDNSNameservers env domain).
Proof. unfold usesAutoDNSNameservers. quiet_step. apply quiet_resolveNs. Qed.

Lemma quiet_checkNS domain : quiet r K (checkNS env domain).
Proof.
  unfold checkNS, nsHostsResolvable. quiet_step;
    first [apply quiet_resolveNs | apply quiet_nsHostsResolvable_from].
Qed.

Lemma quiet_checkSOA domain : quiet r K (checkSOA env domain).
Proof. unfold checkSOA. quiet_step. apply quiet_resolveSoa. Qed.

Lemma quiet_checkCAA domain : quiet r K (checkCAA env domain).
Proof.
  unfold checkCAA. quiet_step. apply quiet_or_empty, quiet_resolveCaa.
Qed.

Lemma quiet_checkMtaSts domain : quiet r K (checkMtaSts env domain).
Proof. unfold checkMtaSts. quiet_step. apply quiet_safeResolveTxt. Qed.

Lemma quiet_checkTlsRpt domain : quiet r K (checkTlsRpt env domain).
Proof. unfold checkTlsRpt. quiet_step. apply quiet_safeResolveTxt. Qed.

Lemma quiet_checkPTRForOutbound mxHost : quiet r K (checkPTRForOutbound env mxHost).
Proof.
  unfold checkPTRForOutbound. quiet_step;
    apply quiet_or_empty;
    first [apply quiet_resolve4 | apply quiet_resolve6 | apply quiet_reversePtr].
Qed.

Lemma quiet_checkMXIntegrity domain mxHosts :
  quiet r K (checkMXIntegrity env domain mxHosts).
Proof. unfold checkMXIntegrity. quiet_step. apply quiet_mx_targets_resolvable. Qed.

End ReadOnly.

(** ** The zone write and its argument *)

Lemma strip_read_only_lookup (o : Obj) k :
  strip_read_only o !! k = if bool_decide (k ∈ readOnlyFields) then None else o !! k.
Proof.
  unfold strip_read_only, readOnlyFields. simpl. rewrite !lookup_delete.
  case_bool_decide as Hk.
  - repeat (apply elem_of_cons in Hk as [->|Hk]; [by repeat case_decide|]).
    by apply elem_of_nil in Hk.
  - repeat case_decide; subst; try done; exfalso; apply Hk; set_solver.
Qed.

Section ZoneWrite.
Context (env : Env) (config : Config).

(** One attempt of a zone write on the zone object [o]. *)
Lemma attempt_put_run sz zoneData (o : Obj) s :
  heap s !! zoneData = Some o →
  attempt (put_zone env sz zoneData) s
  = let s' := {| trace := trace s ++ [EvAcquire; EvApiPut sz (strip_read_only o)];
                 heap := heap s ++ [strip_read_only o] |} in
    match api_put_zone env (trace s ++ [EvAcquire]) sz (strip_read_only o) with
    | Ok a => (Val a, s')
    | Fail e => (Exc (if isRetryableError e then Plain e else AbortError e), s')
    end.
Proof.
  intros Ho. unfold attempt, bind, emit, try_catch. cbn [trace heap].
  rewrite put_zone_run. cbn [trace heap]. rewrite Ho. cbn [default].
  unfold after_put. cbn [trace heap]. rewrite <- app_assoc.
  destruct (api_put_zone env _ sz _) as [a|e]; [done|].
  unfold classify. cbn [original]. by destruct (isRetryableError e).
Qed.

(** The attempts of a zone write: every request carries the stripped copy
    of the zone object, and the store only grows by such copies. *)
Lemma put_attempts_run sz zoneData (o : Obj) retriesLeft : ∀ attemptNumber s,
  heap s !! zoneData = Some o →
  ∃ out evs new,
    pRetry_from (fun _ => attempt (put_zone env sz zoneData)) attemptNumber retriesLeft s
    = (out, {| trace := trace s ++ evs; heap := heap s ++ new |})
    ∧ Forall (fun zp => zp = (sz, strip_read_only o)) (zone_writes evs).
Proof.
  induction retriesLeft as [|n IH]; intros attemptNumber s Ho;
    cbn [pRetry_from]; rewrite (attempt_put_run sz zoneData o s Ho); cbv zeta;
    destruct (api_put_zone env _ sz _) as [a|e].
  1, 3: eexists _, [EvAcquire; EvApiPut sz (strip_read_only o)], [_];
    split; [reflexivity|]; by repeat constructor.
  - destruct (isRetryableError e);
      eexists _, [EvAcquire; EvApiPut sz (strip_read_only o)], [_];
      (split; [reflexivity|]); by repeat constructor.
  - destruct (isRetryableError e).
    2: { eexists _, [EvAcquire; EvApiPut sz (strip_read_only o)], [_].
         split; [reflexivity|]. by repeat constructor. }
    unfold bind, emit. cbn [trace heap].
    edestruct (IH (S attemptNumber)
                 {| trace := (trace s ++ [EvAcquire; EvApiPut sz (strip_read_only o)])
                               ++ [EvSleep (backoff (attemptNumber - 1))];
                    heap := heap s ++ [strip_read_only o] |})
      as (out & evs & new & Hrun & Hwrites).
    { cbn [heap]. by apply lookup_app_l_Some. }
    cbn [trace heap] in Hrun. rewrite Hrun.
    eexists out, ([EvAcquire; EvApiPut sz (strip_read_only o);
                   EvSleep (backoff (attemptNumber - 1))] ++ evs),
      (strip_read_only o :: new).
    split.
    { f_equal. f_equal; [|by rewrite <- app_assoc].
      by rewrite <- !app_assoc. }
    simpl. by constructor.
Qed.

End ZoneWrite.

(** C10. For every zone name and every zone object of the store,
    [updateZone] returns with a store that is the old one followed by new
    objects: no object that existed is changed, and the caller's zone
    object still has all its fields, the read-only ones included.  Every
    payload it transmits is the copy of that object without the fields
    [created], [updated], [owner], [updater] and [roid]. *)
Theorem C10_updateZone_leaves_zoneData (env : Env) (config : Config)
    (zoneName : string) (zoneData : loc) (o : Obj) (s : St) :
  heap s !! zoneData = Some o →
  ∃ out evs new,
    updateZone env config zoneName zoneData s
    = (out, {| trace := trace s ++ evs; heap := heap s ++ new |})
    ∧ (heap s ++ new) !! zoneData = Some o
    ∧ (∀ zone payload, (zone, payload) ∈ zone_writes evs →
         payload = strip_read_only o
         ∧ ∀ k, payload !! k
                = if bool_decide (k ∈ readOnlyFields) then None else o !! k).
Proof.
  intros Ho. unfold updateZone, bind, sanitize.
  destruct (Validators.sanitizeDomainName zoneName) as [sz|].
  - unfold ret. destruct (dryRun config).
    + exists (Val dry_run_response), [], []. rewrite !app_nil_r.
      destruct s; simpl in *. split; [done|]. split; [done|].
      intros zone payload Hin. by apply elem_of_nil in Hin.
    + destruct (put_attempts_run env sz zoneData o RETRIES 1 s Ho)
        as (out & evs & new & Hrun & Hwrites).
      exists out, evs, new. split; [exact Hrun|]. split.
      { by apply lookup_app_l_Some. }
      intros zone payload Hin.
      rewrite Forall_forall in Hwrites. specialize (Hwrites _ Hin).
      injection Hwrites as -> ->. split; [done|]. apply strip_read_only_lookup.
  - eexists _, [], []. unfold throw_error, throw. rewrite !app_nil_r.
    destruct s; simpl in *. split; [done|]. split; [done|].
    intros zone payload Hin. by apply elem_of_nil in Hin.
Qed.

(** A write of [plain_zone] to a provider that accepts it. *)
Lemma C10_updateZone_leaves_zoneData_witness :
  ∃ out evs new,
    updateZone plain_world production "example.com" 0%nat
               {| trace := []; heap := [plain_zone] |}
    = (out, {| trace := [] ++ evs; heap := [plain_zone] ++ new |})
    ∧ ([plain_zone] ++ new) !! 0%nat = Some plain_zone
    ∧ (∀ zone payload, (zone, payload) ∈ zone_writes evs →
         payload = strip_read_only plain_zone
         ∧ ∀ k, payload !! k
                = if bool_decide (k ∈ readOnlyFields) then None
                  else plain_zone !! k).
Proof.
  apply (C10_updateZone_leaves_zoneData plain_world production "example.com" 0%nat
           plain_zone {| trace := []; heap := [plain_zone] |}).
  reflexivity.
Defined.

Example updateZone_payload :
  let '(out, s) := updateZone plain_world production "Example.COM" 0%nat
                     {| trace := []; heap := [plain_zone] |} in
  (out, map fst (zone_writes (trace s)),
   map (fun zp => map fst (map_to_list (snd zp))) (zone_writes (trace s)),
   heap s !! 0%nat)
  = (Val {| resp_status := Some {| st_type := "SUCCESS"; st_text := "" |} |},
     ["example.com"], [["origin"; "soa"; "resourceRecords"]], Some plain_zone).
Proof. vm_compute. reflexivity. Qed.

(** ** The SPF reconciler and the apex alias *)

(** What a quiet computation did, read off one of its runs. *)
Lemma quiet_run {A} r K (m : M A) s o s1 :
  quiet r K m → m s = (o, s1) →
  ∃ evs, trace s1 = trace s ++ evs ∧ zone_writes evs = []
         ∧ (length (heap s) ≤ length (heap s1))%nat
         ∧ ((r < length (heap s))%nat →
            ∀ k, k ∈ K → default ∅ (heap s1 !! r) !! k = default ∅ (heap s !! r) !! k).
Proof.
  intros Hm Hrun. destruct (Hm s) as (o' & evs & h' & Hrun' & Hw & Hlen & Hkeep).
  rewrite Hrun in Hrun'. injection Hrun' as -> ->. exists evs. by repeat split.
Qed.

Lemma deref_some (r : loc) (o : Obj) s :
  heap s !! r = Some o → deref r s = (Val o, s).
Proof. intros Ho. unfold deref. by rewrite Ho. Qed.

(** C5. Where the zone that [getZone] fetched for the domain has a CNAME
    record at the apex (name [''] or ['@']), [updateDomainSPFRecord] throws
    the conflict error in the state the fetch left: after the fetch it
    makes no request and changes no object, and the fetch made no zone
    write. *)
Theorem C5_apex_cname_conflict (env : Env) (config : Config)
    (domainName spfValue : string) (s s1 : St) (zoneInfo : ZoneInfo)
    (zone : loc) (rest : list loc) (z : Obj) (rrs : list RR) (rr : RR) :
  getZone env domainName s = (Val zoneInfo, s1) →
  zi_data zoneInfo = Some (zone :: rest) →
  heap s1 !! zone = Some z →
  z !! "resourceRecords" = Some (FRecords rrs) →
  rr ∈ rrs → rr_type rr = "CNAME" → (rr_name rr = "" ∨ rr_name rr = "@") →
  updateDomainSPFRecord env config domainName spfValue s
  = (Exc (Plain (js_Error apex_cname_message)), s1)
  ∧ ∃ evs, trace s1 = trace s ++ evs ∧ zone_writes evs = [].
Proof.
  intros Hget Hdata Hzone Hrrs Hin Htype Hname. split.
  - unfold updateDomainSPFRecord, try_catch, bind. rewrite Hget.
    unfold first_zone. rewrite Hdata. unfold ret at 1.
    unfold ensure_records, bind. rewrite (deref_some zone z s1 Hzone).
    unfold records_view. rewrite Hrrs. unfold ret at 1.
    assert (existsb is_apex_cname rrs = true) as ->; [|done].
    apply existsb_exists. exists rr. split; [by apply list_elem_of_In|].
    unfold is_apex_cname, is_apex. rewrite Htype.
    by destruct Hname as [-> | ->].
  - destruct (quiet_run 0%nat [] _ _ _ _ (quiet_getZone env 0%nat [] domainName) Hget)
      as (evs & Htrace & Hw & _). eauto.
Qed.

(** The reconciler on a provider that serves a zone with an apex alias. *)
Lemma C5_apex_cname_conflict_witness :
  updateDomainSPFRecord aliased_world production "example.com"
                        (expectedSpf production) start
  = (Exc (Plain (js_Error apex_cname_message)),
     {| trace := [EvAcquire; EvApiGet "example.com"]; heap := [aliased_zone] |})
  ∧ ∃ evs, [EvAcquire; EvApiGet "example.com"] = [] ++ evs ∧ zone_writes evs = [].
Proof.
  apply (C5_apex_cname_conflict aliased_world production "example.com"
           (expectedSpf production) start
           {| trace := [EvAcquire; EvApiGet "example.com"]; heap := [aliased_zone] |}
           {| zi_status := Some {| st_type := "SUCCESS"; st_text := "" |};
              zi_data := Some [0%nat] |}
           0%nat [] aliased_zone
           [{| rr_name := ""; rr_type := "CNAME";
               rr_value := Some "target.example.net"; rr_ttl := 3600 |}]
           {| rr_name := ""; rr_type := "CNAME";
              rr_value := Some "target.example.net"; rr_ttl := 3600 |}).
  - vm_compute. reflexivity.
  - reflexivity.
  - reflexivity.
  - vm_compute. reflexivity.
  - by left.
  - reflexivity.
  - by left.
Defined.

(** Without the alias, the same call writes the zone once. *)
Example spf_reconciler_writes :
  let '(out, s) := updateDomainSPFRecord plain_world production "example.com"
                     (expectedSpf production) start in
  (out, map fst (zone_writes (trace s)))
  = (Val {| resp_status := Some {| st_type := "SUCCESS"; st_text := "" |} |},
     ["example.com"]).
Proof. vm_compute. reflexivity. Qed.

(** ** The DKIM check of a domain with nothing to publish *)

Lemma set_fields_dkim_skipped result s :
  (set_field result "dkimCheckConsole" (gray +:+ "-" +:+ reset) ;;;
   set_field result "dkimInfo" "DKIM: Skipped" ;;;
   set_field result "dkimStatus" "skipped") s
  = (Val tt, {| trace := trace s; heap := alter dkim_skipped result (heap s) |}).
Proof.
  unfold bind, set_field, modify. cbn [trace heap].
  by rewrite !list_alter_alter_eq.
Qed.

Lemma no_value_to_publish (entries : list (string * string)) :
  (∀ selector value, (selector, value) ∈ entries → Js.trim value = "") →
  existsb (fun kv => nonempty_value (snd kv)) entries = false.
Proof.
  intros Hempty. induction entries as [|[selector value] entries IH]; [done|].
  simpl. unfold nonempty_value at 1.
  rewrite (Hempty selector value) by (by left). rewrite andb_false_r. simpl.
  apply IH. intros sel v Hin. apply (Hempty sel v). by right.
Qed.

(** C9, as the code has it.  For a domain whose desired DKIM configuration
    has only selectors with empty values (empty once trimmed), the DKIM
    check sets the three
    DKIM fields of the result to the skipped values and does nothing else:
    it makes no request at all, so no DNS query and no zone write; and it
    does exactly what it does for a domain that has no entry in the
    configuration. *)
Theorem C9_dkim_skipped_silently (env : Env) (config : Config)
    (domainName : string) (dkimConfig : DkimConfig)
    (entries : list (string * string)) (result : loc) (s : St) :
  dkimConfig !! domainName = Some entries →
  (∀ selector value, (selector, value) ∈ entries → Js.trim value = "") →
  checkDKIMForDomain env config domainName dkimConfig result s
  = (Val tt, {| trace := trace s; heap := alter dkim_skipped result (heap s) |})
  ∧ dkim_skipped initial_result !! "dkimStatus" = Some (FStr "skipped")
  ∧ checkDKIMForDomain env config domainName (delete domainName dkimConfig) result s
    = checkDKIMForDomain env config domainName dkimConfig result s.
Proof.
  intros Hentries Hempty. split; [|split; [done|]].
  - unfold checkDKIMForDomain. rewrite Hentries. simpl (default _ _).
    rewrite (no_value_to_publish entries Hempty). cbn [negb].
    rewrite orb_true_r. apply set_fields_dkim_skipped.
  - unfold checkDKIMForDomain. rewrite Hentries, lookup_delete_eq. simpl (default _ _).
    rewrite (no_value_to_publish entries Hempty). cbn [negb length Nat.eqb orb].
    by rewrite orb_true_r.
Qed.

(** A domain with the default entry that the orchestrator adds. *)
Lemma C9_dkim_skipped_silently_witness :
  checkDKIMForDomain nowhere production "example.com"
    {["example.com" := [("default", "")]]} 0%nat
    {| trace := []; heap := [initial_result] |}
  = (Val tt, {| trace := []; heap := alter dkim_skipped 0%nat [initial_result] |})
  ∧ dkim_skipped initial_result !! "dkimStatus" = Some (FStr "skipped")
  ∧ checkDKIMForDomain nowhere production "example.com"
      (delete "example.com" {["example.com" := [("default", "")]]}) 0%nat
      {| trace := []; heap := [initial_result] |}
    = checkDKIMForDomain nowhere production "example.com"
        {["example.com" := [("default", "")]]} 0%nat
        {| trace := []; heap := [initial_result] |}.
Proof.
  apply (C9_dkim_skipped_silently nowhere production "example.com"
           {["example.com" := [("default", "")]]} [("default", "")] 0%nat
           {| trace := []; heap := [initial_result] |}).
  - apply lookup_singleton_eq.
  - intros selector value Hin. apply list_elem_of_singleton in Hin.
    by injection Hin as -> ->.
Defined.

(** C9, as stated, fails: the output for a domain whose only selector has
    an empty value cannot be told from the output for a domain without an
    entry. *)
Lemma C9_skipped_not_distinguishable :
  ¬ distinguishable
      (dkim_output nowhere production "example.com"
                   {["example.com" := [("default", "")]]})
      (dkim_output nowhere production "example.com" ∅).
Proof. intros Hdiff. apply Hdiff. vm_compute. reflexivity. Qed.

(** ** The domain that is not on the provider's name servers *)

(** A [try] whose handler returns always returns. *)
Lemma try_catch_returns {A} (m : M A) (h : Exn → M A) :
  (∀ x s, ∃ a s', h x s = (Val a, s')) →
  ∀ s, ∃ a s', try_catch m h s = (Val a, s').
Proof.
  intros Hh s. unfold try_catch. destruct (m s) as [[a|x] s1]; [eauto|apply Hh].
Qed.

Section NotOnProvider.
Context (env : Env) (config : Config).



Lemma quiet_getRecordsForDomain r K domainName result :
  "aDisplay" ∉ K → "aaaaDisplay" ∉ K → "mxDisplay" ∉ K →
  quiet r K (getRecordsForDomain env domainName result).
Proof.
  intros Ha Haaaa Hmx. unfold getRecordsForDomain. quiet_step;
    first [ apply quiet_getZone | apply quiet_getARecords
          | apply quiet_getAAAARecords | apply quiet_getMXRecords
          | by apply quiet_set_field ].
Qed.

Lemma quiet_addHealthChecks r K domainName result :
  "healthSummary" ∉ K →
  quiet r K (addHealthChecks env domainName result).
Proof.
  intros Hh. unfold addHealthChecks. quiet_step;
    first [ apply quiet_checkNS | apply quiet_checkSOA | apply quiet_checkCAA
          | apply quiet_checkMtaSts | apply quiet_checkTlsRpt
          | apply quiet_checkMXIntegrity | apply quiet_checkPTRForOutbound
          | by apply quiet_set_field ].
Qed.


End NotOnProvider.



Example not_on_provider_report :
  let '(out, s) := checkDomain elsewhere production "example.com" ∅ start in
  (out, field_of s 0 "spfStatus", field_of s 0 "dmarcStatus",
   field_of s 0 "dkimStatus", field_of s 0 "healthSummary",
   filter (fun ev => is_lookup ev = false) (trace s))
  = (Val 0%nat, not_autodns, not_autodns, not_autodns,
     "NS:fail; SOA:fail; CAA:ok; MTA:fail; TLS:fail; PTR:fail",
     [EvAcquire; EvApiGet "example.com"]).
Proof. vm_compute. reflexivity. Qed.

(** ** The DMARC update and the failure of its write *)

Section DmarcUpdate.
Context (env : Env) (config : Config).

(** The two calls of the DMARC update swallow every failure: each returns
    a boolean, [false] for a failure, and never throws. *)
Lemma updateDomainDMARCRecord_returns domainName dmarcValue s :
  ∃ ok s', updateDomainDMARCRecord env config domainName dmarcValue s = (Val ok, s').
Proof.
  unfold updateDomainDMARCRecord.
  match goal with
  | |- ∃ ok s', try_catch ?m ?h s = _ =>
      apply (try_catch_returns m h ltac:(by eexists _, _) s)
  end.
Qed.

Lemma addDMARCReportAuthRecord_returns domainName s :
  ∃ ok s', addDMARCReportAuthRecord env config domainName s = (Val ok, s').
Proof.
  unfold addDMARCReportAuthRecord.
  match goal with
  | |- ∃ ok s', try_catch ?m ?h s = _ =>
      apply (try_catch_returns m h ltac:(by eexists _, _) s)
  end.
Qed.

(** Whatever the two calls return, the update step marks the DMARC
    outcome as updated: the boolean of [updateDomainDMARCRecord] is not
    read, and the handler of the step is never entered. *)
Lemma dmarc_update_marks_updated domainName result dmarcCurrentValue s :
  ∃ authorised s1 written s2,
    addDMARCReportAuthRecord env config domainName s = (Val authorised, s1)
    ∧ updateDomainDMARCRecord env config domainName (expectedDmarc config) s1
      = (Val written, s2)
    ∧ dmarc_update env config domainName result true dmarcCurrentValue s
      = (Val tt, {| trace := trace s2;
                    heap := alter (dmarc_marked_updated dmarcCurrentValue) result
                                  (heap s2) |}).
Proof.
  destruct (addDMARCReportAuthRecord_returns domainName s) as (authorised & s1 & Hauth).
  destruct (updateDomainDMARCRecord_returns domainName (expectedDmarc config) s1)
    as (written & s2 & Hwrite).
  exists authorised, s1, written, s2. split; [done|]. split; [done|].
  unfold dmarc_update, try_catch, bind at 1. rewrite Hauth.
  unfold bind at 1. rewrite Hwrite.
  unfold bind, set_field, modify. cbn [trace heap].
  by rewrite !list_alter_alter_eq.
Qed.

End DmarcUpdate.

(** C8. In [rejecting_world] the DMARC record of [example.com] is absent,
    the reconciler reads the zone and sends the write, and the provider
    answers 400: [updateDomainDMARCRecord] returns [false].  The check of
    the domain runs to its end all the same, and the DMARC outcome it
    reports is the updated one, not an error. *)
Theorem C8_dmarc_write_failure_reported_updated :
  (∀ t payload, api_put_zone rejecting_world t "example.com" payload
                = Fail (http_error 400))
  ∧ fst (updateDomainDMARCRecord rejecting_world production "example.com"
           (expectedDmarc production) start) = Val false
  ∧ (let '(out, s) := checkDomain rejecting_world production "example.com"
                        {["example.com" := [("default", "")]]} start in
     (out, field_of s 0 "spfStatus", field_of s 0 "dmarcStatus",
      field_of s 0 "dkimStatus", field_of s 0 "healthSummary",
      map fst (zone_writes (trace s))))
    = (Val 0%nat, "ok", "ok - updated from " +:+ quoted "No DMARC record",
       "skipped", "NS:fail; SOA:fail; CAA:ok; MTA:fail; TLS:fail; PTR:fail",
       ["diebasis.de"; "example.com"]).
Proof. split; [done|]. split; vm_compute; reflexivity. Qed.

(* ===================================================================== *)
(** * Further properties *)
(* ===================================================================== *)

(** ** The token bucket under any schedule *)

Module LimiterSchedules.
Import Limiter.

(** From a state in which the bucket is empty while a caller waits, the
    callers resolved by a schedule followed by the callers left waiting
    are the callers that waited followed by the arrivals. *)
Lemma run_order ops : ∀ l,
  (queue l ≠ [] → tokens l = 0%nat) →
  snd (run ops l) ++ queue (fst (run ops l)) = queue l ++ arrivals ops.
Proof.
  induction ops as [|op ops IH]; intros l Hinv; simpl.
  - by rewrite app_nil_r.
  - destruct op as [c|]; simpl.
    + unfold rateLimitAutoDNS. destruct (tokens l) as [|n] eqn:Ht.
      * specialize (IH {| capacity := capacity l; tokens := 0;
                          queue := queue l ++ [c] |} ltac:(done)).
        destruct (run ops _) as [l2 r2]. simpl in *.
        by rewrite IH, <- app_assoc.
      * assert (queue l = []) as Hq.
        { destruct (queue l) eqn:Hq; [done|]. by discriminate Hinv. }
        destruct l as [cap t q]. simpl in *. subst t q.
        specialize (IH {| capacity := cap; tokens := n; queue := [] |} ltac:(done)).
        destruct (run ops _) as [l2 r2]. simpl in *. by rewrite IH.
    + rewrite LimiterProofs.refill_spec.
      specialize (IH {| capacity := capacity l;
                        tokens := (capacity l - length (firstn (capacity l) (queue l)))%nat;
                        queue := skipn (capacity l) (queue l) |}).
      simpl in IH.
      assert (drop (capacity l) (queue l) ≠ [] →
              (capacity l - length (take (capacity l) (queue l)))%nat = 0%nat) as Hinv'.
      { intros Hne. rewrite length_take.
        destruct (decide (length (queue l) ≤ capacity l)%nat) as [Hshort|]; [|lia].
        exfalso. apply Hne. by apply drop_ge. }
      specialize (IH Hinv').
      destruct (run ops _) as [l2 r2]. simpl in *.
      by rewrite <- app_assoc, IH, app_assoc, take_drop.
Qed.

(** Calls alone resolve no more callers than the bucket holds tokens. *)
Lemma calls_bounded cs : ∀ l,
  (length (snd (run (map Acquire cs) l)) ≤ tokens l)%nat.
Proof.
  induction cs as [|c cs IH]; intros l; simpl; [lia|].
  unfold rateLimitAutoDNS. destruct (tokens l) as [|n] eqn:Ht.
  - specialize (IH {| capacity := capacity l; tokens := 0; queue := queue l ++ [c] |}).
    destruct (run (map Acquire cs) _) as [l2 r2]. simpl in *. lia.
  - specialize (IH {| capacity := capacity l; tokens := n; queue := queue l |}).
    destruct (run (map Acquire cs) _) as [l2 r2]. simpl in *. lia.
Qed.

End LimiterSchedules.

(** X1. For every schedule of calls and ticks on the initial bucket, the
    callers resolved, in the order of their resolution, followed by the
    callers still waiting, are the callers in the order of their calls: no
    caller is lost, resolved twice or overtaken. *)
Theorem X1_limiter_serves_in_arrival_order (ops : list Limiter.Op) :
  snd (Limiter.run ops Limiter.autodnsRate)
    ++ Limiter.queue (fst (Limiter.run ops Limiter.autodnsRate))
  = arrivals ops.
Proof. by rewrite LimiterSchedules.run_order. Qed.

(** X2. From any state of the bucket, a tick and the calls that follow it
    until the next tick resolve at most [capacity] callers, the released
    ones included; and calls without a tick resolve at most as many
    callers as the bucket holds tokens. *)
Theorem X2_limiter_rate_bound (l : Limiter.RateLimiter) (cs : list nat) :
  (length (snd (Limiter.run (Limiter.Tick :: map Limiter.Acquire cs) l))
   ≤ Limiter.capacity l)%nat
  ∧ (length (snd (Limiter.run (map Limiter.Acquire cs) l)) ≤ Limiter.tokens l)%nat.
Proof.
  split; [|apply LimiterSchedules.calls_bounded].
  cbn [Limiter.run Limiter.step]. rewrite LimiterProofs.refill_spec.
  pose proof (LimiterSchedules.calls_bounded cs
    {| Limiter.capacity := Limiter.capacity l;
       Limiter.tokens := (Limiter.capacity l
                          - length (firstn (Limiter.capacity l) (Limiter.queue l)))%nat;
       Limiter.queue := skipn (Limiter.capacity l) (Limiter.queue l) |}) as Hcalls.
  destruct (Limiter.run (map Limiter.Acquire cs) _) as [l2 r2]. simpl in *.
  rewrite length_app, length_take in *. lia.
Qed.

(** ** Trimming and lower-casing *)

Module StringFacts.

Lemma chars_rev_app s1 : ∀ s2,
  list_ascii_of_string (String.rev_app s1 s2)
  = rev (list_ascii_of_string s1) ++ list_ascii_of_string s2.
Proof.
  induction s1 as [|c s1 IH]; intros s2; simpl; [done|].
  by rewrite IH, <- app_assoc.
Qed.

Lemma chars_rev s : list_ascii_of_string (String.rev s) = rev (list_ascii_of_string s).
Proof. unfold String.rev. by rewrite chars_rev_app, app_nil_r. Qed.

Lemma chars_inj s1 s2 : list_ascii_of_string s1 = list_ascii_of_string s2 → s1 = s2.
Proof.
  intros Heq. rewrite <- (string_of_list_ascii_of_string s1),
    <- (string_of_list_ascii_of_string s2). by rewrite Heq.
Qed.

Lemma rev_rev s : String.rev (String.rev s) = s.
Proof. apply chars_inj. by rewrite !chars_rev, rev_involutive. Qed.

Lemma chars_append s1 s2 :
  list_ascii_of_string (s1 +:+ s2) = list_ascii_of_string s1 ++ list_ascii_of_string s2.
Proof. induction s1 as [|c s1 IH]; simpl; [done|]. by rewrite IH. Qed.

Lemma rev_cons c t : String.rev (String c t) = String.rev t +:+ String c EmptyString.
Proof. apply chars_inj. rewrite chars_append, !chars_rev. reflexivity. Qed.

Lemma starts_clean_skip_ws s : starts_clean (Js.skip_ws s).
Proof.
  induction s as [|c t IH]; simpl; [done|].
  destruct (Js.is_ws c) eqn:Hc; [done|]. simpl. done.
Qed.

Lemma skip_ws_clean s : starts_clean s → Js.skip_ws s = s.
Proof. destruct s as [|c t]; simpl; [done|]. by intros ->. Qed.

Lemma starts_clean_rev_tail c t :
  starts_clean (String.rev (String c t)) → starts_clean (String.rev t).
Proof.
  rewrite rev_cons. destruct (String.rev t) as [|d u]; simpl; done.
Qed.

(** Dropping the white space in front leaves the end as it is. *)
Lemma starts_clean_rev_skip_ws b :
  starts_clean (String.rev b) → starts_clean (String.rev (Js.skip_ws b)).
Proof.
  induction b as [|c t IH]; simpl; [done|]. intros Hclean.
  destruct (Js.is_ws c); [|done].
  apply IH. by apply starts_clean_rev_tail in Hclean.
Qed.

Lemma starts_clean_trim s : starts_clean (Js.trim s).
Proof.
  unfold Js.trim. apply starts_clean_rev_skip_ws.
  rewrite rev_rev. apply starts_clean_skip_ws.
Qed.

Lemma trim_trim s : Js.trim (Js.trim s) = Js.trim s.
Proof.
  set (t := Js.trim s).
  change (String.rev (Js.skip_ws (String.rev (Js.skip_ws t))) = t).
  rewrite (skip_ws_clean t) by apply starts_clean_trim.
  subst t. unfold Js.trim. rewrite rev_rev.
  by rewrite (skip_ws_clean (Js.skip_ws _)) by apply starts_clean_skip_ws.
Qed.

Lemma lower_char_lower_char c : Js.lower_char (Js.lower_char c) = Js.lower_char c.
Proof. destruct c as [[] [] [] [] [] [] [] []]; vm_compute; reflexivity. Qed.

Lemma is_ws_lower_char c : Js.is_ws (Js.lower_char c) = Js.is_ws c.
Proof. destruct c as [[] [] [] [] [] [] [] []]; vm_compute; reflexivity. Qed.

Lemma toLowerCase_toLowerCase s : Js.toLowerCase (Js.toLowerCase s) = Js.toLowerCase s.
Proof.
  induction s as [|c t IH]; simpl; [done|]. by rewrite lower_char_lower_char, IH.
Qed.

Lemma toLowerCase_skip_ws s :
  Js.toLowerCase (Js.skip_ws s) = Js.skip_ws (Js.toLowerCase s).
Proof.
  induction s as [|c t IH]; simpl; [done|]. rewrite is_ws_lower_char.
  by destruct (Js.is_ws c).
Qed.

Lemma toLowerCase_rev_app s1 : ∀ s2,
  Js.toLowerCase (String.rev_app s1 s2)
  = String.rev_app (Js.toLowerCase s1) (Js.toLowerCase s2).
Proof. induction s1 as [|c t IH]; intros s2; simpl; [done|]. by rewrite IH. Qed.

Lemma toLowerCase_rev s : Js.toLowerCase (String.rev s) = String.rev (Js.toLowerCase s).
Proof. apply toLowerCase_rev_app. Qed.

Lemma toLowerCase_trim s : Js.toLowerCase (Js.trim s) = Js.trim (Js.toLowerCase s).
Proof.
  unfold Js.trim.
  by rewrite toLowerCase_rev, toLowerCase_skip_ws, toLowerCase_rev, toLowerCase_skip_ws.
Qed.

End StringFacts.

(** X3. A name that [sanitizeDomainName] accepts is turned into a valid
    domain name, and sanitizing that name again returns it unchanged. *)
Theorem X3_sanitizeDomainName_idempotent (domain sanitized : string) :
  Validators.sanitizeDomainName domain = Some sanitized →
  Validators.isValidDomainName sanitized = true
  ∧ Validators.sanitizeDomainName sanitized = Some sanitized.
Proof.
  unfold Validators.sanitizeDomainName.
  destruct (Validators.isValidDomainName (Js.trim (Js.toLowerCase domain))) eqn:Hvalid;
    [|done].
  intros [= <-]. split; [done|].
  rewrite StringFacts.toLowerCase_trim, StringFacts.toLowerCase_toLowerCase,
    StringFacts.trim_trim.
  by rewrite Hvalid.
Qed.

(** The name of the examples of the source. *)
Lemma X3_sanitizeDomainName_idempotent_witness :
  Validators.isValidDomainName "example.com" = true
  ∧ Validators.sanitizeDomainName "example.com" = Some "example.com".
Proof.
  apply (X3_sanitizeDomainName_idempotent " EXAMPLE.COM " "example.com").
  vm_compute. reflexivity.
Defined.

(** ** The requests of a computation *)

Section Emits.
Context (P : Event → Prop).

Lemma emits_ret {A} (a : A) : emits P (ret a).
Proof.
  intros s. exists (Val a), [], (heap s). unfold ret. rewrite app_nil_r.
  destruct s; simpl. by split.
Qed.

Lemma emits_throw {A} (x : Exn) : emits P (throw x : M A).
Proof.
  intros s. exists (Exc x), [], (heap s). unfold throw. rewrite app_nil_r.
  destruct s; simpl. by split.
Qed.

Lemma emits_throw_error {A} msg : emits P (throw_error msg : M A).
Proof. apply emits_throw. Qed.

Lemma emits_then {A B} (m : M A) (k : Outcome A → M B) :
  emits P m → (∀ o, emits P (k o)) →
  emits P (fun s => let '(o, s1) := m s in k o s1).
Proof.
  intros Hm Hk s.
  destruct (Hm s) as (o & evs & h1 & -> & Hevs).
  destruct (Hk o {| trace := trace s ++ evs; heap := h1 |})
    as (o2 & evs2 & h2 & -> & Hevs2).
  exists o2, (evs ++ evs2), h2. cbn [trace heap] in *.
  rewrite app_assoc. split; [done|]. by apply Forall_app.
Qed.

Lemma emits_ext {A} (m m' : M A) :
  (∀ s, m' s = m s) → emits P m → emits P m'.
Proof. intros Heq Hm s. rewrite Heq. apply Hm. Qed.

Lemma emits_bind {A B} (m : M A) (k : A → M B) :
  emits P m → (∀ a, emits P (k a)) → emits P (bind m k).
Proof.
  intros Hm Hk.
  apply (emits_ext (fun s => let '(o, s1) := m s in
                             match o with Val a => k a | Exc x => throw x end s1)).
  { intros s. unfold bind. by destruct (m s) as [[a|x] s1]. }
  apply emits_then; [done|]. intros [a|x]; [apply Hk|apply emits_throw].
Qed.

Lemma emits_try_catch {A} (m : M A) (h : Exn → M A) :
  emits P m → (∀ x, emits P (h x)) → emits P (try_catch m h).
Proof.
  intros Hm Hh.
  apply (emits_ext (fun s => let '(o, s1) := m s in
                             match o with Val a => ret a | Exc x => h x end s1)).
  { intros s. unfold try_catch. by destruct (m s) as [[a|x] s1]. }
  apply emits_then; [done|]. intros [a|x]; [apply emits_ret|apply Hh].
Qed.

Lemma emits_request {A} ev (answer : Trace → Reply A) :
  P ev → emits P (request ev answer).
Proof.
  intros Hev s. unfold request.
  destruct (answer (trace s)); eexists _, [ev], (heap s); split; by repeat constructor.
Qed.

Lemma emits_emit ev : P ev → emits P (emit ev).
Proof. intros Hev s. eexists _, [ev], (heap s). split; by repeat constructor. Qed.

Lemma emits_alloc (o : Obj) : emits P (alloc o).
Proof.
  intros s. eexists _, [], (heap s ++ [o]). unfold alloc. rewrite app_nil_r.
  by split.
Qed.

Lemma emits_deref (r : loc) : emits P (deref r).
Proof.
  intros s. exists (Val (default ∅ (heap s !! r))), [], (heap s).
  unfold deref. rewrite app_nil_r. destruct s; simpl. by split.
Qed.

Lemma emits_modify (r : loc) (f : Obj → Obj) : emits P (modify r f).
Proof.
  intros s. eexists _, [], (alter f r (heap s)). unfold modify.
  rewrite app_nil_r. by split.
Qed.

Lemma emits_set_field (r : loc) field v : emits P (set_field r field v).
Proof. apply emits_modify. Qed.

Lemma emits_get_field (r : loc) field : emits P (get_field r field).
Proof. apply emits_bind; [apply emits_deref|]. intros o. apply emits_ret. Qed.

Lemma emits_mapM {A B} (f : A → M B) (xs : list A) :
  (∀ x, emits P (f x)) → emits P (mapM f xs).
Proof.
  intros Hf. induction xs as [|x xs IH]; simpl; [apply emits_ret|].
  apply emits_bind; [apply Hf|]. intros y.
  apply emits_bind; [apply IH|]. intros ys. apply emits_ret.
Qed.

Lemma emits_pRetry_from {A} (input : nat → M A) retriesLeft : ∀ attemptNumber,
  (∀ ms, P (EvSleep ms)) →
  (∀ n, emits P (input n)) → emits P (pRetry_from input attemptNumber retriesLeft).
Proof.
  induction retriesLeft as [|n IH]; intros attemptNumber Hsleep Hinput.
  - apply (emits_ext (fun s => let '(o, s1) := input attemptNumber s in
                               match o with
                               | Val a => ret a
                               | Exc x => throw (Plain (original x))
                               end s1)).
    { intros s. simpl. by destruct (input attemptNumber s) as [[a|[e|e]] s1]. }
    apply emits_then; [apply Hinput|].
    intros [a|x]; [apply emits_ret|apply emits_throw].
  - apply (emits_ext (fun s => let '(o, s1) := input attemptNumber s in
                               match o with
                               | Val a => ret a
                               | Exc (AbortError e) => throw (Plain e)
                               | Exc (Plain e) =>
                                   emit (EvSleep (backoff (attemptNumber - 1))) ;;;
                                   pRetry_from input (S attemptNumber) n
                               end s1)).
    { intros s. simpl. by destruct (input attemptNumber s) as [[a|[e|e]] s1]. }
    apply emits_then; [apply Hinput|].
    intros [a|[e|e]]; [apply emits_ret| |apply emits_throw].
    apply emits_bind; [by apply emits_emit|]. intros _. by apply IH.
Qed.

Lemma emits_classify {A} (x : Exn) : emits P (classify x : M A).
Proof. unfold classify. destruct (negb _); apply emits_throw. Qed.

Lemma emits_attempt {A} (body : M A) :
  P EvAcquire → emits P body → emits P (attempt body).
Proof.
  intros Hacq Hbody. apply emits_bind; [by apply emits_emit|]. intros _.
  apply emits_try_catch; [done|]. intros x. apply emits_classify.
Qed.

Lemma emits_sanitize zoneName : emits P (sanitize zoneName).
Proof.
  unfold sanitize. destruct (Validators.sanitizeDomainName zoneName);
    [apply emits_ret|apply emits_throw].
Qed.

Lemma emits_parse_zone_body b : emits P (parse_zone_body b).
Proof.
  unfold parse_zone_body. destruct (zb_data b); [|apply emits_ret].
  apply emits_bind; [apply emits_mapM, emits_alloc|]. intros refs. apply emits_ret.
Qed.

Lemma emits_first_zone zoneInfo : emits P (first_zone zoneInfo).
Proof.
  unfold first_zone. destruct (zi_data zoneInfo) as [[|zone zones]|];
    first [apply emits_ret | apply emits_throw_error].
Qed.

Lemma emits_ensure_records use zone : emits P (ensure_records use zone).
Proof.
  unfold ensure_records. apply emits_bind; [apply emits_deref|]. intros z.
  destruct (records_view z); [|apply emits_ret|apply emits_throw_error].
  apply emits_bind; [apply emits_modify|]. intros _. apply emits_ret.
Qed.

Lemma emits_iter_records zone : emits P (iter_records zone).
Proof.
  unfold iter_records.
  repeat lazymatch goal with
         | |- emits _ (ret _) => apply emits_ret
         | |- emits _ (throw_error _) => apply emits_throw_error
         | |- emits _ (if ?b then _ else _) => destruct b
         | |- emits _ (match ?x with _ => _ end) => destruct x
         end.
Qed.

End Emits.

Lemma emits_weaken {A} (P Q : Event → Prop) (m : M A) :
  (∀ ev, P ev → Q ev) → emits P m → emits Q m.
Proof.
  intros HPQ Hm s. destruct (Hm s) as (o & evs & h' & Hrun & Hevs).
  exists o, evs, h'. split; [done|]. by eapply Forall_impl.
Qed.

(** What a run of such a computation adds to the trace. *)
Lemma emits_run {A} P (m : M A) s o s1 :
  emits P m → m s = (o, s1) → ∃ evs, trace s1 = trace s ++ evs ∧ Forall P evs.
Proof.
  intros Hm Hrun. destruct (Hm s) as (o' & evs & h' & Hrun' & Hevs).
  rewrite Hrun in Hrun'. injection Hrun' as -> ->. by exists evs.
Qed.

(** Break a goal on the requests of a computation along its structure;
    [side] settles that a request is an allowed one. *)
Ltac emits_step side :=
  repeat first
    [ progress intros
    | lazymatch goal with
      | |- emits _ (ret _) => apply emits_ret
      | |- emits _ (throw _) => apply emits_throw
      | |- emits _ (throw_error _) => apply emits_throw_error
      | |- emits _ (deref _) => apply emits_deref
      | |- emits _ (alloc _) => apply emits_alloc
      | |- emits _ (modify _ _) => apply emits_modify
      | |- emits _ (set_field _ _ _) => apply emits_set_field
      | |- emits _ (get_field _ _) => apply emits_get_field
      | |- emits _ (sanitize _) => apply emits_sanitize
      | |- emits _ (classify _) => apply emits_classify
      | |- emits _ (parse_zone_body _) => apply emits_parse_zone_body
      | |- emits _ (first_zone _) => apply emits_first_zone
      | |- emits _ (ensure_records _ _) => apply emits_ensure_records
      | |- emits _ (iter_records _) => apply emits_iter_records
      | |- emits _ (bind _ _) => apply emits_bind
      | |- emits _ (try_catch _ _) => apply emits_try_catch
      | |- emits _ (attempt _) => apply emits_attempt; [side|]
      | |- emits _ (mapM _ _) => apply emits_mapM
      | |- emits _ (pRetry_from _ _ _) => apply emits_pRetry_from; [side|]
      | |- emits _ (request _ _) => apply emits_request; side
      | |- emits _ (emit _) => apply emits_emit; side
      | |- emits _ (if ?b then _ else _) => destruct b
      | |- emits _ (match ?x with _ => _ end) => destruct x
      end ].

(** ** The API client: names and requests *)

Lemma sanitize_invalid zoneName s :
  Validators.sanitizeDomainName zoneName = None →
  sanitize zoneName s
  = (Exc (Plain (js_Error ("Invalid domain name: " +:+ zoneName))), s).
Proof. intros Hname. unfold sanitize. by rewrite Hname. Qed.

Lemma sanitize_valid zoneName z s :
  Validators.sanitizeDomainName zoneName = Some z → sanitize zoneName s = (Val z, s).
Proof. intros Hname. unfold sanitize. by rewrite Hname. Qed.

Lemma zone_read_no_write zoneName ev : zone_read_event zoneName ev → no_write ev.
Proof. by destruct ev. Qed.

Lemma lookup_no_write ev : lookup_event ev → no_write ev.
Proof. by destruct ev. Qed.

Section ClientRequests.
Context (env : Env) (config : Config).

Lemma emits_after_sanitize {A} P zoneName (k : string → M A) :
  (∀ z, Validators.sanitizeDomainName zoneName = Some z → emits P (k z)) →
  emits P (bind (sanitize zoneName) k).
Proof.
  intros Hk. destruct (Validators.sanitizeDomainName zoneName) as [z|] eqn:Hname.
  - apply (emits_ext P (k z)); [|by apply Hk].
    intros s. unfold bind. by rewrite (sanitize_valid _ _ _ Hname).
  - apply (emits_ext P (throw (Plain (js_Error ("Invalid domain name: " +:+ zoneName))))).
    + intros s. unfold bind. by rewrite (sanitize_invalid _ _ Hname).
    + apply emits_throw.
Qed.

Lemma getZone_requests zoneName :
  emits (zone_read_event zoneName) (getZone env zoneName).
Proof.
  unfold getZone. apply emits_after_sanitize. intros z Hname.
  unfold pRetry. emits_step ltac:(by simpl).
Qed.

Lemma getZone_no_write zoneName : emits no_write (getZone env zoneName).
Proof.
  eapply emits_weaken; [apply zone_read_no_write|apply getZone_requests].
Qed.

Lemma updateZone_dry_run zoneName zoneData :
  dryRun config = true → emits no_write (updateZone env config zoneName zoneData).
Proof.
  intros Hdry. unfold updateZone. rewrite Hdry. emits_step ltac:(exact I).
Qed.

End ClientRequests.

(** X4. A zone name that is not a valid domain name is rejected by
    [getZone] and by [updateZone] before anything happens: no token is
    taken, no request is sent, and the error names the value passed. *)
Theorem X4_invalid_zone_name_sends_nothing (env : Env) (config : Config)
    (zoneName : string) (zoneData : loc) (s : St) :
  Validators.sanitizeDomainName zoneName = None →
  getZone env zoneName s
  = (Exc (Plain (js_Error ("Invalid domain name: " +:+ zoneName))), s)
  ∧ updateZone env config zoneName zoneData s
    = (Exc (Plain (js_Error ("Invalid domain name: " +:+ zoneName))), s).
Proof.
  intros Hname. unfold getZone, updateZone, bind.
  by rewrite (sanitize_invalid _ _ Hname).
Qed.

(** A name with a space in it, in the production configuration. *)
Lemma X4_invalid_zone_name_sends_nothing_witness :
  getZone plain_world "exa mple.com" start
  = (Exc (Plain (js_Error "Invalid domain name: exa mple.com")), start)
  ∧ updateZone plain_world production "exa mple.com" 0%nat start
    = (Exc (Plain (js_Error "Invalid domain name: exa mple.com")), start).
Proof.
  apply (X4_invalid_zone_name_sends_nothing plain_world production
           "exa mple.com" 0%nat start).
  vm_compute. reflexivity.
Defined.

(** X5. Whatever the server answers and however often the read is retried,
    [getZone] asks only for the zone of the sanitized name: its requests
    are tokens of the limiter, pauses, and GETs of that one zone. *)
Theorem X5_getZone_reads_only_its_zone (env : Env) (zoneName : string) :
  emits (zone_read_event zoneName) (getZone env zoneName).
Proof. apply getZone_requests. Qed.

(** ** The health checks only look things up *)

Section Lookups.
Context (env : Env).

Lemma lookups_or_empty {A} (m : M (list A)) :
  emits lookup_event m → emits lookup_event (or_empty m).
Proof. intros Hm. unfold or_empty. emits_step ltac:(reflexivity). done. Qed.

Lemma lookups_nsHostsResolvable_from nsHosts : ∀ ok,
  emits lookup_event (nsHostsResolvable_from env ok nsHosts).
Proof.
  induction nsHosts as [|host rest IH]; intros ok; simpl.
  - apply emits_ret.
  - unfold or_empty, resolve4, resolve6. emits_step ltac:(reflexivity). apply IH.
Qed.

Lemma lookups_mx_targets_resolvable mxHosts : ∀ ok,
  emits lookup_event (mx_targets_resolvable env ok mxHosts).
Proof.
  induction mxHosts as [|host rest IH]; intros ok; simpl.
  - apply emits_ret.
  - unfold or_empty, resolve4, resolve6. emits_step ltac:(reflexivity). apply IH.
Qed.

Lemma lookups_checkNS domain : emits lookup_event (checkNS env domain).
Proof.
  unfold checkNS, nsHostsResolvable, resolveNs. emits_step ltac:(reflexivity).
  apply lookups_nsHostsResolvable_from.
Qed.

Lemma lookups_checkSOA domain : emits lookup_event (checkSOA env domain).
Proof. unfold checkSOA, resolveSoa. emits_step ltac:(reflexivity). Qed.

Lemma lookups_checkCAA domain : emits lookup_event (checkCAA env domain).
Proof. unfold checkCAA, or_empty, resolveCaa. emits_step ltac:(reflexivity). Qed.

Lemma lookups_checkMtaSts domain : emits lookup_event (checkMtaSts env domain).
Proof.
  unfold checkMtaSts, safeResolveTxt, resolveTxt. emits_step ltac:(reflexivity).
Qed.

Lemma lookups_checkTlsRpt domain : emits lookup_event (checkTlsRpt env domain).
Proof.
  unfold checkTlsRpt, safeResolveTxt, resolveTxt. emits_step ltac:(reflexivity).
Qed.

Lemma lookups_checkPTRForOutbound mxHost :
  emits lookup_event (checkPTRForOutbound env mxHost).
Proof.
  unfold checkPTRForOutbound, or_empty, resolve4, resolve6, reversePtr.
  emits_step ltac:(reflexivity).
Qed.

Lemma lookups_checkMXIntegrity domain mxHosts :
  emits lookup_event (checkMXIntegrity env domain mxHosts).
Proof.
  unfold checkMXIntegrity. emits_step ltac:(reflexivity).
  apply lookups_mx_targets_resolvable.
Qed.

Lemma lookups_addHealthChecks domainName result :
  emits lookup_event (addHealthChecks env domainName result).
Proof.
  unfold addHealthChecks. emits_step ltac:(reflexivity);
    first [ apply lookups_checkNS | apply lookups_checkSOA | apply lookups_checkCAA
          | apply lookups_checkMtaSts | apply lookups_checkTlsRpt
          | apply lookups_checkMXIntegrity | apply lookups_checkPTRForOutbound ].
Qed.

End Lookups.

(** X6. The health checks of a domain talk to the resolver and to the
    policy host only: whatever the answers are, every request of
    [addHealthChecks] is a DNS lookup or an HTTPS fetch; it takes no token
    of the limiter and calls the provider's API neither to read nor to
    write. *)
Theorem X6_health_checks_only_look_up (env : Env) (domainName : string)
    (result : loc) :
  emits lookup_event (addHealthChecks env domainName result).
Proof. apply lookups_addHealthChecks. Qed.

(** ** Dry-run mode *)

(** [quiet_step], and the changes of objects when no field is watched. *)
Ltac still_step :=
  repeat first
    [ progress intros
    | lazymatch goal with
      | |- quiet _ _ (ret _) => apply quiet_ret
      | |- quiet _ _ (throw _) => apply quiet_throw
      | |- quiet _ _ (throw_error _) => apply quiet_throw_error
      | |- quiet _ _ (deref _) => apply quiet_deref
      | |- quiet _ _ (alloc _) => apply quiet_alloc
      | |- quiet _ _ (get_field _ _) => apply quiet_get_field
      | |- quiet _ [] (set_field _ _ _) => apply quiet_set_field, not_elem_of_nil
      | |- quiet _ [] (modify _ _) =>
          apply quiet_modify; intros ? ? ?; exfalso; eapply not_elem_of_nil; eassumption
      | |- quiet _ _ (sanitize _) => apply quiet_sanitize
      | |- quiet _ _ (classify _) => apply quiet_classify
      | |- quiet _ _ (getZone _ _) => apply quiet_getZone
      | |- quiet _ _ (iter_records _) => apply quiet_iter_records
      | |- quiet _ _ (resolveTxt _ _) => apply quiet_resolveTxt
      | |- quiet _ _ (bind _ _) => apply quiet_bind
      | |- quiet _ _ (try_catch _ _) => apply quiet_try_catch
      | |- quiet _ _ (attempt _) => apply quiet_attempt
      | |- quiet _ _ (mapM _ _) => apply quiet_mapM
      | |- quiet _ _ (pRetry_from _ _ _) => apply quiet_pRetry_from
      | |- quiet _ _ (request _ _) => apply quiet_request; reflexivity
      | |- quiet _ _ (emit _) => apply quiet_emit; reflexivity
      | |- quiet _ _ (if ?b then _ else _) => destruct b
      | |- quiet _ _ (match ?x with _ => _ end) => destruct x
      end ].

Section DryRun.
Context (env : Env) (config : Config) (r : loc).
Hypothesis dry : dryRun config = true.

Lemma quiet_first_zone zoneInfo : quiet r [] (first_zone zoneInfo).
Proof. unfold first_zone. still_step. Qed.

Lemma quiet_ensure_records use zone : quiet r [] (ensure_records use zone).
Proof. unfold ensure_records. still_step. Qed.

Lemma quiet_updateZone_dry zoneName zoneData :
  quiet r [] (updateZone env config zoneName zoneData).
Proof. unfold updateZone. rewrite dry. still_step. Qed.

Lemma quiet_updateDomainSPFRecord domainName spfValue :
  quiet r [] (updateDomainSPFRecord env config domainName spfValue).
Proof.
  unfold updateDomainSPFRecord. still_step;
    first [ apply quiet_first_zone | apply quiet_ensure_records
          | apply quiet_updateZone_dry ].
Qed.

Lemma quiet_updateDiebasisSPFRecord recordName spfValue :
  quiet r [] (updateDiebasisSPFRecord env config recordName spfValue).
Proof.
  unfold updateDiebasisSPFRecord. still_step;
    first [ apply quiet_first_zone | apply quiet_ensure_records
          | apply quiet_updateZone_dry ].
Qed.

Lemma quiet_updateDomainDMARCRecord domainName dmarcValue :
  quiet r [] (updateDomainDMARCRecord env config domainName dmarcValue).
Proof.
  unfold updateDomainDMARCRecord. still_step;
    first [ apply quiet_first_zone | apply quiet_ensure_records
          | apply quiet_updateZone_dry ].
Qed.

Lemma quiet_addDMARCReportAuthRecord domainName :
  quiet r [] (addDMARCReportAuthRecord env config domainName).
Proof.
  unfold addDMARCReportAuthRecord. still_step;
    first [ apply quiet_first_zone | apply quiet_ensure_records
          | apply quiet_updateZone_dry ].
Qed.

Lemma quiet_updateDomainDKIMRecord domainName selector dkimValue :
  quiet r [] (updateDomainDKIMRecord env config domainName selector dkimValue).
Proof.
  unfold updateDomainDKIMRecord. still_step;
    first [ apply quiet_first_zone | apply quiet_ensure_records
          | apply quiet_updateZone_dry ].
Qed.

Lemma quiet_listZoneDKIMRecords domainName :
  quiet r [] (listZoneDKIMRecords env domainName).
Proof. unfold listZoneDKIMRecords. still_step. Qed.

Lemma quiet_checkDKIMRecords domainName :
  quiet r [] (checkDKIMRecords env config domainName).
Proof. unfold checkDKIMRecords, check_selector. still_step. Qed.

Lemma quiet_getSPFRecord domain : quiet r [] (getSPFRecord env domain).
Proof. unfold getSPFRecord. still_step. Qed.

Lemma quiet_getDMARCRecord domain : quiet r [] (getDMARCRecord env domain).
Proof. unfold getDMARCRecord. still_step. Qed.

Lemma quiet_race_timeout {A} ms msg (m : M A) :
  quiet r [] m → quiet r [] (race_timeout env ms msg m).
Proof.
  intros Hm. unfold race_timeout.
  apply (quiet_then r [] m
           (fun o s1 =>
              if timer_wins env (trace s1 ++ [EvTimer ms])
              then (Exc (Plain (js_Error msg)),
                    {| trace := trace s1 ++ [EvTimer ms]; heap := heap s1 |})
              else (o, {| trace := trace s1 ++ [EvTimer ms]; heap := heap s1 |})));
    [done|].
  intros o s. exists (if timer_wins env (trace s ++ [EvTimer ms])
                      then Exc (Plain (js_Error msg)) else o), [EvTimer ms], (heap s).
  split; [by destruct (timer_wins env _)|]. by repeat split.
Qed.

Lemma quiet_reconcile_selectors domainName dkimResults entries result :
  quiet r [] (reconcile_selectors env config domainName dkimResults entries result).
Proof.
  induction entries as [|[selector desiredValue] rest IH]; simpl.
  - apply quiet_ret.
  - still_step; first [apply quiet_updateDomainDKIMRecord | apply IH].
Qed.

Lemma quiet_checkDKIMForDomain domainName dkimConfig result :
  quiet r [] (checkDKIMForDomain env config domainName dkimConfig result).
Proof.
  unfold checkDKIMForDomain. cbv zeta. still_step;
    first [ apply quiet_checkDKIMRecords | apply quiet_listZoneDKIMRecords
          | apply quiet_reconcile_selectors ].
Qed.

Lemma quiet_spf_query domainName result :
  quiet r [] (spf_query env config domainName result).
Proof.
  unfold spf_query. still_step. apply quiet_race_timeout, quiet_getSPFRecord.
Qed.

Lemma quiet_dmarc_query domainName result :
  quiet r [] (dmarc_query env config domainName result).
Proof. unfold dmarc_query. cbv zeta. still_step. apply quiet_getDMARCRecord. Qed.

Lemma quiet_spf_update domainName result spfNeedsUpdate spfCurrentValue :
  quiet r [] (spf_update env config domainName result spfNeedsUpdate spfCurrentValue).
Proof. unfold spf_update. still_step. apply quiet_updateDomainSPFRecord. Qed.

Lemma quiet_dmarc_update domainName result dmarcNeedsUpdate dmarcCurrentValue :
  quiet r [] (dmarc_update env config domainName result dmarcNeedsUpdate
                dmarcCurrentValue).
Proof.
  unfold dmarc_update. still_step;
    first [apply quiet_addDMARCReportAuthRecord | apply quiet_updateDomainDMARCRecord].
Qed.

Lemma quiet_fatal result error : quiet r [] (fatal result error).
Proof. unfold fatal. cbv zeta. still_step. Qed.

Lemma quiet_checkDomain_dry domainName dkimConfig :
  quiet r [] (checkDomain env config domainName dkimConfig).
Proof.
  unfold checkDomain. still_step;
    first [ apply quiet_usesAutoDNSNameservers
          | apply quiet_getRecordsForDomain; apply not_elem_of_nil
          | apply quiet_addHealthChecks; apply not_elem_of_nil
          | apply quiet_spf_query | apply quiet_dmarc_query
          | apply quiet_checkDKIMForDomain | apply quiet_spf_update
          | apply quiet_dmarc_update | apply quiet_fatal ].
Qed.

End DryRun.

Lemma zone_writes_app evs1 evs2 :
  zone_writes (evs1 ++ evs2) = zone_writes evs1 ++ zone_writes evs2.
Proof. unfold zone_writes. apply omap_app. Qed.

(** X7. In dry-run mode the check of a domain changes nothing at the
    provider: whatever the resolver and the API answer, whatever the SPF,
    DMARC and DKIM records are, [checkDomain] sends no PUT of a zone. *)
Theorem X7_dry_run_writes_nothing (env : Env) (config : Config)
    (domainName : string) (dkimConfig : DkimConfig) (s : St) :
  dryRun config = true →
  zone_writes (trace (snd (checkDomain env config domainName dkimConfig s)))
  = zone_writes (trace s).
Proof.
  intros Hdry.
  destruct (quiet_checkDomain_dry env config 0%nat Hdry domainName dkimConfig s)
    as (o & evs & h' & -> & Hwrites & _).
  cbn [snd trace]. by rewrite zone_writes_app, Hwrites, app_nil_r.
Qed.

(** A domain on the provider's name servers that has no DMARC record,
    checked with the production configuration switched to dry-run. *)
Lemma X7_dry_run_writes_nothing_witness :
  zone_writes
    (trace (snd (checkDomain rejecting_world rehearsal "example.com" ∅ start)))
  = zone_writes (trace start).
Proof.
  apply (X7_dry_run_writes_nothing rejecting_world rehearsal "example.com" ∅ start).
  reflexivity.
Defined.

(** ** The SPF lookup and the resolver *)

Section SpfFacts.
Context (env : Env).

Lemma head_filter_holds (p : string → bool) (xs : list string) r :
  head (filter (fun x => p x = true) xs) = Some r → p r = true.
Proof.
  intros Hhead. apply head_Some_elem_of in Hhead.
  by apply list_elem_of_filter in Hhead as [? _].
Qed.

Lemma head_filter_none (p : string → bool) (xs : list string) :
  head (filter (fun x => p x = true) xs) = None → Forall (fun x => p x = false) xs.
Proof.
  intros Hhead. apply head_None in Hhead. apply Forall_forall. intros x Hx.
  destruct (p x) eqn:Hp; [|done].
  assert (x ∈ filter (fun x => p x = true) xs) as Hin by by apply list_elem_of_filter.
  rewrite Hhead in Hin. by apply elem_of_nil in Hin.
Qed.

Lemma ips_flat (tag : string) (ips : list string) :
  tag = "ip4:" ∨ tag = "ip6:" →
  Forall flat_term (map (fun ip => tag +:+ ip) ips).
Proof.
  intros Htag. apply Forall_forall. intros m Hm.
  apply list_elem_of_fmap in Hm as (ip & -> & _).
  destruct Htag as [-> | ->]; by split.
Qed.

Lemma resolveHostToIPs_flat hostname s ips s1 :
  resolveHostToIPs env hostname s = (Val ips, s1) → Forall flat_term ips.
Proof.
  unfold resolveHostToIPs, try_catch, bind, resolve4, resolve6, request, ret.
  destruct (dns_a env (trace s) hostname) as [v4|e4]; simpl;
    destruct (dns_aaaa env _ hostname) as [v6|e6]; simpl;
    intros [= <- _]; rewrite ?app_nil_r; try apply Forall_app_2;
    try (apply ips_flat; auto); by apply Forall_nil.
Qed.

Lemma mx_hosts_to_ips_flat mxRecords : ∀ ips s ips' s1,
  Forall flat_term ips →
  mx_hosts_to_ips env mxRecords ips s = (Val ips', s1) → Forall flat_term ips'.
Proof.
  induction mxRecords as [|mx rest IH]; intros ips s ips' s1 Hips; simpl.
  - by intros [= <- _].
  - destruct (resolveHostToIPs env (mx_exchange mx) s) as [[mxIps|x] s2] eqn:Hhost.
    + apply IH. apply Forall_app_2; [done|]. by eapply resolveHostToIPs_flat.
    + by intros [= <- _].
Qed.

Lemma resolveMxToIPs_flat domain s ips s1 :
  resolveMxToIPs env domain s = (Val ips, s1) → Forall flat_term ips.
Proof.
  unfold resolveMxToIPs.
  destruct (resolveMx env domain s) as [[mxRecords|x] s2].
  - by apply mx_hosts_to_ips_flat.
  - by intros [= <- _].
Qed.

(** The loop keeps the terms it has filed flat. *)
Lemma resolve_parts_flat (self : Resolver) parts :
  (∀ rec vis d s r vis' s', self rec vis d s = Some (r, vis', s') → flat_result r) →
  ∀ mechs mods visited depth s r vis' s',
    Forall flat_term mechs →
    Forall (fun m => is_modifier_term m = true) mods →
    resolve_parts env self parts mechs mods visited depth s = Some (r, vis', s') →
    flat_result r.
Proof.
  intros Hself.
  induction parts as [|part rest IH]; intros mechs mods visited depth s r vis' s'
    Hmechs Hmods; cbn [resolve_parts].
  { by intros [= <- _ _]. }
  destruct (String.eqb part "v=spf1") eqn:Hversion; [by apply IH|].
  apply String.eqb_neq in Hversion.
  destruct (Js.startsWith "include:" part) eqn:Hinclude.
  { case_bool_decide; [by apply IH|].
    destruct (getSPFRecord env _ s) as [[includeSpf|x] s1]; [|by apply IH].
    destruct (Js.truthy_opt includeSpf); [|by apply IH].
    destruct (self _ _ _ s1) as [[[resolved visited2] s2]|] eqn:Hcall; [|done].
    apply Hself in Hcall as [Hm Hmod].
    apply IH; by apply Forall_app_2. }
  destruct (Js.startsWith "redirect=" part) eqn:Hredirect.
  { apply IH; [done|]. apply Forall_app_2; [done|].
    apply Forall_singleton. unfold is_modifier_term. by rewrite Hredirect. }
  destruct (is_all_term part) eqn:Hall.
  { apply IH; [done|]. apply Forall_app_2; [done|].
    apply Forall_singleton. unfold is_modifier_term. rewrite Hall. apply orb_true_r. }
  assert (Forall flat_term (mechs ++ [part])) as Hkept.
  { apply Forall_app_2; [done|]. by apply Forall_singleton. }
  destruct (String.eqb part "a" || String.eqb part "mx"); [by apply IH|].
  destruct (Js.startsWith "a:" part).
  { destruct (resolveHostToIPs env _ s) as [[ips|x] s1] eqn:Hhost; [|by apply IH].
    apply IH; [|done]. apply Forall_app_2; [done|]. by eapply resolveHostToIPs_flat. }
  destruct (Js.startsWith "mx:" part).
  { destruct (resolveMxToIPs env _ s) as [[ips|x] s1] eqn:Hmx; [|by apply IH].
    apply IH; [|done]. apply Forall_app_2; [done|]. by eapply resolveMxToIPs_flat. }
  by apply IH.
Qed.

Lemma resolveSpfIncludes_fuel_flat fuel : ∀ spfRecord visited depth s r vis' s',
  resolveSpfIncludes_fuel env fuel spfRecord visited depth s = Some (r, vis', s') →
  flat_result r.
Proof.
  induction fuel as [|fuel IH]; intros spfRecord visited depth s r vis' s'; simpl;
    [done|].
  destruct (10 <? depth)%nat.
  - intros [= <- _ _]. by split.
  - apply resolve_parts_flat; [apply IH|done|done].
Qed.

(** A record of direct terms is sorted into the two lists as it stands. *)
Lemma resolve_parts_direct (self : Resolver) parts : ∀ mechs mods visited depth s,
  Forall (fun part => is_indirect_term part = false) parts →
  resolve_parts env self parts mechs mods visited depth s
  = Some ({| mechanisms :=
               mechs ++ filter (fun part => part ≠ "v=spf1"
                                            ∧ is_modifier_term part = false) parts;
             modifiers :=
               mods ++ filter (fun part => part ≠ "v=spf1"
                                           ∧ is_modifier_term part = true) parts |},
          visited, s).
Proof.
  induction parts as [|part rest IH]; intros mechs mods visited depth s Hdirect;
    cbn [resolve_parts].
  { by rewrite !filter_nil, !app_nil_r. }
  apply Forall_cons in Hdirect as [Hpart Hrest].
  unfold is_indirect_term in Hpart.
  apply orb_false_elim in Hpart as [Hpart Hmx].
  apply orb_false_elim in Hpart as [Hinclude Ha].
  rewrite !filter_cons.
  destruct (String.eqb part "v=spf1") eqn:Hversion.
  { apply String.eqb_eq in Hversion as ->. rewrite IH by done.
    rewrite !decide_False by (by intros [? _]). done. }
  apply String.eqb_neq in Hversion. rewrite Hinclude.
  assert (is_modifier_term part
          = Js.startsWith "redirect=" part || is_all_term part) as Hmod by done.
  destruct (Js.startsWith "redirect=" part) eqn:Hredirect.
  { simpl in Hmod. rewrite IH by done.
    rewrite decide_False by (rewrite Hmod; by intros [_ ?]).
    rewrite decide_True by done. by rewrite <- app_assoc. }
  destruct (is_all_term part) eqn:Hall.
  { simpl in Hmod. rewrite IH by done.
    rewrite decide_False by (rewrite Hmod; by intros [_ ?]).
    rewrite decide_True by done. by rewrite <- app_assoc. }
  simpl in Hmod. rewrite decide_True by done.
  rewrite decide_False by (rewrite Hmod; by intros [_ ?]).
  rewrite Ha, Hmx.
  destruct (String.eqb part "a" || String.eqb part "mx");
    rewrite IH by done; by rewrite <- app_assoc.
Qed.

End SpfFacts.

(** X8. What [getSPFRecord] gives back: it makes exactly one TXT lookup of
    the domain; a record it returns starts with [v=spf1]; it returns
    [null] without a record when the lookup succeeded but no TXT record
    starts with [v=spf1]; and an error that it lets through carries a
    code other than ENODATA and ENOTFOUND. *)
Theorem X8_getSPFRecord_result (env : Env) (domain : string) (s : St) :
  snd (getSPFRecord env domain s) = extend s [EvTxt domain]
  ∧ match fst (getSPFRecord env domain s) with
    | Val (Some record) => Js.startsWith "v=spf1" record = true
    | Val None =>
        ∀ records, dns_txt env (trace s) domain = Ok records →
                   Forall (fun r => Js.startsWith "v=spf1" r = false)
                          (map (Js.join "") records)
    | Exc error => absent_code (original error) = false
    end.
Proof.
  unfold getSPFRecord, try_catch, bind, resolveTxt, request, ret, throw, extend.
  destruct (dns_txt env (trace s) domain) as [records|e] eqn:Htxt; simpl.
  - split; [done|].
    destruct (head _) as [record|] eqn:Hhead.
    + by apply head_filter_holds in Hhead.
    + intros ? [= <-]. by apply head_filter_none.
  - destruct (absent_code e) eqn:Hcode; simpl; [|done]. split; [done|]. by intros.
Qed.

(** X9. The result of the resolver is flat: at any depth and whatever the
    lookups answer, no mechanism it returns is an [include:] term or the
    version tag, and every modifier it returns is a [redirect=] or an
    [all] term. *)
Theorem X9_resolveSpfIncludes_flat (env : Env) (spfRecord : string)
    (visited : gset string) (depth : nat) (s : St) :
  flat_result (fst (fst (resolveSpfIncludes env spfRecord visited depth s))).
Proof.
  unfold resolveSpfIncludes.
  destruct (resolveSpfIncludes_fuel env _ spfRecord visited depth s)
    as [[[r vis'] s']|] eqn:Hrun.
  - by apply resolveSpfIncludes_fuel_flat in Hrun.
  - by split.
Qed.

(** X10. A record without [include:], [a:] and [mx:] terms is resolved
    without any lookup: the resolver files its terms, the version tag
    apart, as modifiers or mechanisms in their order, and leaves the trace
    and the visited set as they were. *)
Theorem X10_direct_record_needs_no_lookup (env : Env) (spfRecord : string)
    (visited : gset string) (depth : nat) (s : St) :
  (depth ≤ 10)%nat →
  Forall (fun part => is_indirect_term part = false) (Js.split_ws spfRecord) →
  resolveSpfIncludes env spfRecord visited depth s
  = ({| mechanisms :=
          filter (fun part => part ≠ "v=spf1" ∧ is_modifier_term part = false)
                 (Js.split_ws spfRecord);
        modifiers :=
          filter (fun part => part ≠ "v=spf1" ∧ is_modifier_term part = true)
                 (Js.split_ws spfRecord) |},
     visited, s).
Proof.
  intros Hdepth Hdirect. unfold resolveSpfIncludes, spf_fuel.
  cbn [resolveSpfIncludes_fuel].
  destruct (10 <? depth)%nat eqn:Hdeep; [apply Nat.ltb_lt in Hdeep; lia|].
  by rewrite resolve_parts_direct.
Qed.

(** A record of addresses. *)
Lemma X10_direct_record_needs_no_lookup_witness :
  resolveSpfIncludes nowhere "v=spf1 ip4:192.0.2.0/24 a mx -all" ∅ 0 start
  = ({| mechanisms := ["ip4:192.0.2.0/24"; "a"; "mx"]; modifiers := ["-all"] |},
     ∅, start).
Proof.
  apply (X10_direct_record_needs_no_lookup nowhere
           "v=spf1 ip4:192.0.2.0/24 a mx -all" ∅ 0 start).
  - lia.
  - vm_compute. repeat constructor.
Defined.

(** ** The record sets that the reconcilers build *)

Section Upsert.
Context (p : RR → bool) (v : string).

Lemma update_first_none rrs :
  update_first p v rrs = None ↔ Forall (fun rr => p rr = false) rrs.
Proof.
  induction rrs as [|rr rest IH]; simpl; [by split|].
  destruct (p rr) eqn:Hp.
  - split; [done|]. intros Hall. apply Forall_cons in Hall as [Hrr _]. congruence.
  - destruct (update_first p v rest); simpl.
    + split; [done|]. intros Hall. apply Forall_cons in Hall as [_ Hrest].
      by apply IH in Hrest.
    + split; [|done]. intros _. apply Forall_cons. split; [done|]. by apply IH.
Qed.

(** The loop rewrites the first record that passes the test, in place. *)
Lemma update_first_some rrs rrs' :
  update_first p v rrs = Some rrs' →
  ∃ pre rr post, rrs = pre ++ rr :: post
                 ∧ Forall (fun rr => p rr = false) pre ∧ p rr = true
                 ∧ rrs' = pre ++ written v rr :: post.
Proof.
  revert rrs'. induction rrs as [|rr rest IH]; intros rrs'; simpl; [done|].
  destruct (p rr) eqn:Hp.
  - intros [= <-]. by exists [], rr, rest.
  - destruct (update_first p v rest) as [rest'|]; simpl; [|done].
    intros [= <-]. destruct (IH rest' eq_refl) as (pre & rr' & post & -> & Hpre & Hrr & ->).
    exists (rr :: pre), rr', post. repeat split; try done. by apply Forall_cons.
Qed.

Lemma update_first_app pre rest :
  Forall (fun rr => p rr = false) pre →
  update_first p v (pre ++ rest) = option_map (app pre) (update_first p v rest).
Proof.
  induction pre as [|rr pre IH]; intros Hpre; simpl.
  - by destruct (update_first p v rest).
  - apply Forall_cons in Hpre as [-> Hpre]. rewrite IH by done.
    by destruct (update_first p v rest).
Qed.

Lemma upsert_keeps name rrs j rr :
  rrs !! j = Some rr → p rr = false → upsert p name v rrs !! j = Some rr.
Proof.
  intros Hj Hrr. unfold upsert.
  destruct (update_first p v rrs) as [rrs'|] eqn:Hupdate.
  - apply update_first_some in Hupdate as (pre & rr' & post & -> & Hpre & Hrr' & ->).
    destruct (decide (j < length pre)%nat) as [Hlt|Hge].
    + rewrite lookup_app_l in Hj |- * by done. done.
    + rewrite lookup_app_r in Hj |- * by lia.
      destruct (j - length pre)%nat as [|i]; simpl in *; [|done].
      injection Hj as ->. congruence.
  - by apply lookup_app_l_Some.
Qed.

Lemma upsert_length name rrs :
  length (upsert p name v rrs)
  = if existsb p rrs then length rrs else S (length rrs).
Proof.
  unfold upsert. destruct (update_first p v rrs) as [rrs'|] eqn:Hupdate.
  - apply update_first_some in Hupdate as (pre & rr' & post & -> & Hpre & Hrr' & ->).
    rewrite existsb_app. simpl. rewrite Hrr'. simpl. rewrite orb_true_r.
    by rewrite !length_app.
  - apply update_first_none in Hupdate.
    assert (existsb p rrs = false) as ->.
    { clear name. induction Hupdate as [|rr rest Hrr _ IH]; simpl; [done|].
      by rewrite Hrr, IH. }
    rewrite length_app. simpl. lia.
Qed.

Lemma upsert_writes name rrs :
  ∃ rr, rr ∈ upsert p name v rrs ∧ rr_value rr = Some v ∧ rr_ttl rr = 300.
Proof.
  unfold upsert. destruct (update_first p v rrs) as [rrs'|] eqn:Hupdate.
  - apply update_first_some in Hupdate as (pre & rr' & post & -> & Hpre & Hrr' & ->).
    exists (written v rr'). split; [|done]. apply elem_of_app. right. left.
  - eexists. split; [apply elem_of_app; right; left|done].
Qed.

(** A second write of the same value finds the record of the first. *)
Lemma upsert_idempotent name rrs :
  (∀ rr, p rr = true → p (written v rr) = true) →
  p {| rr_name := name; rr_type := "TXT"; rr_value := Some v; rr_ttl := 300 |} = true →
  upsert p name v (upsert p name v rrs) = upsert p name v rrs.
Proof.
  intros Hstable Hnew.
  destruct (update_first p v rrs) as [rrs'|] eqn:Hupdate.
  - assert (upsert p name v rrs = rrs') as -> by (unfold upsert; by rewrite Hupdate).
    apply update_first_some in Hupdate as (pre & rr' & post & -> & Hpre & Hrr' & ->).
    unfold upsert. rewrite update_first_app by done. simpl.
    by rewrite (Hstable _ Hrr').
  - assert (upsert p name v rrs
            = rrs ++ [{| rr_name := name; rr_type := "TXT"; rr_value := Some v;
                         rr_ttl := 300 |}]) as ->
      by (unfold upsert; by rewrite Hupdate).
    apply update_first_none in Hupdate.
    unfold upsert. rewrite update_first_app by done. simpl. by rewrite Hnew.
Qed.

End Upsert.

Lemma is_txt_named_written recordName v rr :
  is_txt_named recordName (written v rr) = is_txt_named recordName rr.
Proof. done. Qed.

Lemma is_apex_spf_written v rr :
  Js.startsWith "v=spf1" v = true →
  is_apex_spf rr = true → is_apex_spf (written v rr) = true.
Proof.
  intros Hv. unfold is_apex_spf. simpl. rewrite Hv.
  destruct (String.eqb (rr_type rr) "TXT" && is_apex (rr_name rr)); [|done].
  intros _. simpl. rewrite andb_true_r. by destruct v.
Qed.

(** The loop stops at the first record that passes its test. *)
Lemma upsert_cases (p : RR → bool) (name v : string) (rrs : list RR) :
  (Forall (fun rr => p rr = false) rrs
   ∧ upsert p name v rrs
     = rrs ++ [{| rr_name := name; rr_type := "TXT"; rr_value := Some v;
                  rr_ttl := 300 |}])
  ∨ (∃ pre rr post,
       rrs = pre ++ rr :: post
       ∧ Forall (fun rr => p rr = false) pre ∧ p rr = true
       ∧ upsert p name v rrs = pre ++ written v rr :: post).
Proof.
  unfold upsert. destruct (update_first p v rrs) as [rrs'|] eqn:Hupdate.
  - right. apply update_first_some in Hupdate
      as (pre & rr & post & -> & Hpre & Hrr & ->).
    by exists pre, rr, post.
  - left. by apply update_first_none in Hupdate.
Qed.

(** X11. The loop that writes a record touches one record only.  Either
    no record of the zone passes its test, and the result is the zone's
    records, unchanged, followed by one new TXT record of the name with
    the value and a TTL of 300; or the result is the zone's records with
    the first record that passes the test, and no other, rewritten to the
    value and a TTL of 300: the records before it, which do not pass the
    test, and all records after it, whether they pass the test or not, are
    as they were.  So every record that the test does not select stays
    where it was, the result holds a record with the new value, and the
    record set grows by one exactly when no record passed the test. *)
Theorem X11_upsert_touches_one_record (p : RR → bool) (name v : string)
    (rrs : list RR) :
  ((Forall (fun rr => p rr = false) rrs
    ∧ upsert p name v rrs
      = rrs ++ [{| rr_name := name; rr_type := "TXT"; rr_value := Some v;
                   rr_ttl := 300 |}])
   ∨ (∃ pre rr post,
        rrs = pre ++ rr :: post
        ∧ Forall (fun rr => p rr = false) pre ∧ p rr = true
        ∧ upsert p name v rrs
          = pre ++ {| rr_name := rr_name rr; rr_type := rr_type rr;
                      rr_value := Some v; rr_ttl := 300 |} :: post))
  ∧ (∀ j rr, rrs !! j = Some rr → p rr = false → upsert p name v rrs !! j = Some rr)
  ∧ (∃ rr, rr ∈ upsert p name v rrs ∧ rr_value rr = Some v ∧ rr_ttl rr = 300)
  ∧ length (upsert p name v rrs)
    = if existsb p rrs then length rrs else S (length rrs).
Proof.
  split; [|split; [|split]].
  - apply upsert_cases.
  - intros j rr. apply upsert_keeps.
  - apply upsert_writes.
  - apply upsert_length.
Qed.

(** X12. Writing the DMARC record, a DKIM selector or a named TXT record a
    second time with the same value changes nothing: the record set after
    two writes is the record set after one. *)
Theorem X12_named_record_write_idempotent (recordName v : string) (rrs : list RR) :
  upsert is_dmarc_record "_dmarc" v (upsert is_dmarc_record "_dmarc" v rrs)
  = upsert is_dmarc_record "_dmarc" v rrs
  ∧ upsert (is_txt_named recordName) recordName v
      (upsert (is_txt_named recordName) recordName v rrs)
    = upsert (is_txt_named recordName) recordName v rrs.
Proof.
  split.
  - by apply upsert_idempotent.
  - apply upsert_idempotent; [done|].
    unfold is_txt_named. simpl. apply String.eqb_refl.
Qed.

(** X13. Writing the SPF record of the apex a second time changes nothing,
    provided the value written is an SPF record, that is, starts with
    [v=spf1]. *)
Theorem X13_spf_write_idempotent (spfValue : string) (rrs : list RR) :
  Js.startsWith "v=spf1" spfValue = true →
  upsert is_apex_spf "" spfValue (upsert is_apex_spf "" spfValue rrs)
  = upsert is_apex_spf "" spfValue rrs.
Proof.
  intros Hv. apply upsert_idempotent.
  - intros rr. by apply is_apex_spf_written.
  - unfold is_apex_spf. simpl. rewrite Hv. by destruct spfValue.
Qed.

(** The expected record of the production configuration, written to a zone
    that holds another SPF record at its apex. *)
Lemma X13_spf_write_idempotent_witness :
  upsert is_apex_spf "" (expectedSpf production)
    (upsert is_apex_spf "" (expectedSpf production)
       [{| rr_name := "@"; rr_type := "TXT"; rr_value := Some "v=spf1 mx ~all";
           rr_ttl := 3600 |}])
  = upsert is_apex_spf "" (expectedSpf production)
      [{| rr_name := "@"; rr_type := "TXT"; rr_value := Some "v=spf1 mx ~all";
          rr_ttl := 3600 |}].
Proof.
  apply (X13_spf_write_idempotent (expectedSpf production)
           [{| rr_name := "@"; rr_type := "TXT"; rr_value := Some "v=spf1 mx ~all";
               rr_ttl := 3600 |}]).
  vm_compute. reflexivity.
Defined.

(** ** Names, summaries and the DKIM configuration *)

Module SplitJoin.

Lemma append_nil_r (s : string) : s +:+ EmptyString = s.
Proof.
  apply StringFacts.chars_inj. rewrite StringFacts.chars_append. apply app_nil_r.
Qed.

Lemma append_assoc (a b c : string) : (a +:+ b) +:+ c = a +:+ (b +:+ c).
Proof.
  apply StringFacts.chars_inj. rewrite !StringFacts.chars_append.
  by rewrite app_assoc.
Qed.

Lemma split_on_go_nonempty sep s : ∀ cur, Js.split_on_go sep cur s ≠ [].
Proof.
  induction s as [|c t IH]; intros cur; simpl; [done|].
  destruct (Ascii.eqb c sep); [done|apply IH].
Qed.

Lemma concat_cons sep x xs :
  xs ≠ [] → String.concat sep (x :: xs) = x +:+ sep +:+ String.concat sep xs.
Proof. by destruct xs. Qed.

(** Joining the pieces of a split with the separator gives the string. *)
Lemma join_split_on_go sep s : ∀ cur,
  Js.join (String sep EmptyString) (Js.split_on_go sep cur s) = String.rev cur +:+ s.
Proof.
  unfold Js.join. induction s as [|c t IH]; intros cur; simpl.
  - by rewrite append_nil_r.
  - destruct (Ascii.eqb c sep) eqn:Hc.
    + apply Ascii.eqb_eq in Hc as ->.
      rewrite concat_cons by apply split_on_go_nonempty. by rewrite IH.
    + rewrite IH, StringFacts.rev_cons, append_assoc. done.
Qed.

Lemma join_split_on sep s :
  Js.join (String sep EmptyString) (Js.split_on sep s) = s.
Proof. unfold Js.split_on. by rewrite join_split_on_go. Qed.

Lemma join_app sep (xs ys : list string) :
  xs ≠ [] → ys ≠ [] →
  Js.join sep (xs ++ ys) = Js.join sep xs +:+ sep +:+ Js.join sep ys.
Proof.
  unfold Js.join. intros Hxs Hys. induction xs as [|x xs IH]; [done|].
  destruct xs as [|x' xs].
  - change ([x] ++ ys) with (x :: ys). change (String.concat sep [x]) with x.
    rewrite concat_cons by done. reflexivity.
  - change ((x :: x' :: xs) ++ ys) with (x :: (x' :: xs) ++ ys).
    rewrite concat_cons by (simpl; discriminate). rewrite IH by done.
    rewrite (concat_cons sep x (x' :: xs)) by done. by rewrite !append_assoc.
Qed.

End SplitJoin.

(** X14. How [updateDiebasisSPFRecord] cuts a record name: with three
    labels or more, the zone is made of the last two and the name in the
    zone of the others, so that name, dot and zone give the record name
    back; with two labels or fewer, the whole name is taken for the zone
    and the record is the one of the apex. *)
Theorem X14_record_name_decomposition (recordName : string) :
  if (length (Js.split_on "."%char recordName) <=? 2)%nat
  then prefix_of_record recordName = "" ∧ zone_of_record recordName = recordName
  else prefix_of_record recordName +:+ "." +:+ zone_of_record recordName = recordName.
Proof.
  unfold prefix_of_record, zone_of_record, but_last_two, last_two.
  pose proof (SplitJoin.join_split_on "."%char recordName) as Hjoin.
  destruct (length (Js.split_on "."%char recordName) <=? 2)%nat eqn:Hlen.
  - apply Nat.leb_le in Hlen.
    replace (length (Js.split_on "." recordName) - 2)%nat with 0%nat by lia.
    by rewrite take_0, drop_0.
  - apply Nat.leb_gt in Hlen.
    rewrite <- SplitJoin.join_app.
    + by rewrite take_drop.
    + intros Hnil. apply (f_equal length) in Hnil.
      rewrite length_take in Hnil. simpl in Hnil. lia.
    + intros Hnil. apply (f_equal length) in Hnil.
      rewrite length_drop in Hnil. simpl in Hnil. lia.
Qed.

(** X15. The report reads the health summary back as it was built: for
    every outcome of the checks, the six health lines of the report show
    the flags of the name-server, SOA, CAA, MTA-STS, TLS-RPT and PTR
    checks; the outcome of the MX check appears in neither. *)
Theorem X15_health_summary_round_trip (status : HealthStatus) :
  health_lines (buildHealthSummary status)
  = ["    Nameserver: " +:+ flag (h_ns status);
     "    SOA:        " +:+ flag (h_soa status);
     "    CAA:        " +:+ flag (h_caa status);
     "    MTA:        " +:+ flag (h_mta status);
     "    TLS:        " +:+ flag (h_tls status);
     "    PTR:        " +:+ flag (h_ptr status)]
  ∧ buildHealthSummary status
    = buildHealthSummary {| h_ns := h_ns status; h_soa := h_soa status;
                            h_caa := h_caa status; h_mta := h_mta status;
                            h_tls := h_tls status; h_mx := negb (h_mx status);
                            h_ptr := h_ptr status |}.
Proof.
  destruct status as [[] [] [] [] [] mx []]; split; vm_compute; reflexivity.
Qed.

(** What the loop leaves under every key. *)
Lemma ensure_dkim_entries_lookup domains : ∀ dkimConfig configUpdated k,
  fst (ensure_dkim_entries domains dkimConfig configUpdated) !! k
  = if bool_decide (k ∈ map domain_key domains) && negb (has_truthy dkimConfig k)
    then Some default_entry else dkimConfig !! k.
Proof.
  induction domains as [|d rest IH]; intros dkimConfig configUpdated k;
    cbn [ensure_dkim_entries map]; [done|].
  destruct (has_truthy dkimConfig (domain_key d)) eqn:Hread; cbn [negb]; rewrite IH.
  - destruct (decide (k = domain_key d)) as [->|Hne].
    + rewrite Hread. cbn [negb]. by rewrite !andb_false_r.
    + destruct (has_truthy dkimConfig k); cbn [negb];
        rewrite ?andb_false_r, ?andb_true_r; [done|].
      do 2 case_bool_decide; set_solver.
  - destruct (decide (k = domain_key d)) as [->|Hne].
    + assert (has_truthy (<[domain_key d:=default_entry]> dkimConfig) (domain_key d)
              = true) as ->.
      { unfold has_truthy. by rewrite lookup_insert_eq. }
      rewrite Hread. cbn [negb]. rewrite andb_false_r, andb_true_r.
      rewrite lookup_insert_eq. by rewrite bool_decide_true by set_solver.
    + assert (has_truthy (<[domain_key d:=default_entry]> dkimConfig) k
              = has_truthy dkimConfig k) as ->.
      { unfold has_truthy. by rewrite lookup_insert_ne. }
      rewrite lookup_insert_ne by done.
      destruct (has_truthy dkimConfig k); cbn [negb];
        rewrite ?andb_false_r, ?andb_true_r; [done|].
      do 2 case_bool_decide; set_solver.
Qed.

Lemma ensure_dkim_entries_flag domains : ∀ dkimConfig configUpdated,
  snd (ensure_dkim_entries domains dkimConfig configUpdated)
  = configUpdated
    || existsb (fun domain => negb (has_truthy dkimConfig (domain_key domain)))
               domains.
Proof.
  induction domains as [|d rest IH]; intros dkimConfig configUpdated;
    cbn [ensure_dkim_entries existsb].
  - by rewrite orb_false_r.
  - destruct (has_truthy dkimConfig (domain_key d)) eqn:Hread; cbn [negb];
      rewrite IH; [done|].
    cbn [orb]. by rewrite orb_true_r.
Qed.

(** X16. The loop that completes the DKIM configuration, on the plain
    object parsed from the file.  It adds an entry exactly where the read
    [dkimConfig[domainName]] of a listed domain is falsy, that is, where
    the name is no own property and not inherited from [Object.prototype]
    (as [constructor] or [toString] are), or is an own property of a falsy
    value, which is overwritten: such a key then holds the default
    selector with an empty value, and every other key holds what it held.
    Afterwards the read is truthy for every listed domain; and the
    configuration counts as updated exactly when it was so before or the
    read was falsy for a listed domain. *)
Theorem X16_ensure_dkim_entries (domains : list DomainEntry)
    (dkimConfig : DkimFile) (configUpdated : bool) :
  (∀ domain, domain ∈ domains →
     has_truthy (fst (ensure_dkim_entries domains dkimConfig configUpdated))
                (domain_key domain) = true)
  ∧ (∀ k, fst (ensure_dkim_entries domains dkimConfig configUpdated) !! k
          = if bool_decide (k ∈ map domain_key domains)
               && negb (has_truthy dkimConfig k)
            then Some default_entry else dkimConfig !! k)
  ∧ snd (ensure_dkim_entries domains dkimConfig configUpdated)
    = configUpdated
      || existsb (fun domain => negb (has_truthy dkimConfig (domain_key domain)))
                 domains.
Proof.
  split; [|split].
  - intros domain Hin. unfold has_truthy at 1. rewrite ensure_dkim_entries_lookup.
    rewrite bool_decide_true by (apply list_elem_of_fmap; by exists domain).
    cbn [andb]. destruct (has_truthy dkimConfig (domain_key domain)) eqn:Hread;
      cbn [negb]; [|done].
    exact Hread.
  - intros k. apply ensure_dkim_entries_lookup.
  - apply ensure_dkim_entries_flag.
Qed.

(** The loop on a configuration that holds [null] for one listed domain
    and nothing for two others, one of them named as a property that every
    object inherits. *)
Example ensure_dkim_entries_edge_cases :
  ensure_dkim_entries
    [{| d_name := Some "example.com"; d_origin := None |};
     {| d_name := Some "constructor"; d_origin := None |};
     {| d_name := None; d_origin := Some "example.org" |}]
    {["example.com" := CvNull]} false
  = (<["example.org" := default_entry]> {["example.com" := default_entry]}, true).
Proof. vm_compute. reflexivity. Qed.

(** ** Failures that are reported, not thrown *)

Lemma returns_ret {A} (a : A) : returns (ret a).
Proof. intros s. by exists a, s. Qed.

Lemma returns_bind {A B} (m : M A) (k : A → M B) :
  returns m → (∀ a, returns (k a)) → returns (bind m k).
Proof.
  intros Hm Hk s. unfold bind. destruct (Hm s) as (a & s1 & ->). apply Hk.
Qed.

(** A handler that returns makes the whole [try] return. *)
Lemma returns_try_catch {A} (m : M A) (h : Exn → M A) :
  (∀ x, returns (h x)) → returns (try_catch m h).
Proof.
  intros Hh s. unfold try_catch. destruct (m s) as [[a|x] s1]; [by eexists _, _|].
  apply Hh.
Qed.

Lemma returns_modify r f : returns (modify r f).
Proof. intros s. by eexists _, _. Qed.

Lemma returns_set_field r field v : returns (set_field r field v).
Proof. apply returns_modify. Qed.

Lemma returns_mapM {A B} (f : A → M B) xs : (∀ x, returns (f x)) → returns (mapM f xs).
Proof.
  intros Hf. induction xs as [|x xs IH]; simpl; [apply returns_ret|].
  apply returns_bind; [apply Hf|]. intros y.
  apply returns_bind; [apply IH|]. intros ys. apply returns_ret.
Qed.

Lemma yields_ret {A} (r : A) : yields r (ret r).
Proof. by intros s a s' [= <- _]. Qed.

Lemma yields_bind {A B} (m : M A) (k : A → M B) (r : B) :
  (∀ a, yields r (k a)) → yields r (bind m k).
Proof.
  intros Hk s b s'. unfold bind. destruct (m s) as [[a|x] s1]; [apply Hk|done].
Qed.

Section NeverThrown.
Context (env : Env) (config : Config).

Lemma returns_or_empty {A} (m : M (list A)) : returns (or_empty m).
Proof. apply returns_try_catch. intros x. apply returns_ret. Qed.

Lemma returns_check_selector domain selector :
  returns (check_selector env domain selector).
Proof.
  apply returns_try_catch. intros x.
  destruct (absent_code (original x)); apply returns_ret.
Qed.

Lemma returns_checkDKIMRecords domain : returns (checkDKIMRecords env config domain).
Proof.
  apply returns_bind; [apply returns_mapM, returns_check_selector|].
  intros found. apply returns_ret.
Qed.

Lemma returns_mx_targets_resolvable mxHosts : ∀ ok,
  returns (mx_targets_resolvable env ok mxHosts).
Proof.
  induction mxHosts as [|h rest IH]; intros ok; simpl; [apply returns_ret|].
  apply returns_bind; [apply returns_or_empty|]. intros a.
  apply returns_bind; [apply returns_or_empty|]. intros aaaa. apply IH.
Qed.

Lemma returns_fatal result error : returns (fatal result error).
Proof.
  unfold fatal. cbv zeta.
  repeat (apply returns_bind; [apply returns_set_field|]; intros _).
  apply returns_set_field.
Qed.

Lemma checkDomain_returns domainName dkimConfig s :
  ∃ s', checkDomain env config domainName dkimConfig s = (Val (length (heap s)), s').
Proof.
  unfold checkDomain, bind at 1, alloc.
  set (result := length (heap s)).
  set (s0 := {| trace := trace s; heap := heap s ++ [initial_result] |}).
  match goal with
  | |- ∃ s', try_catch ?body ?handler s0 = _ =>
      assert (yields result body) as Hbody;
      [|unfold try_catch; destruct (body s0) as [[a|x] s1] eqn:Hrun]
  end.
  - apply yields_bind. intros usesAutoDNS.
    destruct (negb usesAutoDNS);
      repeat (apply yields_bind; intros ?); apply yields_ret.
  - apply Hbody in Hrun as ->. by exists s1.
  - destruct (returns_fatal result x s1) as ([] & s2 & Hfatal).
    exists s2. unfold bind. by rewrite Hfatal.
Qed.

End NeverThrown.

(** X17. The check of a domain never throws: whatever the resolver, the
    API and the timer do, [checkDomain] returns, and what it returns is
    the result object it created at its start. *)
Theorem X17_checkDomain_never_throws (env : Env) (config : Config)
    (domainName : string) (dkimConfig : DkimConfig) (s : St) :
  ∃ s', checkDomain env config domainName dkimConfig s = (Val (length (heap s)), s').
Proof. apply checkDomain_returns. Qed.

(** X18. The DMARC and DKIM reconcilers and the DKIM detection report a
    failure by their result and never by an exception, whatever the
    resolver and the API do. *)
Theorem X18_reconcilers_never_throw (env : Env) (config : Config)
    (domainName selector value : string) :
  returns (updateDomainDMARCRecord env config domainName value)
  ∧ returns (addDMARCReportAuthRecord env config domainName)
  ∧ returns (updateDomainDKIMRecord env config domainName selector value)
  ∧ returns (listZoneDKIMRecords env domainName)
  ∧ returns (checkDKIMRecords env config domainName).
Proof.
  repeat split;
    first [ apply returns_checkDKIMRecords
          | apply returns_try_catch; intros x; apply returns_ret ].
Qed.

(** X19. No health check throws: each of the checks of the name servers,
    SOA, CAA, MTA-STS, TLS-RPT, PTR and MX, the test for the provider's
    name servers, and the two steps of [checkDomain] that collect records
    and health data return whatever the resolver, the policy host and the
    API do. *)
Theorem X19_health_checks_never_throw (env : Env) (domain : string)
    (mxHosts : list string) (result : loc) :
  returns (checkNS env domain) ∧ returns (checkSOA env domain)
  ∧ returns (checkCAA env domain) ∧ returns (checkMtaSts env domain)
  ∧ returns (checkTlsRpt env domain) ∧ returns (checkPTRForOutbound env domain)
  ∧ returns (checkMXIntegrity env domain mxHosts)
  ∧ returns (usesAutoDNSNameservers env domain)
  ∧ returns (getRecordsForDomain env domain result)
  ∧ returns (addHealthChecks env domain result).
Proof.
  repeat split;
    first [ apply returns_try_catch; intros x;
            first [apply returns_ret | apply returns_set_field]
          | idtac ].
  unfold checkMXIntegrity.
  apply returns_bind; [apply returns_mx_targets_resolvable|].
  intros ok. apply returns_ret.
Qed.

(** X20. The authorisation record for DMARC reports is not written twice:
    when the zone that [getZone] fetched already holds a TXT record of the
    name [<domain>._report._dmarc], with whatever value,
    [addDMARCReportAuthRecord] reports success in the state the fetch
    left: it changes no object and sends no update. *)
Theorem X20_report_authorisation_not_rewritten (env : Env) (config : Config)
    (domainName : string) (s s1 : St) (zoneInfo : ZoneInfo)
    (zone : loc) (rest : list loc) (z : Obj) (rrs : list RR) :
  getZone env (dmarcReportAuthDomain config) s = (Val zoneInfo, s1) →
  zi_data zoneInfo = Some (zone :: rest) →
  heap s1 !! zone = Some z →
  z !! "resourceRecords" = Some (FRecords rrs) →
  existsb (is_report_auth (domainName +:+ "._report._dmarc")) rrs = true →
  addDMARCReportAuthRecord env config domainName s = (Val true, s1).
Proof.
  intros Hget Hdata Hzone Hrrs Hfound.
  unfold addDMARCReportAuthRecord. cbv zeta. unfold try_catch, bind. rewrite Hget.
  unfold first_zone. rewrite Hdata. unfold ret at 1.
  unfold ensure_records, bind. rewrite (deref_some zone z s1 Hzone).
  unfold records_view. rewrite Hrrs. unfold ret at 1.
  unfold is_report_auth in Hfound. by rewrite Hfound.
Qed.

(** The zone of the report address, served with the record of
    [example.org] in it. *)
Lemma X20_report_authorisation_not_rewritten_witness :
  addDMARCReportAuthRecord authorising_world production "example.org" start
  = (Val true,
     {| trace := [EvAcquire; EvApiGet "diebasis.de"]; heap := [authorising_zone] |}).
Proof.
  apply (X20_report_authorisation_not_rewritten authorising_world production
           "example.org" start
           {| trace := [EvAcquire; EvApiGet "diebasis.de"];
              heap := [authorising_zone] |}
           {| zi_status := Some {| st_type := "SUCCESS"; st_text := "" |};
              zi_data := Some [0%nat] |}
           0%nat [] authorising_zone [report_auth_record]).
  - vm_compute. reflexivity.
  - reflexivity.
  - reflexivity.
  - vm_compute. reflexivity.
  - vm_compute. reflexivity.
Defined.

(** ** What a sanitized name is made of *)

Module NameChars.

Lemma all_chars_append p (a b : string) :
  Validators.all_chars p (a +:+ b)
  = Validators.all_chars p a && Validators.all_chars p b.
Proof.
  unfold Validators.all_chars. by rewrite StringFacts.chars_append, forallb_app.
Qed.

Lemma all_chars_join p sep parts :
  Validators.all_chars p sep = true →
  forallb (Validators.all_chars p) parts = true →
  Validators.all_chars p (Js.join sep parts) = true.
Proof.
  intros Hsep. unfold Js.join. induction parts as [|x xs IH]; [done|].
  intros Hparts. apply andb_true_iff in Hparts as [Hx Hxs].
  destruct xs as [|x' xs]; [done|].
  rewrite SplitJoin.concat_cons by done.
  rewrite !all_chars_append, Hx, Hsep. by apply IH.
Qed.

Lemma forallb_weaken {A} (p q : A → bool) xs :
  (∀ x, p x = true → q x = true) → forallb p xs = true → forallb q xs = true.
Proof.
  intros Hpq. induction xs as [|x xs IH]; simpl; [done|].
  intros Hall. apply andb_true_iff in Hall as [Hx Hxs].
  by rewrite (Hpq _ Hx), IH.
Qed.

Lemma valid_label_chars l :
  Validators.valid_label l = true →
  Validators.all_chars (fun c => Validators.is_label_char c || Ascii.eqb c ".") l = true.
Proof.
  unfold Validators.valid_label.
  destruct (Validators.first_char l); [|done].
  destruct (Validators.last_char l); [|done].
  intros Hvalid. apply andb_true_iff in Hvalid as [Hvalid _].
  apply andb_true_iff in Hvalid as [_ Hchars].
  revert Hchars. unfold Validators.all_chars. apply forallb_weaken.
  by intros c ->.
Qed.

(** A valid name holds letters, digits, hyphens and dots only. *)
Lemma valid_name_chars domain :
  Validators.isValidDomainName domain = true →
  Validators.all_chars (fun c => Validators.is_label_char c || Ascii.eqb c ".")
                       domain = true.
Proof.
  unfold Validators.isValidDomainName.
  destruct (_ || _); [done|]. intros Hlabels.
  rewrite <- (SplitJoin.join_split_on "."%char domain).
  apply all_chars_join; [done|].
  revert Hlabels. apply forallb_weaken, valid_label_chars.
Qed.

Lemma lower_fixed_char c :
  Js.lower_char c = c →
  Validators.is_label_char c || Ascii.eqb c "." = true → is_name_char c = true.
Proof.
  destruct c as [[] [] [] [] [] [] [] []]; vm_compute; intros Hlower Hchar;
    first [reflexivity | discriminate Hlower | discriminate Hchar].
Qed.

Lemma lower_fixed_chars s :
  Js.toLowerCase s = s →
  Validators.all_chars (fun c => Validators.is_label_char c || Ascii.eqb c ".") s = true →
  Validators.all_chars is_name_char s = true.
Proof.
  unfold Validators.all_chars. induction s as [|c t IH]; [done|].
  cbn [Js.toLowerCase list_ascii_of_string forallb].
  intros [= Hc Ht] Hall. apply andb_true_iff in Hall as [Hchar Hrest].
  by rewrite (lower_fixed_char c Hc Hchar), IH.
Qed.

End NameChars.

(** X21. A name that [sanitizeDomainName] returns is made of digits,
    lower-case letters, hyphens and dots only, is not empty and has at most
    253 code units: the zone name that the client puts into the URL of a
    request holds no slash, no white space and no upper-case letter. *)
Theorem X21_sanitized_name_characters (domain sanitized : string) :
  Validators.sanitizeDomainName domain = Some sanitized →
  Validators.all_chars is_name_char sanitized = true
  ∧ sanitized ≠ ""
  ∧ (String.length sanitized ≤ 253)%nat.
Proof.
  unfold Validators.sanitizeDomainName.
  destruct (Validators.isValidDomainName (Js.trim (Js.toLowerCase domain))) eqn:Hvalid;
    [|done].
  intros [= <-]. split; [|split].
  - apply NameChars.lower_fixed_chars; [|by apply NameChars.valid_name_chars].
    by rewrite StringFacts.toLowerCase_trim, StringFacts.toLowerCase_toLowerCase.
  - intros Hempty. rewrite Hempty in Hvalid. done.
  - unfold Validators.isValidDomainName in Hvalid.
    destruct (String.eqb _ _); [done|]. simpl in Hvalid.
    destruct (253 <? _)%nat eqn:Hlen; [done|]. by apply Nat.ltb_ge in Hlen.
Qed.

Lemma X21_sanitized_name_characters_witness :
  Validators.all_chars is_name_char "mail.example-1.com" = true
  ∧ "mail.example-1.com" ≠ ""
  ∧ (String.length "mail.example-1.com" ≤ 253)%nat.
Proof.
  apply (X21_sanitized_name_characters "  Mail.EXAMPLE-1.com " "mail.example-1.com").
  vm_compute. reflexivity.
Defined.

(** ** Two checks that talk to at most one more host *)

(** X22. The MTA-STS check looks up the TXT record of [_mta-sts.<domain>]
    and contacts the policy host only if a record found there advertises
    [v=STSv1], and then once, at the well-known URL of the domain; the
    check succeeds only if the policy was fetched. *)
Theorem X22_mta_sts_fetch_only_when_advertised (env : Env) (domain : string)
    (s : St) :
  let advertised :=
    match dns_txt env (trace s) ("_mta-sts." +:+ domain) with
    | Ok txt => (0 <? length txt)%nat && Js.includes "v=STSv1" (Js.join "" (concat txt))
    | Fail _ => false
    end in
  let url := "https://mta-sts." +:+ domain +:+ "/.well-known/mta-sts.txt" in
  ∃ ok, checkMtaSts env domain s
        = (Val ok, extend s (EvTxt ("_mta-sts." +:+ domain)
                               :: if advertised then [EvHttpsGet url] else []))
        ∧ (ok = true → advertised = true).
Proof.
  cbv zeta.
  unfold checkMtaSts, safeResolveTxt, resolveTxt, try_catch, bind, request, ret, extend.
  destruct (dns_txt env (trace s) ("_mta-sts." +:+ domain)) as [txt|e]; cbn [trace heap].
  - destruct ((0 <? length txt)%nat && Js.includes "v=STSv1" (Js.join "" (concat txt)))
      eqn:Hfound; cbn [trace heap].
    + destruct (https_get env _ _) as [data|e]; cbn [trace heap];
        eexists; (split; [by rewrite <- app_assoc|done]).
    + eexists. split; [done|]. done.
  - eexists. split; [done|]. done.
Qed.

(** X23. The PTR check resolves the host, IPv4 first, and makes one
    reverse lookup, of the first address it got, or none when the host has
    no address, in which case the check fails. *)
Theorem X23_ptr_check_one_reverse_lookup (env : Env) (mxHost : string) (s : St) :
  let v4 := match dns_a env (trace s) mxHost with Ok ips => ips | Fail _ => [] end in
  let v6 := match dns_aaaa env (trace s ++ [EvA mxHost]) mxHost with
            | Ok ips => ips
            | Fail _ => []
            end in
  ∃ ok, checkPTRForOutbound env mxHost s
        = (Val ok, extend s ([EvA mxHost; EvAAAA mxHost]
                             ++ match v4 ++ v6 with
                                | [] => []
                                | ip :: _ => [EvPtr ip]
                                end))
        ∧ (v4 ++ v6 = [] → ok = false).
Proof.
  cbv zeta.
  unfold checkPTRForOutbound, or_empty, resolve4, resolve6, reversePtr,
    try_catch, bind, request, ret, extend.
  destruct (dns_a env (trace s) mxHost) as [v4|e4]; cbn [trace heap];
    destruct (dns_aaaa env (trace s ++ [EvA mxHost]) mxHost) as [v6|e6];
    cbn [trace heap];
    match goal with
    | |- context [match ?ips with [] => [] | ip :: _ => [EvPtr ip] end] =>
        destruct ips as [|ip ips']
    end;
    cbn [trace heap];
    try (destruct (dns_ptr env _ ip) as [ptr|e]; cbn [trace heap]);
    eexists; (split; [by rewrite <- ?app_assoc|done]).
Qed.

(** ** The name of a DKIM record *)

Lemma substring_from_append (a b : string) :
  Js.substring_from (String.length a) (a +:+ b) = b.
Proof. induction a as [|c a IH]; [by destruct b|apply IH]. Qed.

Lemma length_append (a b : string) :
  String.length (a +:+ b) = (String.length a + String.length b)%nat.
Proof.
  induction a as [|c a IH]; [done|].
  change (S (String.length (a +:+ b)) = S (String.length a + String.length b)).
  by rewrite IH.
Qed.

Lemma endsWith_append (a b : string) : Js.endsWith b (a +:+ b) = true.
Proof.
  unfold Js.endsWith. rewrite length_append.
  replace (String.length a + String.length b - String.length b)%nat
    with (String.length a) by lia.
  rewrite substring_from_append, String.eqb_refl, andb_true_r.
  apply Nat.leb_le. lia.
Qed.

Lemma remove_first_suffix (selector : string) :
  Validators.all_chars (fun c => negb (Ascii.eqb c ".")) selector = true →
  Js.remove_first "._domainkey" (selector +:+ "._domainkey") = selector.
Proof.
  unfold Validators.all_chars. induction selector as [|c t IH]; [done|].
  cbn [list_ascii_of_string forallb]. intros Hall.
  apply andb_true_iff in Hall as [Hc Ht].
  change (String c t +:+ "._domainkey") with (String c (t +:+ "._domainkey")).
  cbn [Js.remove_first String.prefix].
  destruct (ascii_dec "." c) as [<-|Hne]; [done|].
  by rewrite IH.
Qed.

(** X24. The listing of the DKIM records of a zone recovers the selector
    and the value of a record that [updateDomainDKIMRecord] created, for
    every selector without a dot in it. *)
Theorem X24_dkim_record_round_trip (selector dkimValue : string) :
  Validators.all_chars (fun c => negb (Ascii.eqb c ".")) selector = true →
  zone_dkim_entry (dkim_record selector dkimValue)
  = Some {| dk_selector := selector; dk_found := true;
            dk_record := Some (dkim_excerpt dkimValue);
            dk_fullValue := Some dkimValue; dk_error := None |}.
Proof.
  intros Hselector. unfold zone_dkim_entry, dkim_record. cbn [rr_type rr_name rr_value].
  rewrite endsWith_append, remove_first_suffix by done. done.
Qed.

Lemma X24_dkim_record_round_trip_witness :
  zone_dkim_entry (dkim_record "default" "v=DKIM1; k=rsa; p=MIGf")
  = Some {| dk_selector := "default"; dk_found := true;
            dk_record := Some (dkim_excerpt "v=DKIM1; k=rsa; p=MIGf");
            dk_fullValue := Some "v=DKIM1; k=rsa; p=MIGf"; dk_error := None |}.
Proof.
  apply (X24_dkim_record_round_trip "default" "v=DKIM1; k=rsa; p=MIGf").
  vm_compute. reflexivity.
Defined.

(* ===================================================================== *)
(** * The domain that is not on the provider's name servers, step by step *)
(* ===================================================================== *)



Section Retrieval.
Context (env : Env).









End Retrieval.

Section Aggregation.
Context (env : Env).



End Aggregation.





